(** * Crossword CSP solver ([generate.py]): model and verification

    A shallow embedding of [CrosswordCreator] — node consistency, arc
    revision, AC-3, the consistency check, the two ordering heuristics and
    the backtracking search — followed by the properties of the
    specification that are settled against it.

    Conventions of the embedding:
    - a Python [dict] is an association list in insertion order with
      pairwise distinct keys; [for k in d] walks it front to back;
    - a Python [set] of words is a list of strings, the order of the list
      being the order in which the set happens to be iterated;
    - a Python exception is the outcome [Exn e]; a loop that has not
      finished within the given number of steps is the outcome [OutOfFuel],
      and every function with a fuel argument is proved to finish within
      an explicit bound. *)

From Stdlib Require Import List String Ascii Arith Bool Lia PeanoNat Sorted Permutation.
Import ListNotations.
Local Open Scope list_scope.

(** ** Outcomes of Python code *)

Inductive exn : Type :=
| TypeError          (* unpacking the no-constraint marker [None] *)
| IndexError         (* string or list index out of range *)
| KeyError           (* missing dict key, or [set.remove] of an absent element *)
| UnboundLocalError. (* local variable read before assignment *)

Inductive res (A : Type) : Type :=
| Ret (a : A)
| Exn (e : exn)
| OutOfFuel.
Arguments Ret {A} a.
Arguments Exn {A} e.
Arguments OutOfFuel {A}.

Definition bind {A B : Type} (m : res A) (f : A -> res B) : res B :=
  match m with
  | Ret a => f a
  | Exn e => Exn e
  | OutOfFuel => OutOfFuel
  end.

Notation "x <- m ;; k" := (bind m (fun x => k))
  (at level 61, m at next level, right associativity).
Notation "' p <- m ;; k" := (bind m (fun x => let p := x in k))
  (at level 61, p pattern, m at next level, right associativity).

(** A [for] loop that threads a state and may raise. *)
Fixpoint foldM {A S : Type} (f : S -> A -> res S) (l : list A) (s : S) : res S :=
  match l with
  | [] => Ret s
  | a :: l' => s' <- f s a ;; foldM f l' s'
  end.

(** A [for] loop whose body may [return False]; falling through is [True]. *)
Fixpoint forallM {A : Type} (f : A -> res bool) (l : list A) : res bool :=
  match l with
  | [] => Ret true
  | a :: l' => b <- f a ;; if b then forallM f l' else Ret false
  end.

(** ** Slots ([crossword.Variable], here [Var] since [Variable] is reserved) *)

Module Var.

Inductive Direction : Type := ACROSS | DOWN.

(** [Variable(i, j, direction, length)]; equality and hashing are on the
    four attributes, so structural equality is the equality of keys. *)
Record t : Type := mk {
  i : nat;
  j : nat;
  direction : Direction;
  length : nat
}.

Definition direction_eqb (a b : Direction) : bool :=
  match a, b with
  | ACROSS, ACROSS | DOWN, DOWN => true
  | _, _ => false
  end.

Definition eqb (a b : t) : bool :=
  (i a =? i b) && (j a =? j b)
  && direction_eqb (direction a) (direction b)
  && (length a =? length b).

Definition eq_dec (a b : t) : {a = b} + {a <> b}.
Proof. repeat decide equality. Defined.

End Var.

(** ** Dictionaries keyed by slots *)

Section Dict.
Context {V : Type}.

Definition dict : Type := list (Var.t * V).

Definition keys (d : dict) : list Var.t := map fst d.
Definition values (d : dict) : list V := map snd d.

(** [d[k]], [None] standing for the [KeyError]. *)
Fixpoint dict_get (d : dict) (k : Var.t) : option V :=
  match d with
  | [] => None
  | (k', v) :: d' => if Var.eqb k' k then Some v else dict_get d' k
  end.

(** [k in d] *)
Definition dict_mem (d : dict) (k : Var.t) : bool :=
  match dict_get d k with Some _ => true | None => false end.

(** [d[k] = v]: an existing key keeps its place, a new key goes last. *)
Fixpoint dict_set (d : dict) (k : Var.t) (v : V) : dict :=
  match d with
  | [] => [(k, v)]
  | (k', v') :: d' =>
      if Var.eqb k' k then (k', v) :: d' else (k', v') :: dict_set d' k v
  end.

Definition dict_get_exn (d : dict) (k : Var.t) : res V :=
  match dict_get d k with
  | Some v => Ret v
  | None => Exn KeyError
  end.

End Dict.
Arguments dict V : clear implicits.

(** ** Words and sets of words *)

(** [word[k]] for a non-negative [k]. *)
Definition str_index (word : string) (k : nat) : res ascii :=
  match String.get k word with
  | Some c => Ret c
  | None => Exn IndexError
  end.

Definition word_in (w : string) (s : list string) : bool :=
  existsb (String.eqb w) s.

(** [s.remove(w)]: raises [KeyError] when [w] is not an element. *)
Definition set_remove (w : string) (s : list string) : res (list string) :=
  if word_in w s
  then Ret (filter (fun w' => negb (String.eqb w' w)) s)
  else Exn KeyError.

(** [sorted(l, key=key)]: a stable sort, elements with equal keys keep
    their relative order. *)
Fixpoint insert_by {A : Type} (key : A -> nat) (x : A) (l : list A) : list A :=
  match l with
  | [] => [x]
  | y :: l' => if key x <=? key y then x :: l else y :: insert_by key x l'
  end.

Definition sorted {A : Type} (key : A -> nat) (l : list A) : list A :=
  fold_right (insert_by key) [] l.

(** ** The puzzle description ([crossword.Crossword])

    [crossword.py] is not among the sources under verification; the solver
    only reads the slot set, the vocabulary and the overlap table from it.
    The table is total on pairs of distinct slots, [None] being the
    no-constraint marker and [Some (a, b)] the pair of offsets. *)

Record Crossword : Type := {
  variables : list Var.t;
  words : list string;
  overlaps : Var.t -> Var.t -> option (nat * nat)
}.

Definition has_overlap (o : option (nat * nat)) : bool :=
  match o with Some _ => true | None => false end.

(** Modelled from the spec: [Crossword.neighbors], defined in the absent
    [crossword.py]. Section 3 of the specification derives the neighbor
    relation from the overlap table: the slots that share a non-null
    overlap with the given slot. *)
Definition neighbors (cw : Crossword) (var : Var.t) : list Var.t :=
  filter (fun v => negb (Var.eqb v var) && has_overlap (overlaps cw v var))
         (variables cw).

(** The precondition on the puzzle geometry that the parsing collaborator
    guarantees: slots are pairwise distinct and the overlap table is
    symmetric, [overlaps[y, x]] being [overlaps[x, y]] with the two
    offsets exchanged. *)
Definition swap_overlap (o : option (nat * nat)) : option (nat * nat) :=
  match o with Some (a, b) => Some (b, a) | None => None end.

Definition overlap_eqb (o1 o2 : option (nat * nat)) : bool :=
  match o1, o2 with
  | Some (a, b), Some (a', b') => (a =? a') && (b =? b')
  | None, None => true
  | _, _ => false
  end.

Definition distinct_vars (l : list Var.t) : bool :=
  (fix go (l : list Var.t) : bool :=
     match l with
     | [] => true
     | v :: l' => negb (existsb (Var.eqb v) l') && go l'
     end) l.

Definition well_formed (cw : Crossword) : bool :=
  distinct_vars (variables cw)
  && forallb (fun x =>
       forallb (fun y =>
         Var.eqb x y
         || overlap_eqb (overlaps cw y x) (swap_overlap (overlaps cw x y)))
       (variables cw)) (variables cw).

(** ** [CrosswordCreator] *)

Definition Domains : Type := dict (list string).
Definition Assignment : Type := dict string.
Definition Arc : Type := (Var.t * Var.t)%type.

Section Creator.
Context (crossword : Crossword).

(** [__init__]: every slot starts with a copy of the whole vocabulary. *)
Definition init_domains : Domains :=
  map (fun var => (var, words crossword)) (variables crossword).

(** [self.domains[v].remove(w)] *)
Definition domains_remove (domains : Domains) (v : Var.t) (w : string)
  : res Domains :=
  s <- dict_get_exn domains v ;;
  s' <- set_remove w s ;;
  Ret (dict_set domains v s').

(** [enforce_node_consistency]: the loops run over a deep copy taken on
    entry, the removals go to the live store. *)
Definition enforce_node_consistency (domains : Domains) : res Domains :=
  let self_domains := domains in
  foldM (fun domains variable =>
           ws <- dict_get_exn self_domains variable ;;
           foldM (fun domains word =>
                    if negb (String.length word =? Var.length variable)
                    then domains_remove domains variable word
                    else Ret domains)
                 ws domains)
        (keys self_domains) domains.

(** The inner loop of [revise]: is there a [y_word] whose character at
    [y_overlap] equals [x_word[x_overlap]]? *)
Fixpoint words_match (x_word : string) (x_overlap y_overlap : nat)
         (ys : list string) : res bool :=
  match ys with
  | [] => Ret false
  | y_word :: ys' =>
      cx <- str_index x_word x_overlap ;;
      cy <- str_index y_word y_overlap ;;
      if Ascii.eqb cx cy then Ret true
      else words_match x_word x_overlap y_overlap ys'
  end.

(** [revise(x, y)]. The tuple assignment on the first line unpacks the
    table entry before anything else is done, so the no-constraint marker
    raises [TypeError]; the later test [x_overlap is not None] is then
    always true. *)
Definition revise (x y : Var.t) (domains : Domains) : res (bool * Domains) :=
  match overlaps crossword x y with
  | None => Exn TypeError
  | Some (x_overlap, y_overlap) =>
      let self_domains := domains in
      xs <- dict_get_exn self_domains x ;;
      foldM (fun (st : bool * Domains) x_word =>
               let (revised, domains) := st in
               ys <- dict_get_exn self_domains y ;;
               m <- words_match x_word x_overlap y_overlap ys ;;
               if negb m
               then domains' <- domains_remove domains x x_word ;;
                    Ret (true, domains')
               else Ret (revised, domains))
            xs (false, domains)
  end.

(** The arcs queued when [ac3] is called without an arc list. *)
Definition initial_arcs (domains : Domains) : list Arc :=
  flat_map (fun variable =>
              map (fun overlap_variable => (variable, overlap_variable))
                  (filter (fun overlap_variable =>
                             has_overlap (overlaps crossword variable overlap_variable))
                          (neighbors crossword variable)))
           (keys domains).

(** The [while] loop of [ac3]; [fuel] bounds the number of iterations. *)
Fixpoint ac3_loop (fuel : nat) (queue : list Arc) (domains : Domains)
  : res (bool * Domains) :=
  match queue with
  | [] => Ret (true, domains)
  | (x, y) :: queue' =>
      match fuel with
      | 0 => OutOfFuel
      | S fuel' =>
          '(revised, domains') <- revise x y domains ;;
          if (revised : bool) then
            dx <- dict_get_exn domains' x ;;
            if List.length dx =? 0 then Ret (false, domains')
            else ac3_loop fuel'
                   (queue' ++ map (fun neighbor => (neighbor, x))
                                  (filter (fun neighbor => negb (Var.eqb neighbor y))
                                          (neighbors crossword x)))
                   domains'
          else ac3_loop fuel' queue' domains'
      end
  end.

(** [not arcs]: true for [None] and for the empty list. *)
Definition not_arcs (arcs : option (list Arc)) : bool :=
  match arcs with
  | None | Some [] => true
  | Some (_ :: _) => false
  end.

(** [ac3(arcs)] with an explicit iteration bound. The local [queue] is
    bound only inside [if not arcs:]; [None] below is the unbound local. *)
Definition ac3_fuel (fuel : nat) (arcs : option (list Arc)) (domains : Domains)
  : res (bool * Domains) :=
  let queue := if not_arcs arcs then Some (initial_arcs domains) else None in
  match queue with
  | None => Exn UnboundLocalError
  | Some queue => ac3_loop fuel queue domains
  end.

Definition total_size (domains : Domains) : nat :=
  list_sum (map (fun item => List.length (snd item)) domains).

(** A number of iterations that always suffices (see [ac3_loop_terminates]). *)
Definition ac3_bound (queue : list Arc) (domains : Domains) : nat :=
  List.length queue + total_size domains * S (List.length (variables crossword)).

Definition ac3 (arcs : option (list Arc)) (domains : Domains)
  : res (bool * Domains) :=
  ac3_fuel (ac3_bound (initial_arcs domains) domains) arcs domains.

(** [assignment_complete] *)
Definition assignment_complete (domains : Domains) (assignment : Assignment)
  : bool :=
  forallb (fun variable => dict_mem assignment variable) (keys domains).

(** [consistent] *)
Definition consistent (assignment : Assignment) : res bool :=
  let words := values assignment in
  if negb (List.length words =? List.length (nodup string_dec words))
  then Ret false
  else
    b <- forallM (fun variable =>
                    w <- dict_get_exn assignment variable ;;
                    Ret (Var.length variable =? String.length w))
                 (keys assignment) ;;
    if negb b then Ret false
    else
      forallM (fun variable =>
                 forallM (fun neighbor =>
                            if dict_mem assignment neighbor then
                              match overlaps crossword variable neighbor with
                              | None => Exn TypeError
                              | Some (x, y) =>
                                  wv <- dict_get_exn assignment variable ;;
                                  cv <- str_index wv x ;;
                                  wn <- dict_get_exn assignment neighbor ;;
                                  cn <- str_index wn y ;;
                                  Ret (Ascii.eqb cv cn)
                              end
                            else Ret true)
                         (neighbors crossword variable))
              (keys assignment).

(** [words[word] = n] on a dict keyed by words. *)
Fixpoint count_set (words : list (string * nat)) (word : string) (n : nat)
  : list (string * nat) :=
  match words with
  | [] => [(word, n)]
  | (w, m) :: words' =>
      if String.eqb w word then (w, n) :: words'
      else (w, m) :: count_set words' word n
  end.

(** [order_domain_values]: for each word of [var]'s domain, the number of
    words it conflicts with in the domains of the unassigned neighbors;
    then the words by ascending count. *)
Definition order_domain_values (var : Var.t) (assignment : Assignment)
           (domains : Domains) : res (list string) :=
  let neighbors := neighbors crossword var in
  dv <- dict_get_exn domains var ;;
  words <-
    foldM (fun words word =>
             eliminated_words <-
               foldM (fun eliminated_words neighbor =>
                        if dict_mem assignment neighbor then Ret eliminated_words
                        else
                          match overlaps crossword var neighbor with
                          | None => Exn TypeError
                          | Some (x_overlap, y_overlap) =>
                              dn <- dict_get_exn domains neighbor ;;
                              foldM (fun eliminated_words neighbor_word =>
                                       c <- str_index word x_overlap ;;
                                       c' <- str_index neighbor_word y_overlap ;;
                                       Ret (if negb (Ascii.eqb c c')
                                            then S eliminated_words
                                            else eliminated_words))
                                    dn eliminated_words
                          end)
                     neighbors 0 ;;
             Ret (count_set words word eliminated_words))
          dv [] ;;
  let sorted_dict :=
    fold_left (fun d item => count_set d (fst item) (snd item))
              (sorted snd words) [] in
  Ret (map fst sorted_dict).

(** [select_unassigned_variable]: the unassigned slots with their domains,
    sorted by domain size only; the first one is returned. The lookup
    [self.domains[variable]] cannot fail, [variable] being a key of the
    store that is iterated. *)
Definition choice_dict (domains : Domains) (assignment : Assignment) : Domains :=
  fold_left (fun choice variable =>
               if negb (dict_mem assignment variable)
               then match dict_get domains variable with
                    | Some ws => dict_set choice variable ws
                    | None => choice
                    end
               else choice)
            (keys domains) [].

Definition select_unassigned_variable (domains : Domains)
           (assignment : Assignment) : res Var.t :=
  let sorted_list :=
    map fst (sorted (fun item => List.length (snd item))
                    (choice_dict domains assignment)) in
  match sorted_list with
  | [] => Exn IndexError
  | variable :: _ => Ret variable
  end.

(** The [for value in self.domains[variable]] loop of [backtrack]:
    [recurse] is the recursive call, [vs] the values still to try. *)
Fixpoint try_values (recurse : Assignment -> res (option Assignment))
         (assignment : Assignment) (variable : Var.t) (vs : list string)
  : res (option Assignment) :=
  match vs with
  | [] => Ret None
  | value :: vs' =>
      let assignment_copy := dict_set assignment variable value in
      c <- consistent assignment_copy ;;
      if (c : bool) then
        result <- recurse assignment_copy ;;
        match result with
        | Some r => Ret (Some r)
        | None => try_values recurse assignment variable vs'
        end
      else try_values recurse assignment variable vs'
  end.

(** [backtrack]; [fuel] bounds the depth of the recursion. The candidate
    values are the elements of [self.domains[variable]] in the order in
    which that set is iterated. *)
Fixpoint backtrack_fuel (fuel : nat) (domains : Domains)
         (assignment : Assignment) : res (option Assignment) :=
  match fuel with
  | 0 => OutOfFuel
  | S fuel' =>
      if List.length assignment =? List.length domains then Ret (Some assignment)
      else
        variable <- select_unassigned_variable domains assignment ;;
        vs <- dict_get_exn domains variable ;;
        try_values (backtrack_fuel fuel' domains) assignment variable vs
  end.

Definition backtrack (domains : Domains) (assignment : Assignment)
  : res (option Assignment) :=
  backtrack_fuel (S (List.length domains)) domains assignment.

(** [solve]: the value returned by [ac3] is dropped. *)
Definition solve : res (option Assignment) :=
  d1 <- enforce_node_consistency init_domains ;;
  '(_, d2) <- ac3 None d1 ;;
  backtrack d2 [].

(** The same with the bounds left to the caller. *)
Definition solve_fuel (fuel : nat) : res (option Assignment) :=
  d1 <- enforce_node_consistency init_domains ;;
  '(_, d2) <- ac3_fuel fuel None d1 ;;
  backtrack_fuel fuel d2 [].

(** The values that one call of [backtrack] binds to [value], in the order
    of the loop, up to and including the one on which it returns. *)
Fixpoint tried_values (recurse : Assignment -> res (option Assignment))
         (assignment : Assignment) (variable : Var.t) (vs : list string)
  : res (list string) :=
  match vs with
  | [] => Ret []
  | value :: vs' =>
      let assignment_copy := dict_set assignment variable value in
      c <- consistent assignment_copy ;;
      if (c : bool) then
        result <- recurse assignment_copy ;;
        match result with
        | Some _ => Ret [value]
        | None =>
            rest <- tried_values recurse assignment variable vs' ;;
            Ret (value :: rest)
        end
      else
        rest <- tried_values recurse assignment variable vs' ;;
        Ret (value :: rest)
  end.

Definition backtrack_tried (domains : Domains) (assignment : Assignment)
  : res (Var.t * list string) :=
  variable <- select_unassigned_variable domains assignment ;;
  vs <- dict_get_exn domains variable ;;
  tried <- tried_values (backtrack_fuel (List.length domains) domains)
                        assignment variable vs ;;
  Ret (variable, tried).

End Creator.

(** ** Fixtures *)

Module Fixtures.
Import Var.

(** Two crossing slots: a length-3 ACROSS slot at (1,0) and a length-4 DOWN
    slot at (0,0); the first letter of the former is the second letter of
    the latter. *)
Definition across3 : Var.t := Var.mk 1 0 ACROSS 3.
Definition down4 : Var.t := Var.mk 0 0 DOWN 4.

Definition cross_overlaps (x y : Var.t) : option (nat * nat) :=
  if Var.eqb x across3 && Var.eqb y down4 then Some (0, 1)
  else if Var.eqb x down4 && Var.eqb y across3 then Some (1, 0)
  else None.

Definition cross (vocabulary : list string) : Crossword :=
  {| variables := [across3; down4];
     words := vocabulary;
     overlaps := cross_overlaps |}.

Definition cross_unsat : Crossword := cross ["SIX"; "NINE"; "FIVE"]%string.
Definition cross_sat : Crossword := cross ["SIX"; "NINE"; "FIVE"; "ASKS"]%string.

(** A single isolated slot of length 4. *)
Definition lone4 : Var.t := Var.mk 0 0 ACROSS 4.

Definition lone (vocabulary : list string) : Crossword :=
  {| variables := [lone4];
     words := vocabulary;
     overlaps := fun _ _ => None |}.

(** Three slots around a block: [top] runs across the first row, [left]
    and [right] run down the first and the last column. [top] crosses both
    of the others, which do not meet. The slot set is enumerated in the
    order [left], [top], [right]. *)
Definition top : Var.t := Var.mk 0 0 ACROSS 3.
Definition left : Var.t := Var.mk 0 0 DOWN 3.
Definition right : Var.t := Var.mk 0 2 DOWN 3.

Definition arch_overlaps (x y : Var.t) : option (nat * nat) :=
  if Var.eqb x top && Var.eqb y left then Some (0, 0)
  else if Var.eqb x left && Var.eqb y top then Some (0, 0)
  else if Var.eqb x top && Var.eqb y right then Some (2, 0)
  else if Var.eqb x right && Var.eqb y top then Some (0, 2)
  else None.

Definition arch (vocabulary : list string) : Crossword :=
  {| variables := [left; top; right];
     words := vocabulary;
     overlaps := arch_overlaps |}.

Definition arch_tie : Crossword := arch ["TOT"; "TAT"; "TUT"]%string.

(** The two crossing slots with two words for the across slot, of which
    the first listed rules out more of the down slot's words. *)
Definition cross_lcv : Crossword :=
  cross ["SIX"; "TEN"; "ASKS"; "ATOM"; "STEP"]%string.

Definition cross_lcv_domains : Domains :=
  [(across3, ["SIX"; "TEN"]%string); (down4, ["ASKS"; "ATOM"; "STEP"]%string)].

(** Stores on the two crossing slots, before a revision. *)
Definition cross_two_words : Domains :=
  [(across3, ["SIX"; "TEN"]%string); (down4, ["ASKS"]%string)].

Definition cross_no_down : Domains :=
  [(across3, ["SIX"; "TEN"]%string); (down4, [])].

(** The stores of [cross_unsat] after node consistency and after AC-3, and
    of [cross_sat] after AC-3. *)
Definition cross_unsat_node : Domains :=
  [(across3, ["SIX"]%string); (down4, ["NINE"; "FIVE"]%string)].

Definition cross_unsat_ac3 : Domains :=
  [(across3, []); (down4, ["NINE"; "FIVE"]%string)].

Definition cross_sat_ac3 : Domains :=
  [(across3, ["SIX"]%string); (down4, ["ASKS"]%string)].

Definition cross_sat_solution : Assignment :=
  [(across3, "SIX"%string); (down4, "ASKS"%string)].

(** A store and an assignment on the three-slot grid with [left] assigned
    and the two other slots tied on two words. *)
Definition arch_open_tie : Domains :=
  [(left, ["TOT"]%string); (top, ["TAT"; "TUT"]%string);
   (right, ["TAT"; "TOT"]%string)].

Definition arch_left_assigned : Assignment := [(left, "TOT"%string)].

(** A store on the two crossing slots from which the search succeeds after
    a first value that fails, and a partial assignment on it. *)
Definition cross_retry : Domains :=
  [(across3, ["TEN"; "SIX"]%string); (down4, ["ASKS"]%string)].

Definition down_assigned : Assignment := [(down4, "ASKS"%string)].

(** A store that node consistency has not visited: the down slot still
    holds a word of one letter. *)
Definition cross_short : Domains :=
  [(down4, ["A"; "ASKS"]%string); (across3, ["SIX"]%string)].

End Fixtures.

(** ** Well-formed stores

    A store is a dict of sets: its keys are pairwise distinct and no set
    lists a word twice. *)

Definition distinct_words (l : list string) : bool :=
  (fix go (l : list string) : bool :=
     match l with
     | [] => true
     | w :: l' => negb (word_in w l') && go l'
     end) l.

Definition domains_ok (domains : Domains) : bool :=
  distinct_vars (keys domains)
  && forallb (fun item => distinct_words (snd item)) domains.

(** The words of a set that have the length of the slot. *)
Definition fitting (v : Var.t) (ws : list string) : list string :=
  filter (fun w => String.length w =? Var.length v) ws.

(** ** The conditions of the consistency check, as the specification words
    them (4.4): (a) the assigned words are pairwise distinct, (b) every
    assigned word has the length of its slot, (c) every two assigned
    neighboring slots carry the same character at their overlap. *)

Definition agree (cw : Crossword) (a : Assignment) (v n : Var.t) : Prop :=
  exists x y wv wn c,
    overlaps cw v n = Some (x, y)
    /\ dict_get a v = Some wv /\ dict_get a n = Some wn
    /\ String.get x wv = Some c /\ String.get y wn = Some c.

Definition consistent_conditions (cw : Crossword) (a : Assignment) : Prop :=
  NoDup (values a)
  /\ (forall v w, dict_get a v = Some w -> Var.length v = String.length w)
  /\ (forall v n, In v (keys a) -> In n (neighbors cw v) -> In n (keys a) ->
                  agree cw a v n).

(** The assignments that the search passes around: a dict on slots of the
    store that has passed the consistency check. *)
Definition checked (cw : Crossword) (d : Domains) (a : Assignment) : Prop :=
  NoDup (keys a) /\ incl (keys a) (keys d) /\ consistent cw a = Ret true.

(** ** Arc consistency

    [supported cw d x y]: every word of [x]'s domain has a word in [y]'s
    domain that carries the same character at the overlap of the two
    slots. A store is arc-consistent when this holds for every slot and
    each of its neighbors. *)

Definition supported (cw : Crossword) (d : Domains) (x y : Var.t) : Prop :=
  forall xs w,
    dict_get d x = Some xs -> In w xs ->
    exists ys w2 a b c,
      dict_get d y = Some ys /\ In w2 ys
      /\ overlaps cw x y = Some (a, b)
      /\ String.get a w = Some c /\ String.get b w2 = Some c.

Definition arc_consistent (cw : Crossword) (d : Domains) : Prop :=
  forall x y, In x (keys d) -> In y (neighbors cw x) -> supported cw d x y.

(** A decision procedure for stores whose slots all have their neighbors'
    table entries. *)
Definition char_agree (a b : nat) (w w2 : string) : bool :=
  match String.get a w, String.get b w2 with
  | Some c, Some c' => Ascii.eqb c c'
  | _, _ => false
  end.

Definition arc_consistentb (cw : Crossword) (d : Domains) : bool :=
  forallb (fun x =>
    forallb (fun y =>
      match overlaps cw x y, dict_get d x, dict_get d y with
      | Some (a, b), Some xs, Some ys =>
          forallb (fun w => existsb (char_agree a b w) ys) xs
      | _, _, _ => false
      end) (neighbors cw x)) (keys d).

(** ** Order of the candidate values

    The claim that one step of [backtrack] walks the candidates in the
    order of the least-constraining-value heuristic: the values tried are
    an initial segment of [order_domain_values]. *)
Definition tries_in_lcv_order (cw : Crossword) (d : Domains) (a : Assignment)
  : Prop :=
  forall var tried ordered,
    backtrack_tried cw d a = Ret (var, tried) ->
    order_domain_values cw var a d = Ret ordered ->
    exists rest, ordered = tried ++ rest.

(** ** Solutions

    A complete consistent assignment of vocabulary words: a dict that gives
    every slot a word of the vocabulary and meets the conditions of the
    consistency check. *)
Definition complete_consistent (cw : Crossword) (s : Assignment) : Prop :=
  NoDup (keys s)
  /\ (forall v, In v (variables cw) ->
                exists w, dict_get s v = Some w /\ In w (words cw))
  /\ consistent_conditions cw s.

(** The store still offers, for each of its slots, the word that [s] gives
    to that slot. *)
Definition offers (d : Domains) (s : Assignment) : Prop :=
  forall v ws w, dict_get d v = Some ws -> dict_get s v = Some w -> In w ws.

(** [a] is a part of [s]. *)
Definition part_of (a s : Assignment) : Prop :=
  forall v w, dict_get a v = Some w -> dict_get s v = Some w.

(** The worklist invariant of AC-3: the queue holds arcs between
    neighbors only, and every arc between neighbors is either queued or
    already supported. *)
Definition arcs_between (cw : Crossword) (queue : list Arc) : Prop :=
  forall x y, In (x, y) queue -> In x (variables cw) /\ In y (neighbors cw x).

Definition pending (cw : Crossword) (queue : list Arc) (d : Domains) : Prop :=
  forall x y, In x (variables cw) -> In y (neighbors cw x) ->
              In (x, y) queue \/ supported cw d x y.

(** Every offset of the overlap table points inside its slot. *)
Definition offsets_in_range (cw : Crossword) : bool :=
  forallb (fun x =>
    forallb (fun y =>
      match overlaps cw x y with
      | Some (a, b) => (a <? Var.length x) && (b <? Var.length y)
      | None => true
      end) (variables cw)) (variables cw).

(** ** The count of [order_domain_values]

    [eliminated] is the body of the loop over [self.domains[var]]: the
    value of [eliminated_words] when [words[word]] is assigned. *)
Definition eliminated (cw : Crossword) (var : Var.t) (assignment : Assignment)
           (domains : Domains) (word : string) : res nat :=
  foldM (fun eliminated_words neighbor =>
           if dict_mem assignment neighbor then Ret eliminated_words
           else
             match overlaps cw var neighbor with
             | None => Exn TypeError
             | Some (x_overlap, y_overlap) =>
                 dn <- dict_get_exn domains neighbor ;;
                 foldM (fun eliminated_words neighbor_word =>
                          c <- str_index word x_overlap ;;
                          c' <- str_index neighbor_word y_overlap ;;
                          Ret (if negb (Ascii.eqb c c')
                               then S eliminated_words
                               else eliminated_words))
                       dn eliminated_words
             end)
        (neighbors cw var) 0.

(** [word] and [neighbor_word] carry different characters at the offsets. *)
Definition differ (x y : nat) (word neighbor_word : string) : bool :=
  match String.get x word, String.get y neighbor_word with
  | Some c, Some c' => negb (Ascii.eqb c c')
  | _, _ => false
  end.

(** The words of the unassigned neighbors' domains that [word] conflicts
    with, counted neighbor by neighbor. *)
Definition conflicts (cw : Crossword) (var : Var.t) (assignment : Assignment)
           (domains : Domains) (word : string) : nat :=
  list_sum
    (map (fun neighbor =>
            if dict_mem assignment neighbor then 0
            else match overlaps cw var neighbor, dict_get domains neighbor with
                 | Some (x, y), Some dn =>
                     List.length (filter (differ x y word) dn)
                 | _, _ => 0
                 end)
         (neighbors cw var)).

(** ** Sound puzzles

    What the parsing collaborator hands over: distinct slots, a symmetric
    overlap table whose offsets lie inside the slots, and a vocabulary that
    lists no word twice. *)
Definition puzzle_ok (cw : Crossword) : bool :=
  well_formed cw && offsets_in_range cw && distinct_words (words cw).

(** A store on the slots of the puzzle whose domains are sets of words of
    the slot's length. *)
Definition fits (cw : Crossword) (d : Domains) : Prop :=
  keys d = variables cw
  /\ forall v ws, dict_get d v = Some ws ->
                  NoDup ws /\ forall w, In w ws -> String.length w = Var.length v.

(** ** Rendering: [letter_grid] and [print]

    The three attributes of [crossword.Crossword] that only the rendering
    reads: the dimensions of the grid and, cell by cell, whether the cell
    can be filled. *)
Record Layout : Type := {
  height : nat;
  width : nat;
  structure : list (list bool)
}.

(** [l[n]] and [l[n] = x] on a list, with their [IndexError]. *)
Definition list_get {A : Type} (l : list A) (n : nat) : res A :=
  match nth_error l n with
  | Some x => Ret x
  | None => Exn IndexError
  end.

Fixpoint list_set {A : Type} (l : list A) (n : nat) (x : A) : res (list A) :=
  match l, n with
  | [], _ => Exn IndexError
  | _ :: l', 0 => Ret (x :: l')
  | y :: l', S n' => l'' <- list_set l' n' x ;; Ret (y :: l'')
  end.

Definition Letters : Type := list (list (option ascii)).

(** [letters[i][j] = c] *)
Definition letters_set (letters : Letters) (i j : nat) (c : ascii)
  : res Letters :=
  row <- list_get letters i ;;
  row' <- list_set row j (Some c) ;;
  list_set letters i row'.

(** The cell of the [k]-th letter of a slot. *)
Definition cell_of (variable : Var.t) (k : nat) : nat * nat :=
  (Var.i variable
   + match Var.direction variable with Var.DOWN => k | Var.ACROSS => 0 end,
   Var.j variable
   + match Var.direction variable with Var.ACROSS => k | Var.DOWN => 0 end).

(** [letter_grid]: a height by width array of [None], on which every word
    of the assignment is written letter by letter, in the order of the
    assignment. *)
Definition letter_grid (b : Layout) (assignment : Assignment) : res Letters :=
  let letters := repeat (repeat None (width b)) (height b) in
  foldM (fun letters (item : Var.t * string) =>
           let (variable, word) := item in
           foldM (fun letters k =>
                    let (i, j) := cell_of variable k in
                    c <- str_index word k ;;
                    letters_set letters i j c)
                 (seq 0 (String.length word)) letters)
        assignment letters.

(** What one call of the built-in [print] writes for a cell: a letter, a
    blank, or the block character. *)
Inductive glyph : Type :=
| Letter (c : ascii)
| Space
| Block.

(** A [for] loop that collects what each round produces. *)
Fixpoint mapM {A B : Type} (f : A -> res B) (l : list A) : res (list B) :=
  match l with
  | [] => Ret []
  | a :: l' => b <- f a ;; bs <- mapM f l' ;; Ret (b :: bs)
  end.

(** [print]: the lines written to the terminal, each the list of what was
    written for its cells. *)
Definition print (b : Layout) (assignment : Assignment)
  : res (list (list glyph)) :=
  letters <- letter_grid b assignment ;;
  mapM (fun i =>
          mapM (fun j =>
                  row <- list_get (structure b) i ;;
                  fillable <- list_get row j ;;
                  if (fillable : bool) then
                    lrow <- list_get letters i ;;
                    letter <- list_get lrow j ;;
                    Ret (match letter with
                         | Some c => Letter c
                         | None => Space
                         end)
                  else Ret Block)
               (seq 0 (width b)))
       (seq 0 (height b)).

(** Reading a cell of the array, [None] outside of it. *)
Definition letters_get (letters : Letters) (i j : nat) : option ascii :=
  match nth_error letters i with
  | Some row => match nth_error row j with Some c => c | None => None end
  | None => None
  end.

(** The letter that an entry of the assignment puts on a cell, if any. *)
Definition letter_at (item : Var.t * string) (i j : nat) : option ascii :=
  let (variable, word) := item in
  match Var.direction variable with
  | Var.ACROSS =>
      if (i =? Var.i variable) && (Var.j variable <=? j)
      then String.get (j - Var.j variable) word else None
  | Var.DOWN =>
      if (j =? Var.j variable) && (Var.i variable <=? i)
      then String.get (i - Var.i variable) word else None
  end.

(** The letter that an assignment leaves on a cell: that of the last entry
    that covers it. *)
Definition written (assignment : Assignment) (i j : nat) : option ascii :=
  fold_left (fun acc item =>
               match letter_at item i j with
               | Some c => Some c
               | None => acc
               end) assignment None.

(** Every letter of every entry falls inside the grid. *)
Definition in_bounds (b : Layout) (assignment : Assignment) : Prop :=
  forall variable word k,
    In (variable, word) assignment -> k < String.length word ->
    fst (cell_of variable k) < height b /\ snd (cell_of variable k) < width b.

Definition rectangular {A : Type} (h w : nat) (g : list (list A)) : Prop :=
  List.length g = h /\ forall row, In row g -> List.length row = w.

Module RenderFixtures.

(** The grid of the two crossing slots: four rows, three columns, the first
    column and the second row open. *)
Definition cross_layout : Layout :=
  {| height := 4; width := 3;
     structure := [[true; false; false]; [true; true; true];
                   [true; false; false]; [true; false; false]] |}.

End RenderFixtures.

(** * Properties *)

(** ** Outcomes and loops *)

Lemma bind_Ret {A B : Type} (m : res A) (f : A -> res B) (b : B) :
  bind m f = Ret b -> exists a, m = Ret a /\ f a = Ret b.
Proof. destruct m; simpl; intros H; try discriminate; eauto. Qed.

Ltac inv_bind H :=
  let a := fresh "a" in
  let Ha := fresh "Ha" in
  apply bind_Ret in H; destruct H as (a & Ha & H).

Tactic Notation "bind_inv" hyp(H) "as" ident(a) ident(Ha) :=
  apply bind_Ret in H; destruct H as (a & Ha & H).

Lemma foldM_invariant {A S : Type} (P : S -> Prop) (f : S -> A -> res S)
      (l : list A) :
  (forall s a s', In a l -> P s -> f s a = Ret s' -> P s') ->
  forall s s', P s -> foldM f l s = Ret s' -> P s'.
Proof.
  induction l as [|a l IH]; simpl; intros Hf s s' Hs H.
  - now inversion H; subst.
  - inv_bind H. apply (IH (fun s a' s' Hin => Hf s a' s' (or_intror Hin)) a0); eauto.
Qed.

Lemma forallM_true {A : Type} (f : A -> res bool) (l : list A) :
  forallM f l = Ret true <-> (forall a, In a l -> f a = Ret true).
Proof.
  induction l as [|a l IH]; simpl.
  - split; [intros _ ? [] | reflexivity].
  - split.
    + intros H. inv_bind H. destruct a0; [|discriminate].
      intros b [<-|Hb]; [assumption | now apply IH].
    + intros H. rewrite (H a (or_introl eq_refl)); simpl. apply IH; auto.
Qed.

(** ** Equality of slots *)

Lemma Var_eqb_spec (a b : Var.t) : reflect (a = b) (Var.eqb a b).
Proof.
  destruct a as [ia ja da la], b as [ib jb db lb]; unfold Var.eqb; simpl.
  destruct (Nat.eqb_spec ia ib); simpl; [|constructor; congruence].
  destruct (Nat.eqb_spec ja jb); simpl; [|constructor; congruence].
  destruct da, db; simpl; try (constructor; congruence);
    destruct (Nat.eqb_spec la lb); constructor; congruence.
Qed.

Lemma Var_eqb_refl (a : Var.t) : Var.eqb a a = true.
Proof. destruct (Var_eqb_spec a a); congruence. Qed.

Lemma Var_eqb_eq (a b : Var.t) : Var.eqb a b = true <-> a = b.
Proof. destruct (Var_eqb_spec a b); split; congruence. Qed.

Lemma Var_eqb_neq (a b : Var.t) : Var.eqb a b = false <-> a <> b.
Proof. destruct (Var_eqb_spec a b); split; congruence. Qed.

Lemma Var_eqb_sym (a b : Var.t) : Var.eqb a b = Var.eqb b a.
Proof. destruct (Var_eqb_spec a b), (Var_eqb_spec b a); congruence. Qed.

(** ** Dictionaries *)

Section DictFacts.
Context {V : Type}.
Implicit Types (d : dict V) (k : Var.t) (v : V).

Lemma dict_get_set_eq d k v : dict_get (dict_set d k v) k = Some v.
Proof.
  induction d as [|[k' v'] d IH]; simpl.
  - now rewrite Var_eqb_refl.
  - destruct (Var.eqb k' k) eqn:E; simpl; rewrite E; auto.
Qed.

Lemma dict_get_set_neq d k k' v :
  k <> k' -> dict_get (dict_set d k v) k' = dict_get d k'.
Proof.
  intros Hneq. induction d as [|[k0 v0] d IH]; simpl.
  - apply Var_eqb_neq in Hneq. now rewrite Hneq.
  - destruct (Var_eqb_spec k0 k) as [->|]; simpl.
    + apply Var_eqb_neq in Hneq. now rewrite Hneq.
    + now rewrite IH.
Qed.

Lemma dict_get_In_keys d k : In k (keys d) <-> exists v, dict_get d k = Some v.
Proof.
  induction d as [|[k' v'] d IH]; simpl.
  - split; [intros [] | intros [? ?]; discriminate].
  - destruct (Var_eqb_spec k' k) as [->|Hneq].
    + split; eauto.
    + rewrite <- IH. tauto.
Qed.

Lemma dict_get_None d k : dict_get d k = None <-> ~ In k (keys d).
Proof.
  rewrite dict_get_In_keys. destruct (dict_get d k); split; intros H.
  - discriminate.
  - exfalso; eauto.
  - intros [? ?]; discriminate.
  - reflexivity.
Qed.

Lemma dict_mem_In_keys d k : dict_mem d k = true <-> In k (keys d).
Proof.
  rewrite dict_get_In_keys. unfold dict_mem.
  destruct (dict_get d k); split; eauto; try discriminate.
  intros [? ?]; discriminate.
Qed.

Lemma dict_get_In d k v : dict_get d k = Some v -> In (k, v) d.
Proof.
  induction d as [|[k' v'] d IH]; simpl; [discriminate|].
  destruct (Var_eqb_spec k' k) as [->|]; intros H.
  - left. congruence.
  - right. auto.
Qed.

Lemma In_dict_get d k v : NoDup (keys d) -> In (k, v) d -> dict_get d k = Some v.
Proof.
  induction d as [|[k' v'] d IH]; simpl; [intros _ []|].
  intros Hnd [Heq|Hin]; inversion Hnd; subst.
  - inversion Heq; subst. now rewrite Var_eqb_refl.
  - destruct (Var_eqb_spec k' k) as [->|]; auto.
    exfalso. apply H1. change k with (fst (k, v)). now apply in_map.
Qed.

Lemma keys_dict_set_old d k v :
  In k (keys d) -> keys (dict_set d k v) = keys d.
Proof.
  induction d as [|[k' v'] d IH]; simpl; [intros []|].
  destruct (Var_eqb_spec k' k) as [->|Hneq]; simpl; [reflexivity|].
  intros [?|Hin]; [contradiction|]. now rewrite IH.
Qed.

Lemma dict_set_new d k v :
  ~ In k (keys d) -> dict_set d k v = d ++ [(k, v)].
Proof.
  induction d as [|[k' v'] d IH]; simpl; [reflexivity|].
  intros Hnin. destruct (Var_eqb_spec k' k) as [->|Hneq].
  - exfalso; auto.
  - rewrite IH; auto.
Qed.

Lemma dict_set_same d k v : dict_get d k = Some v -> dict_set d k v = d.
Proof.
  induction d as [|[k' v'] d IH]; simpl; [discriminate|].
  destruct (Var_eqb_spec k' k) as [->|Hneq]; intros H.
  - congruence.
  - now rewrite IH.
Qed.

Lemma dict_set_set d k v v' : dict_set (dict_set d k v) k v' = dict_set d k v'.
Proof.
  induction d as [|[k0 v0] d IH]; simpl.
  - now rewrite Var_eqb_refl.
  - destruct (Var.eqb k0 k) eqn:E; simpl; rewrite E; congruence.
Qed.

Lemma dict_set_NoDup d k v : NoDup (keys d) -> NoDup (keys (dict_set d k v)).
Proof.
  intros Hnd. destruct (in_dec Var.eq_dec k (keys d)) as [Hin|Hnin].
  - now rewrite keys_dict_set_old.
  - rewrite dict_set_new by assumption. unfold keys. rewrite map_app. simpl.
    apply NoDup_app; [assumption | repeat constructor; intros [] |].
    intros x Hx [<-|[]]. contradiction.
Qed.

End DictFacts.

Lemma distinct_vars_NoDup (l : list Var.t) : distinct_vars l = true <-> NoDup l.
Proof.
  induction l as [|v l IH]; simpl.
  - split; [constructor | reflexivity].
  - rewrite andb_true_iff, negb_true_iff, IH. split.
    + intros [Hex Hnd]. constructor; [|assumption].
      intros Hin. assert (existsb (Var.eqb v) l = true); [|congruence].
      apply existsb_exists. exists v. split; [assumption | apply Var_eqb_refl].
    + intros Hnd. inversion Hnd; subst. split; [|assumption].
      destruct (existsb (Var.eqb v) l) eqn:E; [|reflexivity].
      apply existsb_exists in E. destruct E as (x & Hx & Heq).
      apply Var_eqb_eq in Heq. subst. contradiction.
Qed.

(** ** Sets of words *)

Lemma word_in_In (w : string) (s : list string) : word_in w s = true <-> In w s.
Proof.
  unfold word_in. rewrite existsb_exists. split.
  - intros (x & Hx & Heq). apply String.eqb_eq in Heq. now subst.
  - intros H. exists w. split; [assumption | apply String.eqb_refl].
Qed.

Lemma distinct_words_NoDup (l : list string) : distinct_words l = true <-> NoDup l.
Proof.
  induction l as [|w l IH]; simpl.
  - split; [constructor | reflexivity].
  - rewrite andb_true_iff, negb_true_iff, IH. split.
    + intros [Hex Hnd]. constructor; [|assumption].
      intros Hin. apply word_in_In in Hin. congruence.
    + intros Hnd. inversion Hnd; subst. split; [|assumption].
      destruct (word_in w l) eqn:E; [|reflexivity].
      apply word_in_In in E. contradiction.
Qed.

Lemma filter_remove_absent (w : string) (s : list string) :
  ~ In w s -> filter (fun w' => negb (String.eqb w' w)) s = s.
Proof.
  induction s as [|a s IH]; simpl; [reflexivity|].
  intros Hnin. destruct (String.eqb_spec a w) as [->|]; simpl.
  - exfalso; auto.
  - rewrite IH; auto.
Qed.

Lemma In_filter_remove (w w' : string) (s : list string) :
  In w' (filter (fun a => negb (String.eqb a w)) s) <-> In w' s /\ w' <> w.
Proof.
  rewrite filter_In, negb_true_iff. split; intros [H1 H2]; split; auto.
  - now apply String.eqb_neq.
  - now apply String.eqb_neq.
Qed.

Lemma set_remove_Ret (w : string) (s s' : list string) :
  set_remove w s = Ret s' ->
  In w s /\ s' = filter (fun a => negb (String.eqb a w)) s.
Proof.
  unfold set_remove. destruct (word_in w s) eqn:E; [|discriminate].
  intros H; inversion H; subst. split; [now apply word_in_In | reflexivity].
Qed.

Lemma domains_remove_present (d : Domains) (v : Var.t) (w : string)
      (s : list string) :
  dict_get d v = Some s -> In w s ->
  domains_remove d v w
  = Ret (dict_set d v (filter (fun a => negb (String.eqb a w)) s)).
Proof.
  intros Hget Hin. unfold domains_remove, dict_get_exn, set_remove.
  rewrite Hget. simpl. apply word_in_In in Hin. now rewrite Hin.
Qed.

Lemma domains_remove_Ret (d d' : Domains) (v : Var.t) (w : string) :
  domains_remove d v w = Ret d' ->
  exists s, dict_get d v = Some s /\ In w s
            /\ d' = dict_set d v (filter (fun a => negb (String.eqb a w)) s).
Proof.
  unfold domains_remove, dict_get_exn. intros H.
  destruct (dict_get d v) as [s|] eqn:Hget; [|discriminate]. simpl in H.
  inv_bind H. apply set_remove_Ret in Ha. destruct Ha as [Hin ->].
  inversion H; subst. eauto.
Qed.

Lemma domains_ok_spec (d : Domains) :
  domains_ok d = true <->
  NoDup (keys d) /\ (forall v ws, dict_get d v = Some ws -> NoDup ws).
Proof.
  unfold domains_ok. rewrite andb_true_iff, distinct_vars_NoDup, forallb_forall.
  split; intros [Hk Hs]; split; auto.
  - intros v ws Hget. apply distinct_words_NoDup.
    apply (Hs (v, ws)). now apply dict_get_In.
  - intros [v ws] Hin. apply distinct_words_NoDup. simpl.
    apply (Hs v). now apply In_dict_get.
Qed.

(** ** Node consistency *)

Section NodeConsistency.

(** The inner loop on one slot: the words already visited ([pre]) all fit,
    the words still to visit ([ws]) follow them in the live set. *)
Lemma enforce_inner (v : Var.t) (ws : list string) :
  forall (pre : list string) (d : Domains),
    dict_get d v = Some (pre ++ ws) ->
    NoDup (pre ++ ws) ->
    (forall w, In w pre -> String.length w = Var.length v) ->
    foldM (fun domains word =>
             if negb (String.length word =? Var.length v)
             then domains_remove domains v word
             else Ret domains) ws d
    = Ret (dict_set d v (pre ++ fitting v ws)).
Proof.
  induction ws as [|w ws IH]; intros pre d Hget Hnd Hpre; simpl.
  - rewrite dict_set_same; [reflexivity | assumption].
  - destruct (Nat.eqb_spec (String.length w) (Var.length v)) as [Hlen|Hlen]; simpl.
    + replace (pre ++ w :: fitting v ws) with ((pre ++ [w]) ++ fitting v ws)
        by (rewrite <- app_assoc; reflexivity).
      apply IH.
      * rewrite <- app_assoc. exact Hget.
      * rewrite <- app_assoc. exact Hnd.
      * intros w' Hin. apply in_app_or in Hin.
        destruct Hin as [Hin|[<-|[]]]; auto.
    + assert (Hw : ~ In w (pre ++ ws)).
      { apply NoDup_remove_2 in Hnd. exact Hnd. }
      rewrite (domains_remove_present d v w (pre ++ w :: ws) Hget)
        by (apply in_or_app; right; now left).
      simpl.
      assert (Hf : filter (fun w' => negb (String.eqb w' w)) (pre ++ w :: ws)
                   = pre ++ ws).
      { rewrite filter_app. simpl. rewrite String.eqb_refl. simpl.
        rewrite <- filter_app. now apply filter_remove_absent. }
      rewrite Hf.
      rewrite (IH pre (dict_set d v (pre ++ ws))).
      * now rewrite dict_set_set.
      * apply dict_get_set_eq.
      * now apply NoDup_remove_1 in Hnd.
      * assumption.
Qed.

Lemma enforce_outer (d0 : Domains) (ks : list Var.t) :
  forall d : Domains,
    NoDup ks ->
    (forall k, In k ks ->
       exists s, dict_get d0 k = Some s /\ dict_get d k = Some s /\ NoDup s) ->
    exists d',
      foldM (fun domains variable =>
               ws <- dict_get_exn d0 variable ;;
               foldM (fun domains word =>
                        if negb (String.length word =? Var.length variable)
                        then domains_remove domains variable word
                        else Ret domains) ws domains) ks d = Ret d'
      /\ keys d' = keys d
      /\ (forall k s, In k ks -> dict_get d0 k = Some s ->
            dict_get d' k = Some (fitting k s))
      /\ (forall k, ~ In k ks -> dict_get d' k = dict_get d k).
Proof.
  induction ks as [|k ks IH]; intros d Hnd Hks; simpl.
  - exists d. repeat split; auto. intros k s [].
  - destruct (Hks k (or_introl eq_refl)) as (s & Hs0 & Hs & Hnds).
    unfold dict_get_exn at 1. rewrite Hs0. simpl.
    rewrite (enforce_inner k s [] d Hs Hnds) by (intros ? []). simpl.
    inversion Hnd as [|? ? Hnin Hnd']; subst.
    destruct (IH (dict_set d k (fitting k s)) Hnd') as (d' & Hrun & Hkeys & Hin & Hout).
    { intros k' Hk'. destruct (Hks k' (or_intror Hk')) as (s' & H1 & H2 & H3).
      exists s'. repeat split; auto.
      rewrite dict_get_set_neq; [assumption|]. intros ->. contradiction. }
    exists d'. split; [exact Hrun|]. split; [|split].
    + rewrite Hkeys. apply keys_dict_set_old. apply dict_get_In_keys. eauto.
    + intros k' s' [<-|Hk'] Hget.
      * rewrite Hout by assumption. rewrite dict_get_set_eq. congruence.
      * now apply Hin.
    + intros k' Hk'. rewrite Hout by (intros ?; apply Hk'; now right).
      apply dict_get_set_neq. intros ->. apply Hk'. now left.
Qed.

Lemma enforce_node_consistency_exact (d : Domains) :
  domains_ok d = true ->
  exists d',
    enforce_node_consistency d = Ret d'
    /\ keys d' = keys d
    /\ (forall v ws, dict_get d v = Some ws -> dict_get d' v = Some (fitting v ws)).
Proof.
  intros Hok. apply domains_ok_spec in Hok. destruct Hok as [Hkeys Hsets].
  destruct (enforce_outer d (keys d) d Hkeys) as (d' & Hrun & Hk & Hin & _).
  { intros k Hk. apply dict_get_In_keys in Hk. destruct Hk as [s Hs].
    exists s. repeat split; eauto. }
  exists d'. repeat split; auto.
  intros v ws Hget. apply Hin; [|assumption].
  apply dict_get_In_keys. eauto.
Qed.

End NodeConsistency.

(** C8 — Node-consistency postcondition: [enforce_node_consistency] runs to
    completion on every store (a dict of sets); afterwards every word left
    in a slot's domain has the slot's length, every word of that length
    that was in the domain before is still there, and nothing was added. *)
Theorem enforce_node_consistency_post (d : Domains) :
  domains_ok d = true ->
  exists d',
    enforce_node_consistency d = Ret d'
    /\ keys d' = keys d
    /\ forall v ws, dict_get d v = Some ws ->
         exists ws',
           dict_get d' v = Some ws'
           /\ (forall w, In w ws' -> String.length w = Var.length v)
           /\ (forall w, In w ws -> String.length w = Var.length v -> In w ws')
           /\ (forall w, In w ws' -> In w ws).
Proof.
  intros Hok.
  destruct (enforce_node_consistency_exact d Hok) as (d' & Hrun & Hk & Hget).
  exists d'. repeat split; auto.
  intros v ws Hv. exists (fitting v ws). split; [auto|].
  unfold fitting. repeat split; intros w.
  - rewrite filter_In, Nat.eqb_eq. tauto.
  - intros Hin Hlen. apply filter_In. now rewrite Nat.eqb_eq.
  - rewrite filter_In. tauto.
Qed.

Lemma enforce_node_consistency_post_witness :
  exists d',
    enforce_node_consistency (init_domains Fixtures.cross_sat) = Ret d'
    /\ keys d' = keys (init_domains Fixtures.cross_sat)
    /\ forall v ws, dict_get (init_domains Fixtures.cross_sat) v = Some ws ->
         exists ws',
           dict_get d' v = Some ws'
           /\ (forall w, In w ws' -> String.length w = Var.length v)
           /\ (forall w, In w ws -> String.length w = Var.length v -> In w ws')
           /\ (forall w, In w ws' -> In w ws).
Proof.
  apply (enforce_node_consistency_post (init_domains Fixtures.cross_sat)).
  reflexivity.
Defined.

(** ** Loops never diverge on their own *)

Lemma foldM_fuel {A S : Type} (f : S -> A -> res S) (l : list A) :
  (forall s a, f s a <> OutOfFuel) -> forall s, foldM f l s <> OutOfFuel.
Proof.
  intros Hf. induction l as [|a l IH]; simpl; intros s; [discriminate|].
  specialize (Hf s a). destruct (f s a); simpl; auto; discriminate.
Qed.

Lemma words_match_fuel (xw : string) (a b : nat) (ys : list string) :
  words_match xw a b ys <> OutOfFuel.
Proof.
  induction ys as [|yw ys IH]; simpl; [discriminate|].
  unfold str_index.
  destruct (String.get a xw); simpl; [|discriminate].
  destruct (String.get b yw); simpl; [|discriminate].
  destruct (Ascii.eqb _ _); [discriminate | assumption].
Qed.

Section Termination.
Context (crossword : Crossword).

Lemma domains_remove_fuel (d : Domains) (v : Var.t) (w : string) :
  domains_remove d v w <> OutOfFuel.
Proof.
  unfold domains_remove, dict_get_exn, set_remove.
  destruct (dict_get d v); simpl; [|discriminate].
  destruct (word_in w l); simpl; discriminate.
Qed.

Lemma revise_fuel (x y : Var.t) (d : Domains) :
  revise crossword x y d <> OutOfFuel.
Proof.
  unfold revise. destruct (overlaps crossword x y) as [[a b]|]; [|discriminate].
  unfold dict_get_exn at 1. destruct (dict_get d x); simpl; [|discriminate].
  apply foldM_fuel. intros [rev dc] xw.
  unfold dict_get_exn. destruct (dict_get d y); simpl; [|discriminate].
  pose proof (words_match_fuel xw a b l0) as Hm.
  destruct (words_match xw a b l0) as [m| |]; simpl; try discriminate; [|contradiction].
  destruct m; simpl; [discriminate|].
  pose proof (domains_remove_fuel dc x xw) as Hr.
  destruct (domains_remove dc x xw); simpl; try discriminate. contradiction.
Qed.

Lemma total_size_dict_set (d : Domains) (k : Var.t) (s s' : list string) :
  dict_get d k = Some s ->
  total_size (dict_set d k s') + List.length s = total_size d + List.length s'.
Proof.
  unfold total_size. induction d as [|[k0 s0] d IH]; simpl; [discriminate|].
  destruct (Var_eqb_spec k0 k) as [->|Hneq]; intros H; simpl.
  - inversion H; subst. lia.
  - specialize (IH H). lia.
Qed.

Lemma length_filter_remove (w : string) (s : list string) :
  In w s ->
  List.length (filter (fun a => negb (String.eqb a w)) s) < List.length s.
Proof.
  induction s as [|a s IH]; simpl; [intros []|].
  intros Hin. destruct (String.eqb_spec a w) as [->|Hneq]; simpl.
  - pose proof (filter_length_le (fun a => negb (String.eqb a w)) s). lia.
  - destruct Hin as [?|Hin]; [contradiction|]. specialize (IH Hin). lia.
Qed.

Lemma domains_remove_size (d d' : Domains) (v : Var.t) (w : string) :
  domains_remove d v w = Ret d' ->
  total_size d' < total_size d /\ keys d' = keys d.
Proof.
  intros H. apply domains_remove_Ret in H. destruct H as (s & Hget & Hin & ->).
  split.
  - pose proof (total_size_dict_set d v s
                  (filter (fun a => negb (String.eqb a w)) s) Hget) as Hs.
    pose proof (length_filter_remove w s Hin). lia.
  - apply keys_dict_set_old. apply dict_get_In_keys. eauto.
Qed.

(** A revision never grows the store, and shrinks it when it reports a
    change. *)
Lemma revise_size (x y : Var.t) (d d' : Domains) (revised : bool) :
  revise crossword x y d = Ret (revised, d') ->
  keys d' = keys d
  /\ total_size d' <= total_size d
  /\ (revised = true -> total_size d' < total_size d).
Proof.
  unfold revise. destruct (overlaps crossword x y) as [[a b]|]; [|discriminate].
  intros H. inv_bind H.
  apply (foldM_invariant
           (fun st : bool * Domains =>
              keys (snd st) = keys d
              /\ total_size (snd st) <= total_size d
              /\ (fst st = true -> total_size (snd st) < total_size d))) in H;
    [exact H| |simpl; repeat split; auto; discriminate].
  intros [rev dc] xw [rev' dc'] _ (Hk & Hle & Hlt) Hstep. simpl in *.
  bind_inv Hstep as ys Hys. bind_inv Hstep as m Hm. destruct m; simpl in Hstep.
  - inversion Hstep; subst. auto.
  - bind_inv Hstep as dr Hdr. inversion Hstep; subst.
    apply domains_remove_size in Hdr. destruct Hdr as [Hs Hk'].
    repeat split; try congruence; lia.
Qed.

Lemma neighbors_length (x : Var.t) :
  List.length (neighbors crossword x) <= List.length (variables crossword).
Proof. unfold neighbors. apply filter_length_le. Qed.

(** Every iteration of the [while] loop of [ac3] lowers [ac3_bound]: the
    queue loses its head, and grows by at most one arc per slot only when
    some domain has lost a word. *)
Lemma ac3_loop_terminates (fuel : nat) :
  forall (queue : list Arc) (d : Domains),
    ac3_bound crossword queue d <= fuel ->
    ac3_loop crossword fuel queue d <> OutOfFuel.
Proof.
  induction fuel as [|fuel IH]; intros [|[x y] queue] d Hb; simpl;
    try discriminate.
  - unfold ac3_bound in Hb. simpl in Hb. lia.
  - pose proof (revise_fuel x y d) as Hrf.
    destruct (revise crossword x y d) as [[revised d']| |] eqn:Hrev; simpl;
      try discriminate; [|contradiction].
    apply revise_size in Hrev. destruct Hrev as (_ & Hle & Hlt).
    unfold ac3_bound in *. simpl in Hb.
    destruct revised.
    + specialize (Hlt eq_refl).
      unfold dict_get_exn. destruct (dict_get d' x) as [dx|]; simpl; [|discriminate].
      destruct (List.length dx =? 0); [discriminate|].
      apply IH. rewrite length_app, length_map.
      pose proof (filter_length_le (fun n => negb (Var.eqb n y)) (neighbors crossword x)).
      pose proof (neighbors_length x). nia.
    + apply IH. nia.
Qed.

Lemma ac3_loop_more_fuel (fuel : nat) :
  forall (fuel' : nat) (queue : list Arc) (d : Domains),
    fuel <= fuel' ->
    ac3_loop crossword fuel queue d <> OutOfFuel ->
    ac3_loop crossword fuel' queue d = ac3_loop crossword fuel queue d.
Proof.
  induction fuel as [|fuel IH]; intros fuel' [|[x y] queue] d Hle H; simpl in *;
    try congruence.
  - destruct fuel'; reflexivity.
  - destruct fuel'; reflexivity.
  - destruct fuel' as [|fuel']; [lia|]. simpl.
    destruct (revise crossword x y d) as [[revised d']| |]; simpl in *; try reflexivity.
    destruct revised.
    + destruct (dict_get_exn d' x) as [dx| |]; simpl in *; try reflexivity.
      destruct (List.length dx =? 0); [reflexivity|].
      apply IH; [lia | assumption].
    + apply IH; [lia | assumption].
Qed.

(** [ac3] is the [while] loop run to completion: any sufficient bound
    gives its result. *)
Lemma ac3_fuel_enough (fuel : nat) (arcs : option (list Arc)) (d : Domains) :
  ac3_bound crossword (initial_arcs crossword d) d <= fuel ->
  ac3_fuel crossword fuel arcs d = ac3 crossword arcs d.
Proof.
  intros Hle. unfold ac3, ac3_fuel.
  destruct (not_arcs arcs); [|reflexivity].
  apply ac3_loop_more_fuel; [assumption|].
  apply ac3_loop_terminates. lia.
Qed.

Lemma ac3_terminates (arcs : option (list Arc)) (d : Domains) :
  ac3 crossword arcs d <> OutOfFuel.
Proof.
  unfold ac3, ac3_fuel. destruct (not_arcs arcs); [|discriminate].
  apply ac3_loop_terminates. lia.
Qed.

End Termination.

(** ** The explicit arc list of [ac3] *)

(** C10 — An explicit, non-empty arc list is unusable: [ac3] then reads the
    local [queue] before it was ever bound and raises, whatever the bound
    on the loop, without processing any arc. Only a call with [None] or
    with the empty list returns; such a call works on the initial arcs of
    the store and its loop always comes to an end. *)
Theorem ac3_explicit_arcs_unbound (cw : Crossword) (d : Domains) :
  (forall (a : Arc) (arcs : list Arc),
      ac3 cw (Some (a :: arcs)) d = Exn UnboundLocalError
      /\ forall fuel, ac3_fuel cw fuel (Some (a :: arcs)) d = Exn UnboundLocalError)
  /\ (forall arcs r, ac3 cw arcs d = Ret r -> arcs = None \/ arcs = Some [])
  /\ ac3 cw (Some []) d = ac3 cw None d
  /\ ac3 cw None d
     = ac3_loop cw (ac3_bound cw (initial_arcs cw d) d) (initial_arcs cw d) d
  /\ ac3 cw None d <> OutOfFuel.
Proof.
  split; [|split; [|split; [|split]]].
  - intros a arcs. split; [reflexivity | intros fuel; reflexivity].
  - intros [[|a arcs]|] r H; auto. discriminate.
  - reflexivity.
  - reflexivity.
  - apply ac3_terminates.
Qed.

Lemma ac3_explicit_arcs_unbound_witness :
  ac3 Fixtures.cross_sat (Some [(Fixtures.across3, Fixtures.down4)])
      (init_domains Fixtures.cross_sat)
  = Exn UnboundLocalError.
Proof.
  apply (proj1 (ac3_explicit_arcs_unbound Fixtures.cross_sat
                  (init_domains Fixtures.cross_sat))).
Defined.

(** ** [revise] on a pair without overlap *)

Lemma revise_no_overlap (cw : Crossword) (x y : Var.t) (d : Domains) :
  overlaps cw x y = None -> revise cw x y d = Exn TypeError.
Proof. intros H. unfold revise. now rewrite H. Qed.

(** C5 — [revise] on a non-overlapping pair: the claim asks for [False]
    and an untouched store; the code raises [TypeError] instead, here on the
    two parallel slots of the three-slot grid, because the table entry is
    unpacked before the guard [x_overlap is not None] is reached. *)
Theorem revise_no_overlap_raises :
  Fixtures.left <> Fixtures.right
  /\ overlaps (Fixtures.arch_tie) Fixtures.left Fixtures.right = None
  /\ revise Fixtures.arch_tie Fixtures.left Fixtures.right
            (init_domains Fixtures.arch_tie)
     = Exn TypeError.
Proof. repeat split. discriminate. Qed.

(** ** AC-3 on a store with an empty domain *)

(** C4 — AC-3 postcondition: the claim has every domain non-empty whenever
    [ac3] returns [True]; on a single slot of length 4 with the vocabulary
    [SIX], node consistency empties the domain and [ac3] still returns
    [True], the emptiness test being made only on a domain that a revision
    has just shrunk. *)
Theorem ac3_true_with_empty_domain :
  let cw := Fixtures.lone ["SIX"%string] in
  enforce_node_consistency (init_domains cw) = Ret [(Fixtures.lone4, [])]
  /\ ac3 cw None [(Fixtures.lone4, [])] = Ret (true, [(Fixtures.lone4, [])]).
Proof. split; reflexivity. Qed.

(** ** Selection of the next slot *)

(** C6 — Variable selection heuristic: the claim breaks ties on domain size
    by the highest degree; the code sorts by domain size alone. On the
    three-slot grid all domains have three words after propagation; the
    slot returned is [left], of degree 1, although [top] has degree 2. *)
Theorem select_unassigned_variable_ignores_degree :
  let cw := Fixtures.arch_tie in
  exists d,
    (d1 <- enforce_node_consistency (init_domains cw) ;;
     '(_, d2) <- ac3 cw None d1 ;; Ret d2) = Ret d
    /\ select_unassigned_variable d [] = Ret Fixtures.left
    /\ option_map (@List.length string) (dict_get d Fixtures.left) = Some 3
    /\ option_map (@List.length string) (dict_get d Fixtures.top) = Some 3
    /\ List.length (neighbors cw Fixtures.left) = 1
    /\ List.length (neighbors cw Fixtures.top) = 2.
Proof.
  eexists. split; [vm_compute; reflexivity|].
  repeat split.
Qed.

(** ** Sorting *)

Section Sorting.
Context {A : Type} (key : A -> nat).

Lemma insert_by_In (x : A) (l : list A) (y : A) :
  In y (insert_by key x l) <-> y = x \/ In y l.
Proof.
  induction l as [|a l IH]; simpl.
  - intuition.
  - destruct (key x <=? key a); simpl; rewrite ?IH; intuition.
Qed.

Lemma sorted_In (l : list A) (y : A) : In y (sorted key l) <-> In y l.
Proof.
  induction l as [|a l IH]; simpl; [tauto|].
  rewrite insert_by_In, IH. intuition.
Qed.

Lemma insert_by_sorted (x : A) (l : list A) :
  StronglySorted (fun a b => key a <= key b) l ->
  StronglySorted (fun a b => key a <= key b) (insert_by key x l).
Proof.
  induction l as [|a l IH]; simpl; intros Hs.
  - repeat constructor.
  - inversion Hs as [|? ? Hs' Hall]; subst.
    destruct (Nat.leb_spec (key x) (key a)).
    + constructor; [assumption|]. constructor; [assumption|].
      eapply Forall_impl; [|exact Hall]. simpl; intros; lia.
    + constructor; [auto|]. apply Forall_forall. intros y Hy.
      apply insert_by_In in Hy. destruct Hy as [->|Hy]; [lia|].
      rewrite Forall_forall in Hall. auto.
Qed.

Lemma sorted_sorted (l : list A) :
  StronglySorted (fun a b => key a <= key b) (sorted key l).
Proof.
  induction l as [|a l IH]; simpl; [constructor | now apply insert_by_sorted].
Qed.

(** The first element of [sorted] has the least key. *)
Lemma sorted_head_min (l : list A) (h : A) (t : list A) :
  sorted key l = h :: t -> In h l /\ forall y, In y l -> key h <= key y.
Proof.
  intros Heq. split.
  - apply sorted_In. rewrite Heq. now left.
  - intros y Hy. apply sorted_In in Hy. rewrite Heq in Hy.
    pose proof (sorted_sorted l) as Hs. rewrite Heq in Hs.
    inversion Hs as [|? ? _ Hall]; subst.
    destruct Hy as [<-|Hy]; [lia|]. rewrite Forall_forall in Hall. auto.
Qed.

Lemma sorted_nil (l : list A) : sorted key l = [] -> l = [].
Proof.
  destruct l as [|a l]; [reflexivity|]. intros H.
  assert (Hin : In a (sorted key (a :: l))) by (apply sorted_In; now left).
  rewrite H in Hin. destruct Hin.
Qed.

End Sorting.

(** ** [select_unassigned_variable] *)

Section Select.
Context (d : Domains) (a : Assignment).

Let step (choice : Domains) (variable : Var.t) : Domains :=
  if negb (dict_mem a variable)
  then match dict_get d variable with
       | Some ws => dict_set choice variable ws
       | None => choice
       end
  else choice.

Lemma choice_fold_sound (ks : list Var.t) :
  forall acc : Domains,
    (forall v ws, dict_get acc v = Some ws ->
                  dict_mem a v = false /\ dict_get d v = Some ws) ->
    forall v ws, dict_get (fold_left step ks acc) v = Some ws ->
                 dict_mem a v = false /\ dict_get d v = Some ws.
Proof.
  induction ks as [|k ks IH]; simpl; intros acc Hacc; [exact Hacc|].
  apply IH. unfold step.
  destruct (dict_mem a k) eqn:Hk; simpl; [exact Hacc|].
  destruct (dict_get d k) as [wk|] eqn:Hdk; [|exact Hacc].
  intros v ws. destruct (Var.eq_dec k v) as [<-|Hneq].
  - rewrite dict_get_set_eq. intros H; inversion H; subst. auto.
  - rewrite dict_get_set_neq by assumption. apply Hacc.
Qed.

Lemma choice_fold_keep (ks : list Var.t) :
  forall (acc : Domains) v, In v (keys acc) -> In v (keys (fold_left step ks acc)).
Proof.
  induction ks as [|k ks IH]; simpl; intros acc v Hv; [exact Hv|].
  apply IH. unfold step.
  destruct (dict_mem a k); simpl; [exact Hv|].
  destruct (dict_get d k) as [wk|]; [|exact Hv].
  apply dict_get_In_keys. destruct (Var.eq_dec k v) as [<-|Hneq].
  - rewrite dict_get_set_eq. eauto.
  - rewrite dict_get_set_neq by assumption. now apply dict_get_In_keys.
Qed.

Lemma choice_fold_complete (ks : list Var.t) :
  forall (acc : Domains) v,
    In v ks -> In v (keys d) -> dict_mem a v = false ->
    In v (keys (fold_left step ks acc)).
Proof.
  induction ks as [|k ks IH]; simpl; intros acc v Hin Hd Ha; [destruct Hin|].
  destruct Hin as [->|Hin]; [|now apply IH].
  apply choice_fold_keep. unfold step. rewrite Ha. simpl.
  apply dict_get_In_keys in Hd. destruct Hd as [ws Hws]. rewrite Hws.
  apply dict_get_In_keys. rewrite dict_get_set_eq. eauto.
Qed.

Lemma choice_dict_NoDup : NoDup (keys (choice_dict d a)).
Proof.
  unfold choice_dict. fold step.
  assert (H : forall ks (acc : Domains),
             NoDup (keys acc) -> NoDup (keys (fold_left step ks acc))).
  { induction ks as [|k ks IH]; simpl; intros acc Hacc; [exact Hacc|].
    apply IH. unfold step. destruct (dict_mem a k); simpl; [exact Hacc|].
    destruct (dict_get d k); [now apply dict_set_NoDup | exact Hacc]. }
  apply H. constructor.
Qed.

Lemma choice_dict_spec (v : Var.t) (ws : list string) :
  dict_get (choice_dict d a) v = Some ws <->
  dict_mem a v = false /\ dict_get d v = Some ws.
Proof.
  split.
  - apply (choice_fold_sound (keys d) []). intros ? ? H; discriminate.
  - intros [Ha Hd].
    assert (Hin : In v (keys (choice_dict d a))).
    { apply (choice_fold_complete (keys d) []); auto;
        apply dict_get_In_keys; eauto. }
    apply dict_get_In_keys in Hin. destruct Hin as [ws' Hws'].
    pose proof (choice_fold_sound (keys d) []
                  (fun _ _ H => ltac:(discriminate H)) v ws' Hws') as [_ Hd'].
    congruence.
Qed.

(** What [select_unassigned_variable] returns is a slot of the store that
    the assignment leaves open and whose domain is among the smallest of
    such slots. *)
Lemma select_unassigned_variable_spec (v : Var.t) :
  select_unassigned_variable d a = Ret v ->
  dict_mem a v = false
  /\ exists ws, dict_get d v = Some ws
       /\ forall u wu, dict_mem a u = false -> dict_get d u = Some wu ->
                       List.length ws <= List.length wu.
Proof.
  unfold select_unassigned_variable.
  destruct (sorted _ (choice_dict d a)) as [|[h hs] t] eqn:Hs; simpl; [discriminate|].
  intros H; inversion H; subst.
  apply sorted_head_min in Hs. destruct Hs as [Hin Hmin].
  assert (Hget : exists ws, dict_get (choice_dict d a) v = Some ws).
  { apply dict_get_In_keys. change v with (fst (v, hs)). now apply in_map. }
  destruct Hget as [ws Hws].
  assert (Hh : In (v, ws) (choice_dict d a)) by now apply dict_get_In.
  apply choice_dict_spec in Hws. destruct Hws as [Ha Hd].
  split; [assumption|]. exists ws. split; [assumption|].
  intros u wu Hu Hdu.
  assert (Hcu : dict_get (choice_dict d a) u = Some wu)
    by (apply choice_dict_spec; auto).
  apply dict_get_In in Hcu.
  pose proof (Hmin _ Hcu) as H1. simpl in H1.
  assert (Heq : Some hs = Some ws).
  { rewrite <- (In_dict_get _ _ _ choice_dict_NoDup Hin).
    now rewrite <- (In_dict_get _ _ _ choice_dict_NoDup Hh). }
  inversion Heq; subst. exact H1.
Qed.

Lemma select_unassigned_variable_exists (u : Var.t) :
  In u (keys d) -> dict_mem a u = false ->
  exists v, select_unassigned_variable d a = Ret v.
Proof.
  intros Hu Ha. unfold select_unassigned_variable.
  destruct (sorted _ (choice_dict d a)) as [|[h hs] t] eqn:Hs; simpl; [|eauto].
  apply sorted_nil in Hs.
  apply dict_get_In_keys in Hu. destruct Hu as [wu Hwu].
  assert (Hc : dict_get (choice_dict d a) u = Some wu)
    by (apply choice_dict_spec; auto).
  rewrite Hs in Hc. discriminate.
Qed.

End Select.

(** ** The consistency check *)

Lemma nodup_length_le (l : list string) :
  List.length (nodup string_dec l) <= List.length l.
Proof.
  induction l as [|a l IH]; simpl; [lia|].
  destruct (in_dec string_dec a l); simpl; lia.
Qed.

Lemma nodup_length_NoDup (l : list string) :
  List.length l = List.length (nodup string_dec l) <-> NoDup l.
Proof.
  split.
  - induction l as [|a l IH]; simpl; [constructor|].
    pose proof (nodup_length_le l).
    destruct (in_dec string_dec a l); simpl; intros Hlen; [lia|].
    constructor; [assumption|]. apply IH. lia.
  - intros H. now rewrite nodup_fixed_point.
Qed.

Section Consistent.
Context (cw : Crossword).

Lemma consistent_iff (a : Assignment) :
  consistent cw a = Ret true <-> consistent_conditions cw a.
Proof.
  unfold consistent, consistent_conditions.
  destruct (Nat.eqb_spec (List.length (values a))
                         (List.length (nodup string_dec (values a)))) as [Hl|Hl];
    simpl.
  2:{ split; [discriminate|]. intros [Hnd _]. apply nodup_length_NoDup in Hnd.
      contradiction. }
  apply nodup_length_NoDup in Hl.
  split.
  - intros H. bind_inv H as b Hb. destruct b; simpl in H; [|discriminate].
    split; [assumption|]. split.
    + intros v w Hget.
      assert (Hv : In v (keys a)) by (apply dict_get_In_keys; eauto).
      apply (proj1 (forallM_true _ _) Hb) in Hv.
      unfold dict_get_exn in Hv. rewrite Hget in Hv. simpl in Hv.
      inversion Hv as [Heq]. now apply Nat.eqb_eq in Heq.
    + intros v n Hv Hn Hna.
      apply (proj1 (forallM_true _ _) H) in Hv.
      apply (proj1 (forallM_true _ _) Hv) in Hn.
      apply dict_mem_In_keys in Hna. rewrite Hna in Hn.
      destruct (overlaps cw v n) as [[x y]|] eqn:Ho; [|discriminate].
      unfold dict_get_exn, str_index in Hn.
      destruct (dict_get a v) as [wv|] eqn:Hgv; simpl in Hn; [|discriminate].
      destruct (String.get x wv) as [cv|] eqn:Hx; simpl in Hn; [|discriminate].
      destruct (dict_get a n) as [wn|] eqn:Hgn; simpl in Hn; [|discriminate].
      destruct (String.get y wn) as [cn|] eqn:Hy; simpl in Hn; [|discriminate].
      inversion Hn as [Heq]. apply Ascii.eqb_eq in Heq. subst.
      exists x, y, wv, wn, cn. auto.
  - intros (_ & Hlen & Hag).
    assert (H1 : forallM (fun variable =>
                            w <- dict_get_exn a variable ;;
                            Ret (Var.length variable =? String.length w))
                         (keys a) = Ret true).
    { apply forallM_true. intros v Hv. apply dict_get_In_keys in Hv.
      destruct Hv as [w Hw]. unfold dict_get_exn. rewrite Hw. simpl.
      now rewrite (Hlen v w Hw), Nat.eqb_refl. }
    rewrite H1. simpl. apply forallM_true. intros v Hv.
    apply forallM_true. intros n Hn.
    destruct (dict_mem a n) eqn:Hna; [|reflexivity].
    apply dict_mem_In_keys in Hna.
    destruct (Hag v n Hv Hn Hna) as (x & y & wv & wn & c & Ho & Hgv & Hgn & Hx & Hy).
    rewrite Ho. unfold dict_get_exn, str_index.
    rewrite Hgv; simpl. rewrite Hx; simpl. rewrite Hgn; simpl. rewrite Hy; simpl.
    now rewrite Ascii.eqb_refl.
Qed.

Lemma consistent_empty : consistent cw [] = Ret true.
Proof. reflexivity. Qed.

End Consistent.

(** ** Propagation keeps the slots of the store *)

Section Keys.
Context (cw : Crossword).

Lemma init_domains_keys : keys (init_domains cw) = variables cw.
Proof.
  unfold init_domains, keys. rewrite map_map. simpl. apply map_id.
Qed.

Lemma init_domains_get (v : Var.t) :
  In v (variables cw) -> dict_get (init_domains cw) v = Some (words cw).
Proof.
  unfold init_domains. induction (variables cw) as [|k ks IH]; simpl; [intros []|].
  destruct (Var_eqb_spec k v); [reflexivity|]. intros [?|H]; [contradiction|auto].
Qed.

Lemma enforce_node_consistency_keys (d d' : Domains) :
  enforce_node_consistency d = Ret d' -> keys d' = keys d.
Proof.
  unfold enforce_node_consistency.
  apply (foldM_invariant (fun dc => keys dc = keys d)); [|reflexivity].
  intros dc v dc' _ Hdc H. bind_inv H as ws Hws.
  revert H. apply (foldM_invariant (fun dc => keys dc = keys d)); [|assumption].
  intros s w s' _ Hs H.
  destruct (negb _); [|inversion H; subst; assumption].
  apply domains_remove_size in H. destruct H as [_ H]. congruence.
Qed.

Lemma ac3_loop_keys (fuel : nat) :
  forall (queue : list Arc) (d d' : Domains) (b : bool),
    ac3_loop cw fuel queue d = Ret (b, d') -> keys d' = keys d.
Proof.
  induction fuel as [|fuel IH]; intros [|[x y] queue] d d' b H; simpl in H;
    try discriminate; try (inversion H; subst; reflexivity).
  bind_inv H as st Hrev. destruct st as [revised d1]. simpl in H.
  apply revise_size in Hrev. destruct Hrev as (Hk & _).
  destruct revised.
  - bind_inv H as dx Hdx. destruct (List.length dx =? 0).
    + inversion H; subst. assumption.
    + apply IH in H. congruence.
  - apply IH in H. congruence.
Qed.

Lemma ac3_keys (arcs : option (list Arc)) (d d' : Domains) (b : bool) :
  ac3 cw arcs d = Ret (b, d') -> keys d' = keys d.
Proof.
  unfold ac3, ac3_fuel. destruct (not_arcs arcs); [|discriminate].
  apply ac3_loop_keys.
Qed.

End Keys.

(** ** Soundness of the search *)

Section BacktrackSound.
Context (cw : Crossword) (d : Domains).

Let checked := checked cw d.

Lemma try_values_sound (P : Assignment -> Prop)
      (recurse : Assignment -> res (option Assignment))
      (a : Assignment) (var : Var.t) :
  (forall value r,
      consistent cw (dict_set a var value) = Ret true ->
      recurse (dict_set a var value) = Ret (Some r) -> P r) ->
  forall vs r, try_values cw recurse a var vs = Ret (Some r) -> P r.
Proof.
  intros Hrec. induction vs as [|value vs IH]; simpl; intros r H; [discriminate|].
  bind_inv H as c Hc. destruct c; [|now apply IH].
  bind_inv H as result Hres. destruct result as [r'|]; [|now apply IH].
  inversion H; subst. eapply Hrec; eassumption.
Qed.

Lemma checked_extend (a : Assignment) (var : Var.t) (value : string) :
  checked a -> In var (keys d) ->
  consistent cw (dict_set a var value) = Ret true ->
  checked (dict_set a var value).
Proof.
  intros (Hnd & Hincl & _) Hvar Hc. split; [|split; [|assumption]].
  - now apply dict_set_NoDup.
  - intros k Hk. apply dict_get_In_keys in Hk. destruct Hk as [w Hw].
    destruct (Var.eq_dec var k) as [<-|Hneq]; [assumption|].
    rewrite dict_get_set_neq in Hw by assumption.
    apply Hincl. apply dict_get_In_keys. eauto.
Qed.

Lemma backtrack_fuel_sound (fuel : nat) :
  forall a r,
    checked a -> backtrack_fuel cw fuel d a = Ret (Some r) ->
    checked r /\ List.length r = List.length d.
Proof.
  induction fuel as [|fuel IH]; intros a r Ha H; simpl in H; [discriminate|].
  destruct (Nat.eqb_spec (List.length a) (List.length d)) as [Hlen|Hlen].
  - inversion H; subst. auto.
  - bind_inv H as var Hsel. bind_inv H as vs Hvs.
    apply select_unassigned_variable_spec in Hsel.
    destruct Hsel as (_ & ws & Hws & _).
    revert H.
    apply (try_values_sound
             (fun r => checked r /\ List.length r = List.length d)).
    intros value r' Hc Hr'.
    apply IH in Hr'; [assumption|].
    apply checked_extend; auto. apply dict_get_In_keys. eauto.
Qed.

(** A checked assignment with as many entries as the store has slots
    assigns every slot. *)
Lemma checked_full_complete (r : Assignment) :
  checked r -> List.length r = List.length d ->
  forall v, In v (keys d) -> In v (keys r).
Proof.
  intros (Hnd & Hincl & _) Hlen.
  apply NoDup_length_incl; [assumption| |assumption].
  unfold keys. rewrite !length_map. lia.
Qed.

End BacktrackSound.

Lemma assignment_complete_spec (d : Domains) (a : Assignment) :
  assignment_complete d a = true <-> forall v, In v (keys d) -> In v (keys a).
Proof.
  unfold assignment_complete. rewrite forallb_forall.
  split; intros H v Hv; apply dict_mem_In_keys; auto.
Qed.

(** C1 — Soundness of [solve]: an assignment returned by [solve] gives a
    word to every slot of the puzzle and to nothing else, and passes the
    consistency check; so its words are pairwise distinct, each has the
    length of its slot, and any two neighboring slots agree at their
    overlap. *)
Theorem solve_sound (cw : Crossword) (a : Assignment) :
  solve cw = Ret (Some a) ->
  (forall v, In v (variables cw) <-> exists w, dict_get a v = Some w)
  /\ assignment_complete (init_domains cw) a = true
  /\ consistent cw a = Ret true
  /\ (forall v1 v2 w, dict_get a v1 = Some w -> dict_get a v2 = Some w -> v1 = v2)
  /\ (forall v w, dict_get a v = Some w -> String.length w = Var.length v)
  /\ (forall v n wv wn,
        In n (neighbors cw v) ->
        dict_get a v = Some wv -> dict_get a n = Some wn ->
        exists x y c,
          overlaps cw v n = Some (x, y)
          /\ String.get x wv = Some c /\ String.get y wn = Some c).
Proof.
  unfold solve. intros H.
  bind_inv H as d1 Hd1. bind_inv H as st Hac. destruct st as [b d2]. simpl in H.
  apply enforce_node_consistency_keys in Hd1.
  apply ac3_keys in Hac.
  assert (Hkeys : keys d2 = variables cw)
    by (rewrite Hac, Hd1; apply init_domains_keys).
  unfold backtrack in H. apply backtrack_fuel_sound in H.
  2:{ split; [constructor|]. split; [intros ? []|reflexivity]. }
  destruct H as [Hch Hlen].
  pose proof (checked_full_complete cw d2 a Hch Hlen) as Hfull.
  destruct Hch as (Hnd & Hincl & Hcons).
  pose proof (proj1 (consistent_iff cw a) Hcons) as (Hdistinct & Hlength & Hagree).
  rewrite Hkeys in *.
  split; [|split; [|split; [assumption|split; [|split]]]].
  - intros v. rewrite <- dict_get_In_keys. split; auto.
  - apply assignment_complete_spec. now rewrite init_domains_keys.
  - intros v1 v2 w H1 H2.
    apply dict_get_In in H1, H2.
    clear - Hnd Hdistinct H1 H2. unfold keys, values in *.
    induction a as [|[k w'] a IH]; simpl in *; [contradiction|].
    inversion Hnd; inversion Hdistinct; subst.
    destruct H1 as [E1|H1], H2 as [E2|H2].
    + congruence.
    + inversion E1; subst. exfalso. apply H7.
      change w with (snd (v2, w)). now apply in_map.
    + inversion E2; subst. exfalso. apply H7.
      change w with (snd (v1, w)). now apply in_map.
    + auto.
  - intros v w Hw. symmetry. eauto.
  - intros v n wv wn Hn Hv Hwn.
    destruct (Hagree v n) as (x & y & wv' & wn' & c & Ho & Hgv & Hgn & Hx & Hy);
      try (apply dict_get_In_keys; eauto); [assumption|].
    exists x, y, c. rewrite Hv in Hgv. rewrite Hwn in Hgn.
    inversion Hgv; inversion Hgn; subst. auto.
Qed.

Lemma solve_sound_witness :
  exists a, solve Fixtures.cross_sat = Ret (Some a)
            /\ assignment_complete (init_domains Fixtures.cross_sat) a = true
            /\ consistent Fixtures.cross_sat a = Ret true.
Proof.
  eexists. split; [vm_compute; reflexivity|].
  split; [|apply (proj1 (proj2 (proj2
                   (solve_sound Fixtures.cross_sat _ eq_refl))))].
  apply (proj1 (proj2 (solve_sound Fixtures.cross_sat _ eq_refl))).
Defined.

(** ** Search on a store with an empty domain *)

(** C3 — Fail-to-None on an emptied domain: when node consistency and AC-3
    have run and left some slot with an empty domain, [solve] returns
    [None], whatever [ac3] itself returned. *)
Theorem solve_none_on_empty_domain (cw : Crossword) (d1 d2 : Domains)
        (b : bool) (v : Var.t) :
  enforce_node_consistency (init_domains cw) = Ret d1 ->
  ac3 cw None d1 = Ret (b, d2) ->
  dict_get d2 v = Some [] ->
  solve cw = Ret None.
Proof.
  intros H1 H2 Hv. unfold solve. rewrite H1. simpl. rewrite H2. simpl.
  unfold backtrack. simpl.
  destruct d2 as [|item d2']; [discriminate|]. simpl List.length.
  change (0 =? S (List.length d2')) with false. cbv iota.
  set (d2 := item :: d2') in *.
  assert (Hin : In v (keys d2)) by (apply dict_get_In_keys; eauto).
  destruct (select_unassigned_variable_exists d2 [] v Hin eq_refl) as [u Hu].
  rewrite Hu. simpl.
  apply select_unassigned_variable_spec in Hu.
  destruct Hu as (_ & ws & Hws & Hmin).
  specialize (Hmin v [] eq_refl Hv). simpl in Hmin.
  destruct ws; [|simpl in Hmin; lia].
  unfold dict_get_exn. rewrite Hws. reflexivity.
Qed.

Lemma solve_none_on_empty_domain_witness :
  solve Fixtures.cross_unsat = Ret None.
Proof.
  apply (solve_none_on_empty_domain Fixtures.cross_unsat
           [(Fixtures.across3, ["SIX"%string]);
            (Fixtures.down4, ["NINE"%string; "FIVE"%string])]
           [(Fixtures.across3, []);
            (Fixtures.down4, ["NINE"%string; "FIVE"%string])]
           false Fixtures.across3); reflexivity.
Defined.

(** ** Well-formed puzzles *)

Lemma overlap_eqb_eq (o1 o2 : option (nat * nat)) :
  overlap_eqb o1 o2 = true -> o1 = o2.
Proof.
  destruct o1 as [[a b]|], o2 as [[a' b']|]; simpl; try discriminate; auto.
  rewrite andb_true_iff, !Nat.eqb_eq. intros [-> ->]. reflexivity.
Qed.

Lemma well_formed_spec (cw : Crossword) :
  well_formed cw = true ->
  NoDup (variables cw)
  /\ forall x y, In x (variables cw) -> In y (variables cw) -> x <> y ->
                 overlaps cw y x = swap_overlap (overlaps cw x y).
Proof.
  unfold well_formed. rewrite andb_true_iff. intros [Hd Hs]. split.
  - now apply distinct_vars_NoDup.
  - intros x y Hx Hy Hneq. rewrite forallb_forall in Hs.
    specialize (Hs x Hx). rewrite forallb_forall in Hs. specialize (Hs y Hy).
    apply orb_true_iff in Hs. destruct Hs as [Hs|Hs].
    + apply Var_eqb_eq in Hs. contradiction.
    + now apply overlap_eqb_eq.
Qed.

Lemma neighbors_spec (cw : Crossword) (x y : Var.t) :
  In y (neighbors cw x) <->
  In y (variables cw) /\ y <> x /\ overlaps cw y x <> None.
Proof.
  unfold neighbors. rewrite filter_In, andb_true_iff, negb_true_iff, Var_eqb_neq.
  destruct (overlaps cw y x); simpl; intuition congruence.
Qed.

(** In a well-formed puzzle the neighbor relation is symmetric and the two
    table entries of a pair mirror each other. *)
Lemma neighbors_sym (cw : Crossword) (x y : Var.t) :
  well_formed cw = true -> In x (variables cw) ->
  In y (neighbors cw x) ->
  In x (neighbors cw y)
  /\ exists a b, overlaps cw x y = Some (a, b) /\ overlaps cw y x = Some (b, a).
Proof.
  intros Hwf Hx Hy. apply well_formed_spec in Hwf. destruct Hwf as [_ Hsym].
  apply neighbors_spec in Hy. destruct Hy as (Hy & Hneq & Ho).
  pose proof (Hsym y x Hy Hx Hneq) as H1.
  destruct (overlaps cw y x) as [[b a]|] eqn:Hyx; [|congruence].
  simpl in H1. split.
  - apply neighbors_spec. repeat split; auto; congruence.
  - exists a, b. auto.
Qed.

(** ** AC-3 on an arc-consistent store *)

Lemma foldM_fixed {A S : Type} (f : S -> A -> res S) (l : list A) (s : S) :
  (forall a, In a l -> f s a = Ret s) -> foldM f l s = Ret s.
Proof.
  induction l as [|a l IH]; simpl; intros H; [reflexivity|].
  rewrite (H a (or_introl eq_refl)). simpl. apply IH. auto.
Qed.

Lemma words_match_found (xw : string) (a b : nat) (ys : list string) :
  (forall yw, In yw ys -> exists c, String.get b yw = Some c) ->
  (exists yw c, In yw ys /\ String.get a xw = Some c /\ String.get b yw = Some c) ->
  words_match xw a b ys = Ret true.
Proof.
  induction ys as [|y ys IH]; intros Hvalid (yw & c & Hin & Hx & Hy).
  - destruct Hin.
  - simpl. unfold str_index. rewrite Hx. simpl.
    destruct (Hvalid y (or_introl eq_refl)) as [cy Hcy]. rewrite Hcy. simpl.
    destruct (Ascii.eqb_spec c cy) as [|Hneq]; [reflexivity|].
    apply IH.
    + intros yw' Hyw'. apply Hvalid. now right.
    + exists yw, c. destruct Hin as [->|Hin]; [congruence|auto].
Qed.

Section Idempotence.
Context (cw : Crossword) (d : Domains).
Hypothesis Hwf : well_formed cw = true.
Hypothesis Hkeys : keys d = variables cw.
Hypothesis Hac : arc_consistent cw d.

Lemma revise_stable (x y : Var.t) :
  In x (keys d) -> In y (neighbors cw x) -> revise cw x y d = Ret (false, d).
Proof.
  intros Hx Hy.
  assert (Hx' : In x (variables cw)) by (rewrite <- Hkeys; assumption).
  destruct (neighbors_sym cw x y Hwf Hx' Hy) as (Hxy & a & b & Ho & Ho').
  assert (Hy' : In y (keys d)).
  { rewrite Hkeys. apply neighbors_spec in Hy. tauto. }
  unfold revise. rewrite Ho.
  apply dict_get_In_keys in Hx. destruct Hx as [xs Hxs].
  apply dict_get_In_keys in Hy'. destruct Hy' as [ys Hys].
  unfold dict_get_exn. rewrite Hxs. simpl.
  apply foldM_fixed. intros xw Hxw. rewrite Hys. simpl.
  rewrite words_match_found; [reflexivity| |].
  - intros yw Hyw.
    assert (Hyk : In y (keys d)) by (apply dict_get_In_keys; eauto).
    destruct (Hac y x Hyk Hxy ys yw Hys Hyw)
      as (xs' & w2 & b' & a' & c & _ & _ & Ho2 & Hget & _).
    rewrite Ho' in Ho2. inversion Ho2; subst. eauto.
  - assert (Hxk : In x (keys d)) by (apply dict_get_In_keys; eauto).
    destruct (Hac x y Hxk Hy xs xw Hxs Hxw)
      as (ys' & w2 & a' & b' & c & Hys' & Hw2 & Ho2 & Hgx & Hgy).
    rewrite Ho in Ho2. inversion Ho2; subst.
    rewrite Hys in Hys'. inversion Hys'; subst. eauto.
Qed.

Lemma ac3_loop_stable (queue : list Arc) :
  forall fuel,
    List.length queue <= fuel ->
    (forall x y, In (x, y) queue -> In x (keys d) /\ In y (neighbors cw x)) ->
    ac3_loop cw fuel queue d = Ret (true, d).
Proof.
  induction queue as [|[x y] queue IH]; intros fuel Hfuel Hq; simpl.
  - destruct fuel; reflexivity.
  - destruct fuel as [|fuel]; [simpl in Hfuel; lia|].
    destruct (Hq x y (or_introl eq_refl)) as [Hx Hy].
    cbn [ac3_loop]. rewrite (revise_stable x y Hx Hy). simpl.
    apply IH; [simpl in Hfuel; lia|]. intros; apply Hq; now right.
Qed.

End Idempotence.

Lemma initial_arcs_spec (cw : Crossword) (d : Domains) (x y : Var.t) :
  In (x, y) (initial_arcs cw d) <->
  In x (keys d) /\ In y (neighbors cw x) /\ overlaps cw x y <> None.
Proof.
  unfold initial_arcs. rewrite in_flat_map. split.
  - intros (v & Hv & Hin). apply in_map_iff in Hin.
    destruct Hin as (o & Heq & Ho). inversion Heq; subst.
    apply filter_In in Ho. destruct Ho as [Hn Hov].
    repeat split; auto. destruct (overlaps cw x y); [discriminate | discriminate].
  - intros (Hx & Hy & Ho). exists x. split; [assumption|].
    apply in_map_iff. exists y. split; [reflexivity|].
    apply filter_In. split; [assumption|].
    destruct (overlaps cw x y); [reflexivity | contradiction].
Qed.

(** C9 — Idempotence of AC-3: for a well-formed puzzle, on a store of the
    puzzle's slots that is already arc-consistent, [ac3] without an arc
    list returns [True] and leaves every domain as it was. *)
Theorem ac3_idempotent (cw : Crossword) (d : Domains) :
  well_formed cw = true ->
  keys d = variables cw ->
  arc_consistent cw d ->
  ac3 cw None d = Ret (true, d).
Proof.
  intros Hwf Hkeys Hac. unfold ac3, ac3_fuel. simpl.
  apply ac3_loop_stable; auto.
  - unfold ac3_bound. lia.
  - intros x y Hin. apply initial_arcs_spec in Hin. tauto.
Qed.

Lemma arc_consistentb_sound (cw : Crossword) (d : Domains) :
  arc_consistentb cw d = true -> arc_consistent cw d.
Proof.
  unfold arc_consistentb, arc_consistent, supported.
  rewrite forallb_forall. intros H x y Hx Hy xs w Hxs Hw.
  specialize (H x Hx). rewrite forallb_forall in H. specialize (H y Hy).
  destruct (overlaps cw x y) as [[a b]|]; [|discriminate].
  rewrite Hxs in H. destruct (dict_get d y) as [ys|]; [|discriminate].
  rewrite forallb_forall in H. specialize (H w Hw).
  apply existsb_exists in H. destruct H as (w2 & Hw2 & Hag).
  unfold char_agree in Hag.
  destruct (String.get a w) as [c|] eqn:Hc; [|discriminate].
  destruct (String.get b w2) as [c'|] eqn:Hc'; [|discriminate].
  apply Ascii.eqb_eq in Hag. subst.
  exists ys, w2, a, b, c'. auto.
Qed.

Lemma ac3_idempotent_witness :
  ac3 Fixtures.cross_sat None
      [(Fixtures.across3, ["SIX"%string]); (Fixtures.down4, ["ASKS"%string])]
  = Ret (true,
         [(Fixtures.across3, ["SIX"%string]); (Fixtures.down4, ["ASKS"%string])]).
Proof.
  apply (ac3_idempotent Fixtures.cross_sat); [reflexivity | reflexivity |].
  apply arc_consistentb_sound. reflexivity.
Defined.

(** ** Order in which [backtrack] tries the values *)

Lemma tried_values_spec (cw : Crossword)
      (recurse : Assignment -> res (option Assignment))
      (a : Assignment) (var : Var.t) :
  forall vs tried,
    tried_values cw recurse a var vs = Ret tried ->
    (exists rest, vs = tried ++ rest)
    /\ ((try_values cw recurse a var vs = Ret None /\ tried = vs)
        \/ exists r pre last,
             try_values cw recurse a var vs = Ret (Some r)
             /\ tried = pre ++ [last]
             /\ consistent cw (dict_set a var last) = Ret true
             /\ recurse (dict_set a var last) = Ret (Some r)).
Proof.
  induction vs as [|value vs IH]; simpl; intros tried H.
  - inversion H; subst. split; [exists []; reflexivity | left; auto].
  - bind_inv H as c Hc. rewrite Hc. simpl.
    assert (Hcont : forall rest_tried,
               tried_values cw recurse a var vs = Ret rest_tried ->
               (exists rest, value :: vs = (value :: rest_tried) ++ rest)
               /\ ((try_values cw recurse a var vs = Ret None
                    /\ value :: rest_tried = value :: vs)
                   \/ exists r pre last,
                        try_values cw recurse a var vs = Ret (Some r)
                        /\ value :: rest_tried = pre ++ [last]
                        /\ consistent cw (dict_set a var last) = Ret true
                        /\ recurse (dict_set a var last) = Ret (Some r))).
    { intros rt Hrt. destruct (IH rt Hrt) as [[rest Hrest] Hcase]. split.
      - exists rest. simpl. congruence.
      - destruct Hcase as [[Hn ->]|(r & pre & last & Ht & -> & Hcl & Hr)].
        + left. auto.
        + right. exists r, (value :: pre), last. auto. }
    destruct c.
    + bind_inv H as result Hres. rewrite Hres. simpl.
      destruct result as [r|].
      * inversion H; subst. split; [exists vs; reflexivity|].
        right. exists r, [], value. auto.
      * bind_inv H as rt Hrt. inversion H; subst. auto.
    + bind_inv H as rt Hrt. inversion H; subst. auto.
Qed.

(** The loop of [backtrack] as it is written: on an incomplete assignment
    the values tried for the slot chosen by [select_unassigned_variable]
    are an initial segment of that slot's domain, in the order in which
    the domain enumerates them. When [backtrack] returns [None] they are
    the whole domain; when it returns an assignment, the last value tried
    is one whose extension passes the consistency check and whose
    recursive search returned that assignment. *)
Lemma backtrack_tries_in_domain_order (cw : Crossword) (d : Domains)
        (a : Assignment) (var : Var.t) (tried : list string) :
  List.length a <> List.length d ->
  backtrack_tried cw d a = Ret (var, tried) ->
  select_unassigned_variable d a = Ret var
  /\ exists vs rest,
       dict_get d var = Some vs
       /\ vs = tried ++ rest
       /\ ((backtrack cw d a = Ret None /\ tried = vs)
           \/ exists r pre last,
                backtrack cw d a = Ret (Some r)
                /\ tried = pre ++ [last]
                /\ consistent cw (dict_set a var last) = Ret true
                /\ backtrack_fuel cw (List.length d) d (dict_set a var last)
                   = Ret (Some r)).
Proof.
  intros Hlen H. unfold backtrack_tried in H.
  bind_inv H as v Hsel. bind_inv H as vs Hvs. bind_inv H as tr Htr.
  inversion H; subst. split; [assumption|].
  unfold dict_get_exn in Hvs.
  destruct (dict_get d var) as [vs'|] eqn:Hget; [|discriminate].
  inversion Hvs; subst.
  destruct (tried_values_spec _ _ _ _ _ _ Htr) as [[rest Hrest] Hcase].
  exists vs, rest. repeat split; auto.
  assert (Hbt : backtrack cw d a
                = try_values cw (backtrack_fuel cw (List.length d) d) a var vs).
  { unfold backtrack. simpl.
    apply Nat.eqb_neq in Hlen. rewrite Hlen, Hsel. simpl.
    unfold dict_get_exn. now rewrite Hget. }
  rewrite Hbt. exact Hcase.
Qed.

Lemma backtrack_tries_in_domain_order_witness :
  select_unassigned_variable Fixtures.cross_lcv_domains [] = Ret Fixtures.across3
  /\ exists vs rest,
       dict_get Fixtures.cross_lcv_domains Fixtures.across3 = Some vs
       /\ vs = ["SIX"%string] ++ rest.
Proof.
  destruct (backtrack_tries_in_domain_order Fixtures.cross_lcv
              Fixtures.cross_lcv_domains [] Fixtures.across3 ["SIX"%string])
    as (Hsel & vs & rest & Hget & Hvs & _).
  - simpl. discriminate.
  - reflexivity.
  - split; [exact Hsel|]. exists vs, rest. split; assumption.
Defined.

(** C7 — Value ordering in search: the candidate words of the selected slot
    are to be tried in the order of the least-constraining-value
    heuristic. The code does not do so: [backtrack] walks the domain as
    the set enumerates it and never calls [order_domain_values]. On the two
    crossing slots with the domains left by propagation, the across slot
    is chosen, [SIX] is tried first and kept, and [solve] answers [SIX],
    [ASKS], while the order of [order_domain_values] is [TEN], [SIX]. *)
Theorem backtrack_order_is_not_lcv :
  (d1 <- enforce_node_consistency (init_domains Fixtures.cross_lcv) ;;
   ac3 Fixtures.cross_lcv None d1) = Ret (true, Fixtures.cross_lcv_domains)
  /\ solve Fixtures.cross_lcv
     = Ret (Some [(Fixtures.across3, "SIX"%string);
                  (Fixtures.down4, "ASKS"%string)])
  /\ ~ tries_in_lcv_order Fixtures.cross_lcv Fixtures.cross_lcv_domains [].
Proof.
  split; [reflexivity|]. split; [reflexivity|]. intros H.
  destruct (H Fixtures.across3 ["SIX"%string] ["TEN"%string; "SIX"%string]
              eq_refl eq_refl) as [rest Hrest].
  discriminate.
Qed.

(** ** Completeness of the search *)

Lemma values_NoDup_inj (s : Assignment) (k k' : Var.t) (w : string) :
  NoDup (values s) -> In (k, w) s -> In (k', w) s -> k = k'.
Proof.
  unfold values. induction s as [|[k0 w0] s IH]; simpl; [intros _ []|].
  intros Hnd H1 H2. inversion Hnd as [|? ? Hnin Hnd']; subst.
  destruct H1 as [E1|H1], H2 as [E2|H2].
  - congruence.
  - inversion E1; subst. exfalso. apply Hnin.
    change w with (snd (k', w)). now apply in_map.
  - inversion E2; subst. exfalso. apply Hnin.
    change w with (snd (k, w)). now apply in_map.
  - auto.
Qed.

Lemma part_of_values_NoDup (s : Assignment) :
  NoDup (values s) ->
  forall a, NoDup (keys a) -> part_of a s -> NoDup (values a).
Proof.
  intros Hs. induction a as [|[k w] a IH]; simpl; intros Hnd Hpart;
    [constructor|].
  inversion Hnd as [|? ? Hnin Hnd']; subst.
  assert (Htail : part_of a s).
  { intros v w' Hget. apply Hpart. simpl.
    destruct (Var_eqb_spec k v) as [->|]; [|assumption].
    exfalso. apply Hnin. apply dict_get_In_keys. eauto. }
  constructor; [|now apply IH].
  intros Hin. apply in_map_iff in Hin. destruct Hin as ([k' w'] & Heq & Hin).
  simpl in Heq. subst w'.
  assert (Hk : dict_get s k = Some w).
  { apply Hpart. simpl. now rewrite Var_eqb_refl. }
  assert (Hk' : dict_get s k' = Some w).
  { apply Htail. now apply In_dict_get. }
  apply dict_get_In in Hk, Hk'.
  pose proof (values_NoDup_inj s k k' w Hs Hk Hk'). subst k'.
  apply Hnin. change k with (fst (k, w)). now apply in_map.
Qed.

(** A part of a consistent assignment is consistent. *)
Lemma part_of_consistent (cw : Crossword) (a s : Assignment) :
  consistent_conditions cw s -> NoDup (keys a) -> part_of a s ->
  consistent cw a = Ret true.
Proof.
  intros (Hd & Hl & Hag) Hnd Hpart. apply consistent_iff.
  split; [|split].
  - eapply part_of_values_NoDup; eassumption.
  - intros v w Hget. apply Hl. now apply Hpart.
  - intros v n Hv Hn Hna.
    apply dict_get_In_keys in Hv, Hna.
    destruct Hv as [wv Hwv], Hna as [wn Hwn].
    destruct (Hag v n) as (x & y & wv' & wn' & c & Ho & Hgv & Hgn & Hx & Hy);
      try (apply dict_get_In_keys; eauto); [assumption|].
    rewrite (Hpart _ _ Hwv) in Hgv. rewrite (Hpart _ _ Hwn) in Hgn.
    inversion Hgv; inversion Hgn; subst.
    exists x, y, wv', wn', c. auto.
Qed.

Lemma part_of_extend (a s : Assignment) (var : Var.t) (w : string) :
  part_of a s -> dict_get s var = Some w -> part_of (dict_set a var w) s.
Proof.
  intros Hpart Hs v w' Hget. destruct (Var.eq_dec var v) as [<-|Hneq].
  - rewrite dict_get_set_eq in Hget. congruence.
  - rewrite dict_get_set_neq in Hget by assumption. auto.
Qed.

Lemma words_match_false (xw : string) (a b : nat) (ys : list string) :
  words_match xw a b ys = Ret false ->
  forall yw c, In yw ys -> String.get a xw = Some c -> String.get b yw <> Some c.
Proof.
  induction ys as [|y ys IH]; simpl; intros H yw c Hin Hx; [destruct Hin|].
  unfold str_index in H. rewrite Hx in H. simpl in H.
  destruct (String.get b y) as [cy|] eqn:Hy; simpl in H; [|discriminate].
  destruct (Ascii.eqb_spec c cy) as [|Hneq]; [discriminate|].
  destruct Hin as [<-|Hin].
  - congruence.
  - apply IH; auto.
Qed.

Lemma try_values_none (cw : Crossword)
      (recurse : Assignment -> res (option Assignment))
      (a : Assignment) (var : Var.t) :
  forall vs value,
    try_values cw recurse a var vs = Ret None -> In value vs ->
    consistent cw (dict_set a var value) = Ret true ->
    recurse (dict_set a var value) = Ret None.
Proof.
  induction vs as [|v vs IH]; simpl; intros value H Hin Hc; [destruct Hin|].
  bind_inv H as c Hcv. destruct Hin as [->|Hin].
  - rewrite Hc in Hcv. inversion Hcv; subst.
    bind_inv H as result Hres. destruct result; [discriminate | assumption].
  - destruct c; [|now apply IH].
    bind_inv H as result Hres. destruct result; [discriminate | now apply IH].
Qed.

Section Completeness.
Context (cw : Crossword) (s : Assignment).
Hypothesis Hsol : complete_consistent cw s.

Lemma solution_word (v : Var.t) :
  In v (variables cw) -> exists w, dict_get s v = Some w.
Proof.
  intros Hv. destruct Hsol as (_ & Hall & _).
  destruct (Hall v Hv) as (w & Hw & _). eauto.
Qed.

(** The consistency check reads the table entry of a slot and each of its
    neighbors; having passed it on every slot, the solution vouches for the
    entry in the other direction. *)
Lemma solution_neighbors_sym (x n : Var.t) :
  In x (variables cw) -> In n (neighbors cw x) -> In x (neighbors cw n).
Proof.
  intros Hx Hn. pose proof Hn as Hn'. apply neighbors_spec in Hn'.
  destruct Hn' as (Hnv & Hneq & _).
  destruct (solution_word x Hx) as [wx Hwx].
  destruct (solution_word n Hnv) as [wn Hwn].
  destruct Hsol as (_ & _ & _ & _ & Hag).
  destruct (Hag x n) as (p & q & _ & _ & _ & Ho & _);
    try (apply dict_get_In_keys; eauto); [assumption|].
  apply neighbors_spec. repeat split; auto; congruence.
Qed.

Lemma offers_init : offers (init_domains cw) s.
Proof.
  intros v ws w Hd Hs.
  assert (Hv : In v (variables cw)).
  { rewrite <- init_domains_keys. apply dict_get_In_keys. eauto. }
  rewrite init_domains_get in Hd by assumption. inversion Hd; subst.
  destruct Hsol as (_ & Hall & _). destruct (Hall v Hv) as (w' & Hw' & Hin).
  congruence.
Qed.

Lemma offers_remove (d d' : Domains) (v : Var.t) (word : string) :
  offers d s ->
  (forall w, dict_get s v = Some w -> w <> word) ->
  domains_remove d v word = Ret d' ->
  offers d' s.
Proof.
  intros Hoff Hneq H. apply domains_remove_Ret in H.
  destruct H as (s0 & Hget & _ & ->).
  intros k ws w Hk Hs. destruct (Var.eq_dec v k) as [<-|Hvk].
  - rewrite dict_get_set_eq in Hk. inversion Hk; subst.
    apply In_filter_remove. split; [eapply Hoff; eassumption | auto].
  - rewrite dict_get_set_neq in Hk by assumption. eapply Hoff; eassumption.
Qed.

Lemma offers_enforce (d d' : Domains) :
  offers d s -> enforce_node_consistency d = Ret d' -> offers d' s.
Proof.
  intros Hoff. unfold enforce_node_consistency.
  apply (foldM_invariant (fun dc => offers dc s)); [|assumption].
  intros dc v dc' _ Hdc H. bind_inv H as ws Hws.
  revert H. apply (foldM_invariant (fun dc => offers dc s)); [|assumption].
  intros dc1 word dc2 _ Hdc1 H.
  destruct (Nat.eqb_spec (String.length word) (Var.length v)) as [|Hlen];
    simpl in H; [inversion H; subst; assumption|].
  eapply offers_remove; [exact Hdc1| |exact H].
  intros w Hw ->. destruct Hsol as (_ & _ & _ & Hl & _).
  apply Hl in Hw. congruence.
Qed.

(** Revising an arc between two neighbors never removes the word of the
    solution. *)
Lemma offers_revise (x y : Var.t) (d d' : Domains) (b : bool) :
  In x (variables cw) -> In y (neighbors cw x) ->
  offers d s -> revise cw x y d = Ret (b, d') -> offers d' s.
Proof.
  intros Hx Hy Hoff. unfold revise.
  destruct (overlaps cw x y) as [[ox oy]|] eqn:Ho; [|discriminate].
  intros H. bind_inv H as xs Hxs.
  apply (foldM_invariant (fun st : bool * Domains => offers (snd st) s)) in H;
    [exact H| |exact Hoff].
  intros [rev dc] xw [rev' dc'] _ Hdc Hstep. simpl in *.
  bind_inv Hstep as ys Hys. bind_inv Hstep as m Hm.
  destruct m; simpl in Hstep; [inversion Hstep; subst; assumption|].
  bind_inv Hstep as dr Hdr. inversion Hstep; subst.
  eapply offers_remove; [exact Hdc| |exact Hdr].
  intros w Hw ->.
  assert (Hyv : In y (variables cw)) by (apply neighbors_spec in Hy; tauto).
  destruct (solution_word y Hyv) as [wy Hwy].
  destruct Hsol as (_ & _ & _ & _ & Hag).
  destruct (Hag x y) as (ox' & oy' & wx' & wy' & c & Ho' & Hgx & Hgy & Hcx & Hcy);
    try (apply dict_get_In_keys; eauto); [assumption|].
  rewrite Ho in Ho'. inversion Ho'; subst ox' oy'.
  rewrite Hw in Hgx. rewrite Hwy in Hgy. inversion Hgx; inversion Hgy; subst.
  unfold dict_get_exn in Hys.
  destruct (dict_get d y) as [ys'|] eqn:Hdy; [|discriminate].
  inversion Hys; subst.
  apply (words_match_false _ _ _ _ Hm wy' c); auto.
  eapply Hoff; eassumption.
Qed.

Lemma offers_ac3_loop (fuel : nat) :
  forall (queue : list Arc) (d d' : Domains) (b : bool),
    (forall x y, In (x, y) queue -> In x (variables cw) /\ In y (neighbors cw x)) ->
    offers d s -> ac3_loop cw fuel queue d = Ret (b, d') -> offers d' s.
Proof.
  induction fuel as [|fuel IH]; intros [|[x y] queue] d d' b Hq Hoff H;
    simpl in H; try discriminate; try (inversion H; subst; assumption).
  destruct (Hq x y (or_introl eq_refl)) as [Hx Hy].
  bind_inv H as st Hrev. destruct st as [revised d1]. simpl in H.
  apply offers_revise in Hrev; auto.
  destruct revised.
  - bind_inv H as dx Hdx. destruct (List.length dx =? 0).
    + inversion H; subst. assumption.
    + revert H. apply IH; [|assumption].
      intros x' y' Hin. apply in_app_or in Hin. destruct Hin as [Hin|Hin].
      * apply Hq. now right.
      * apply in_map_iff in Hin. destruct Hin as (n & Heq & Hn).
        inversion Heq; subst. apply filter_In in Hn. destruct Hn as [Hn _].
        split; [apply neighbors_spec in Hn; tauto|].
        now apply solution_neighbors_sym.
  - revert H. apply IH; [|assumption]. intros; apply Hq; now right.
Qed.

Lemma offers_ac3 (d d' : Domains) (b : bool) :
  keys d = variables cw ->
  offers d s -> ac3 cw None d = Ret (b, d') -> offers d' s.
Proof.
  intros Hkeys Hoff. unfold ac3, ac3_fuel. simpl.
  apply offers_ac3_loop; [|assumption].
  intros x y Hin. apply initial_arcs_spec in Hin. rewrite <- Hkeys. tauto.
Qed.

(** With the solution's words still on offer, the search cannot come back
    empty-handed from a part of the solution. *)
Lemma backtrack_fuel_complete (d : Domains) (fuel : nat) :
  keys d = variables cw -> offers d s ->
  forall a, NoDup (keys a) -> part_of a s ->
            backtrack_fuel cw fuel d a <> Ret None.
Proof.
  intros Hkeys Hoff. induction fuel as [|fuel IH]; intros a Hnd Hpart H;
    simpl in H; [discriminate|].
  destruct (List.length a =? List.length d); [discriminate|].
  bind_inv H as var Hsel. bind_inv H as vs Hvs.
  apply select_unassigned_variable_spec in Hsel.
  destruct Hsel as (Hfree & ws & Hws & _).
  unfold dict_get_exn in Hvs. rewrite Hws in Hvs. inversion Hvs; subst.
  assert (Hvar : In var (variables cw)).
  { rewrite <- Hkeys. apply dict_get_In_keys. eauto. }
  destruct (solution_word var Hvar) as [w Hw].
  assert (Hpart' : part_of (dict_set a var w) s) by now apply part_of_extend.
  assert (Hnd' : NoDup (keys (dict_set a var w))) by now apply dict_set_NoDup.
  apply (try_values_none _ _ _ _ _ w) in H.
  - now apply (IH (dict_set a var w)).
  - eapply Hoff; eassumption.
  - destruct Hsol as (_ & _ & Hcons).
    eapply part_of_consistent; eassumption.
Qed.

Lemma solve_complete : solve cw <> Ret None.
Proof.
  unfold solve. intros H.
  bind_inv H as d1 Hd1. bind_inv H as st Hac. destruct st as [b d2]. simpl in H.
  pose proof (offers_enforce _ _ offers_init Hd1) as Hoff1.
  apply enforce_node_consistency_keys in Hd1. rewrite init_domains_keys in Hd1.
  pose proof (offers_ac3 _ _ _ Hd1 Hoff1 Hac) as Hoff2.
  apply ac3_keys in Hac.
  revert H. apply backtrack_fuel_complete; try congruence.
  - assumption.
  - constructor.
  - intros v w Hget. discriminate.
Qed.

End Completeness.

(** C2 — Completeness of failure: when [solve] returns [None] there is no
    complete assignment of vocabulary words that meets the conditions of
    the consistency check: neither node consistency, nor AC-3, nor the
    search ever drops a word of such an assignment. *)
Theorem solve_none_complete (cw : Crossword) :
  solve cw = Ret None ->
  forall s, ~ complete_consistent cw s.
Proof.
  intros Hnone s Hs. exact (solve_complete cw s Hs Hnone).
Qed.

(** The same on the check itself: no dict that covers the slots with
    vocabulary words makes [consistent] return [True]. *)
Corollary solve_none_no_consistent (cw : Crossword) (s : Assignment) :
  solve cw = Ret None ->
  NoDup (keys s) ->
  (forall v, In v (variables cw) ->
             exists w, dict_get s v = Some w /\ In w (words cw)) ->
  consistent cw s <> Ret true.
Proof.
  intros Hnone Hnd Hall Hc. apply (solve_complete cw s); [|assumption].
  split; [assumption|]. split; [assumption|]. now apply consistent_iff.
Qed.

Lemma solve_none_complete_witness :
  solve Fixtures.cross_unsat = Ret None
  /\ ~ complete_consistent Fixtures.cross_unsat
       [(Fixtures.across3, "SIX"%string); (Fixtures.down4, "NINE"%string)].
Proof.
  split; [reflexivity|].
  apply (solve_none_complete Fixtures.cross_unsat). reflexivity.
Defined.

(** ** Termination of the search *)

Lemma forallM_fuel {A : Type} (f : A -> res bool) (l : list A) :
  (forall a, f a <> OutOfFuel) -> forallM f l <> OutOfFuel.
Proof.
  intros Hf. induction l as [|a l IH]; simpl; [discriminate|].
  specialize (Hf a). destruct (f a) as [b| |]; simpl; try discriminate;
    [destruct b; [assumption | discriminate] | contradiction].
Qed.

Lemma consistent_fuel (cw : Crossword) (a : Assignment) :
  consistent cw a <> OutOfFuel.
Proof.
  unfold consistent. destruct (negb _); [discriminate|].
  match goal with |- bind ?m _ <> _ => assert (Hm : m <> OutOfFuel) end.
  { apply forallM_fuel. intros v. unfold dict_get_exn.
    destruct (dict_get a v); simpl; discriminate. }
  match goal with |- bind ?m _ <> _ => destruct m as [b| |] end;
    simpl; try discriminate; [|contradiction].
  destruct b; simpl; [|discriminate].
  apply forallM_fuel. intros v. apply forallM_fuel. intros n.
  destruct (dict_mem a n); [|discriminate].
  destruct (overlaps cw v n) as [[x y]|]; [|discriminate].
  unfold dict_get_exn, str_index.
  destruct (dict_get a v) as [wv|]; simpl; [|discriminate].
  destruct (String.get x wv); simpl; [|discriminate].
  destruct (dict_get a n) as [wn|]; simpl; [|discriminate].
  destruct (String.get y wn); simpl; discriminate.
Qed.

Lemma try_values_fuel (cw : Crossword)
      (recurse : Assignment -> res (option Assignment))
      (a : Assignment) (var : Var.t) (vs : list string) :
  (forall value, recurse (dict_set a var value) <> OutOfFuel) ->
  try_values cw recurse a var vs <> OutOfFuel.
Proof.
  intros Hrec. induction vs as [|value vs IH]; simpl; [discriminate|].
  pose proof (consistent_fuel cw (dict_set a var value)) as Hc.
  destruct (consistent cw (dict_set a var value)) as [c| |]; simpl;
    try discriminate; [|contradiction].
  destruct c; [|assumption].
  specialize (Hrec value).
  destruct (recurse (dict_set a var value)) as [[r|]| |]; simpl;
    try discriminate; [assumption | contradiction].
Qed.

(** The recursion of [backtrack] is at most as deep as there are slots
    left to assign. *)
Lemma backtrack_fuel_terminates (cw : Crossword) (d : Domains) (fuel : nat) :
  forall a,
    NoDup (keys a) -> incl (keys a) (keys d) ->
    List.length d < fuel + List.length a ->
    backtrack_fuel cw fuel d a <> OutOfFuel.
Proof.
  induction fuel as [|fuel IH]; intros a Hnd Hincl Hlen.
  - exfalso. pose proof (NoDup_incl_length Hnd Hincl) as Hle.
    unfold keys in Hle. rewrite !length_map in Hle. simpl in Hlen. lia.
  - simpl. destruct (List.length a =? List.length d); [discriminate|].
    destruct (select_unassigned_variable d a) as [var| |] eqn:Hsel; simpl;
      try discriminate.
    2:{ unfold select_unassigned_variable in Hsel.
        destruct (map fst _); discriminate. }
    apply select_unassigned_variable_spec in Hsel.
    destruct Hsel as (Hfree & ws & Hws & _).
    unfold dict_get_exn. rewrite Hws. simpl.
    apply try_values_fuel. intros value.
    assert (Hnin : ~ In var (keys a)).
    { intros Hin. apply dict_mem_In_keys in Hin. congruence. }
    apply IH.
    + now apply dict_set_NoDup.
    + rewrite dict_set_new by assumption. unfold keys. rewrite map_app.
      intros k Hk. apply in_app_or in Hk. destruct Hk as [Hk|[<-|[]]]; auto.
      apply dict_get_In_keys. eauto.
    + rewrite dict_set_new by assumption. rewrite length_app. simpl. lia.
Qed.

Lemma backtrack_fuel_more (cw : Crossword) (d : Domains) (fuel : nat) :
  forall fuel' a,
    fuel <= fuel' ->
    backtrack_fuel cw fuel d a <> OutOfFuel ->
    backtrack_fuel cw fuel' d a = backtrack_fuel cw fuel d a.
Proof.
  induction fuel as [|fuel IH]; intros fuel' a Hle H; simpl in H; [congruence|].
  destruct fuel' as [|fuel']; [lia|]. simpl.
  destruct (List.length a =? List.length d); [reflexivity|].
  destruct (select_unassigned_variable d a) as [var| |]; simpl in *; try reflexivity.
  destruct (dict_get_exn d var) as [vs| |]; simpl in *; try reflexivity.
  induction vs as [|value vs IHvs]; simpl in *; [reflexivity|].
  destruct (consistent cw (dict_set a var value)) as [c| |]; simpl in *;
    try reflexivity.
  destruct c; [|now apply IHvs].
  destruct (backtrack_fuel cw fuel d (dict_set a var value)) as [[r|]| |] eqn:Hr;
    simpl in *.
  - rewrite (IH fuel' (dict_set a var value)) by (try lia; congruence).
    rewrite Hr. reflexivity.
  - rewrite (IH fuel' (dict_set a var value)) by (try lia; congruence).
    rewrite Hr. simpl. now apply IHvs.
  - rewrite (IH fuel' (dict_set a var value)) by (try lia; congruence).
    rewrite Hr. reflexivity.
  - congruence.
Qed.

(** [solve] always comes to an end: with a value, [None], or an exception. *)
Lemma solve_terminates (cw : Crossword) : solve cw <> OutOfFuel.
Proof.
  unfold solve.
  assert (He : enforce_node_consistency (init_domains cw) <> OutOfFuel).
  { unfold enforce_node_consistency. apply foldM_fuel. intros dc v.
    unfold dict_get_exn. destruct (dict_get (init_domains cw) v); simpl;
      [|discriminate].
    apply foldM_fuel. intros dc' w. destruct (negb _); [|discriminate].
    apply domains_remove_fuel. }
  destruct (enforce_node_consistency (init_domains cw)) as [d1| |]; simpl;
    try discriminate; [|contradiction].
  pose proof (ac3_terminates cw None d1) as Ha.
  destruct (ac3 cw None d1) as [[b d2]| |]; simpl; try discriminate;
    [|contradiction].
  unfold backtrack. apply backtrack_fuel_terminates.
  - constructor.
  - intros ? [].
  - simpl. lia.
Qed.

(** The bounds built into [solve] lose nothing: any larger bound given to
    [solve_fuel] yields the same outcome. *)
Lemma solve_fuel_enough (cw : Crossword) (fuel : nat) :
  (forall d1, enforce_node_consistency (init_domains cw) = Ret d1 ->
              ac3_bound cw (initial_arcs cw d1) d1 <= fuel
              /\ List.length d1 < fuel) ->
  solve_fuel cw fuel = solve cw.
Proof.
  intros Hb. unfold solve_fuel, solve.
  destruct (enforce_node_consistency (init_domains cw)) as [d1| |] eqn:Hd1;
    simpl; try reflexivity.
  destruct (Hb d1 eq_refl) as [Hb1 Hb2].
  rewrite ac3_fuel_enough by assumption.
  destruct (ac3 cw None d1) as [[b d2]| |] eqn:Hac; simpl; try reflexivity.
  apply ac3_keys in Hac.
  assert (Hlen : List.length d2 = List.length d1).
  { unfold keys in Hac. apply (f_equal (@List.length _)) in Hac.
    now rewrite !length_map in Hac. }
  unfold backtrack. apply backtrack_fuel_more; [lia|].
  apply backtrack_fuel_terminates; [constructor | intros ? [] | simpl; lia].
Qed.

(** ** What a revision removes *)

Lemma words_match_true (xw : string) (a b : nat) (ys : list string) :
  words_match xw a b ys = Ret true ->
  exists yw c, In yw ys /\ String.get a xw = Some c /\ String.get b yw = Some c.
Proof.
  induction ys as [|y ys IH]; simpl; intros H; [discriminate|].
  unfold str_index in H.
  destruct (String.get a xw) as [c|] eqn:Hx; simpl in H; [|discriminate].
  destruct (String.get b y) as [cy|] eqn:Hy; simpl in H; [|discriminate].
  destruct (Ascii.eqb_spec c cy) as [->|Hneq].
  - exists y, cy. auto.
  - assert (Hrec : words_match xw a b ys = Ret true).
    { unfold str_index. exact H. }
    destruct (IH Hrec) as (yw & c' & Hin & Hc & Hc'). exists yw, c'. auto.
Qed.

Section ReviseSpec.
Context (cw : Crossword) (x y : Var.t) (d : Domains) (a b : nat)
        (ys : list string).
Hypothesis Hys : dict_get d y = Some ys.

Let body (st : bool * Domains) (x_word : string) : res (bool * Domains) :=
  let (revised, domains) := st in
  ys <- dict_get_exn d y ;;
  m <- words_match x_word a b ys ;;
  if negb m
  then domains' <- domains_remove domains x x_word ;; Ret (true, domains')
  else Ret (revised, domains).

(** Once a removal has been made the flag stays [True]. *)
Lemma revise_loop_flag (l : list string) :
  forall (dc d' : Domains) (rev' : bool),
    foldM body l (true, dc) = Ret (rev', d') -> rev' = true.
Proof.
  induction l as [|w l IH]; simpl; intros dc d' rev' H.
  - now inversion H.
  - bind_inv H as st Hstep. destruct st as [r1 d1].
    unfold body in Hstep. bind_inv Hstep as ys' Hys'.
    bind_inv Hstep as m Hm. destruct m; simpl in Hstep.
    + inversion Hstep; subst. eauto.
    + bind_inv Hstep as dr Hdr. inversion Hstep; subst. eauto.
Qed.

(** The loop of [revise] over the words [l] still to visit: the domain of
    [x] loses exactly the words of [l] that find no match. *)
Lemma revise_loop_spec (l : list string) :
  forall (rev rev' : bool) (dc d' : Domains) (s : list string),
    dict_get dc x = Some s ->
    foldM body l (rev, dc) = Ret (rev', d') ->
    exists s',
      d' = dict_set dc x s'
      /\ (forall w, In w s' <->
                    In w s /\ ~ (In w l /\ words_match w a b ys = Ret false))
      /\ (forall w, In w l -> exists m, words_match w a b ys = Ret m)
      /\ (rev' = false -> d' = dc).
Proof.
  induction l as [|xw l IH]; intros rev rev' dc d' s Hs H; simpl in H.
  - inversion H; subst. exists s. split; [|split; [|split]].
    + symmetry. now apply dict_set_same.
    + intros w. split; [intros Hw; split; [assumption | intros [[] _]] | tauto].
    + intros w [].
    + reflexivity.
  - bind_inv H as st Hstep. destruct st as [rev1 d1].
    unfold body in Hstep. unfold dict_get_exn in Hstep. rewrite Hys in Hstep.
    simpl in Hstep. bind_inv Hstep as m Hm. destruct m; simpl in Hstep.
    + inversion Hstep; subst.
      destruct (IH _ _ _ _ _ Hs H) as (s' & Hd' & Hin & Hall & Hrev).
      exists s'. split; [assumption|]. split; [|split; [|assumption]].
      * intros w. rewrite Hin. split; intros [Hw Hn]; split; auto.
        -- intros [[<-|Hl] Hf]; [congruence | apply Hn; auto].
        -- intros [Hl Hf]. apply Hn. split; [now right | assumption].
      * intros w [<-|Hw]; eauto.
    + bind_inv Hstep as dr Hdr. inversion Hstep; subst.
      apply domains_remove_Ret in Hdr. destruct Hdr as (s0 & Hs0 & Hxw & ->).
      rewrite Hs in Hs0. inversion Hs0; subst s0.
      pose proof (revise_loop_flag _ _ _ _ H) as ->.
      destruct (IH _ _ _ _ _ (dict_get_set_eq dc x _) H)
        as (s' & Hd' & Hin & Hall & _).
      exists s'. split; [now rewrite dict_set_set in Hd'|].
      split; [|split; [|discriminate]].
      * intros w. rewrite Hin, In_filter_remove.
        split.
        -- intros [[Hw Hneq] Hn]. split; [assumption|].
           intros [[Heq|Hl] Hf]; [congruence | apply Hn; auto].
        -- intros [Hw Hn]. split; [split; [assumption|]|].
           ++ intros ->. apply Hn. split; [now left | assumption].
           ++ intros [Hl Hf]. apply Hn. split; [now right | assumption].
      * intros w [<-|Hw]; eauto.
Qed.

End ReviseSpec.

Lemma revise_spec (cw : Crossword) (x y : Var.t) (d d' : Domains) (rev : bool) :
  revise cw x y d = Ret (rev, d') ->
  exists a b xs xs',
    overlaps cw x y = Some (a, b)
    /\ dict_get d x = Some xs
    /\ d' = dict_set d x xs'
    /\ (rev = false -> d' = d)
    /\ (forall w, In w xs' ->
          In w xs /\ exists ys, dict_get d y = Some ys
                                /\ words_match w a b ys = Ret true)
    /\ (forall w ys, In w xs -> dict_get d y = Some ys ->
                     words_match w a b ys <> Ret false -> In w xs').
Proof.
  unfold revise. destruct (overlaps cw x y) as [[a b]|]; [|discriminate].
  intros H. bind_inv H as xs Hxs. unfold dict_get_exn in Hxs.
  destruct (dict_get d x) as [xs0|] eqn:Hget; [|discriminate].
  inversion Hxs; subst xs0.
  destruct xs as [|xw xs].
  - simpl in H. inversion H; subst. exists a, b, [], [].
    split; [reflexivity|]. split; [reflexivity|].
    split; [symmetry; now apply dict_set_same|].
    split; [reflexivity|]. split; [intros w []|intros w ys []].
  - destruct (dict_get d y) as [ys|] eqn:Hys.
    2:{ simpl in H. unfold dict_get_exn in H. rewrite Hys in H. discriminate. }
    destruct (revise_loop_spec x y d a b ys Hys (xw :: xs) false rev d d'
                (xw :: xs) Hget H) as (s' & Hd' & Hin & Hall & Hrev).
    exists a, b, (xw :: xs), s'.
    split; [reflexivity|]. split; [reflexivity|]. split; [assumption|].
    split; [assumption|]. split.
    + intros w Hw. apply Hin in Hw. destruct Hw as [Hw Hn].
      split; [assumption|]. exists ys. split; [reflexivity|].
      destruct (Hall w Hw) as [[|] Hm]; [assumption|].
      exfalso. apply Hn. auto.
    + intros w ys' Hw Hys' Hnf. apply Hin. split; [assumption|].
      intros [_ Hf]. inversion Hys'; subst. contradiction.
Qed.

(** ** The fixpoint reached by AC-3 *)

Section AC3Fixpoint.
Context (cw : Crossword).
Hypothesis Hwf : well_formed cw = true.

(** One revision of an arc between neighbors: the arc is supported
    afterwards, and the only arcs that may lose their support are those
    into [x] from a neighbor other than [y]. *)
Lemma revise_step (x y : Var.t) (d d1 : Domains) (rev : bool) :
  In x (variables cw) -> In y (neighbors cw x) ->
  revise cw x y d = Ret (rev, d1) ->
  supported cw d1 x y
  /\ (forall u v, u <> x -> v <> x -> supported cw d u v -> supported cw d1 u v)
  /\ (forall v, v <> x -> supported cw d x v -> supported cw d1 x v)
  /\ (supported cw d y x -> supported cw d1 y x)
  /\ (rev = false -> d1 = d).
Proof.
  intros Hx Hy Hrev.
  destruct (neighbors_sym cw x y Hwf Hx Hy) as (Hxy & a0 & b0 & Ho & Ho').
  assert (Hneq : y <> x) by (apply neighbors_spec in Hy; tauto).
  destruct (revise_spec _ _ _ _ _ _ Hrev)
    as (a & b & xs & xs' & Hoa & Hgx & -> & Hrevf & Hkeep & Hstay).
  rewrite Ho in Hoa. inversion Hoa; subst a0 b0. clear Hoa.
  split; [|split; [|split; [|split]]].
  - intros xs1 w Hx1 Hw. rewrite dict_get_set_eq in Hx1. inversion Hx1; subst xs1.
    destruct (Hkeep w Hw) as (_ & ys & Hys & Hm).
    apply words_match_true in Hm. destruct Hm as (yw & c & Hyw & Hc & Hc').
    exists ys, yw, a, b, c. rewrite dict_get_set_neq by congruence. auto.
  - intros u v Hu Hv Hs us w Hus Hw.
    rewrite dict_get_set_neq in Hus by congruence.
    destruct (Hs us w Hus Hw) as (vs & w2 & p & q & c & Hvs & Hrest).
    exists vs, w2, p, q, c. rewrite dict_get_set_neq by congruence. auto.
  - intros v Hv Hs xs1 w Hx1 Hw.
    rewrite dict_get_set_eq in Hx1. inversion Hx1; subst xs1.
    destruct (Hkeep w Hw) as (Hwxs & _).
    destruct (Hs xs w Hgx Hwxs) as (vs & w2 & p & q & c & Hvs & Hrest).
    exists vs, w2, p, q, c. rewrite dict_get_set_neq by congruence. auto.
  - intros Hs ys w Hys Hw. rewrite dict_get_set_neq in Hys by congruence.
    destruct (Hs ys w Hys Hw) as (xs0 & w2 & p & q & c & Hxs0 & Hw2 & Hop & Hp & Hq).
    rewrite Ho' in Hop. inversion Hop; subst p q.
    rewrite Hgx in Hxs0. inversion Hxs0; subst xs0.
    exists xs', w2, b, a, c. rewrite dict_get_set_eq.
    repeat split; auto.
    apply (Hstay w2 ys Hw2 Hys). intros Hf.
    apply (words_match_false _ _ _ _ Hf w c Hw Hq). assumption.
  - assumption.
Qed.

Lemma ac3_loop_arc_consistent (fuel : nat) :
  forall (queue : list Arc) (d d' : Domains),
    keys d = variables cw ->
    arcs_between cw queue -> pending cw queue d ->
    ac3_loop cw fuel queue d = Ret (true, d') ->
    arc_consistent cw d'.
Proof.
  induction fuel as [|fuel IH]; intros [|[x y] queue] d d' Hkeys Hq Hp H;
    simpl in H; try discriminate.
  - inversion H; subst. intros u v Hu Hv. rewrite Hkeys in Hu.
    destruct (Hp u v Hu Hv) as [[]|]; assumption.
  - inversion H; subst. intros u v Hu Hv. rewrite Hkeys in Hu.
    destruct (Hp u v Hu Hv) as [[]|]; assumption.
  - destruct (Hq x y (or_introl eq_refl)) as [Hx Hy].
    bind_inv H as st Hrev. destruct st as [rev d1]. simpl in H.
    pose proof (revise_size _ _ _ _ _ _ Hrev) as (Hk1 & _).
    destruct (revise_step x y d d1 rev Hx Hy Hrev) as (S1 & S2 & S3 & S4 & Hsame).
    assert (Hyx : y <> x) by (apply neighbors_spec in Hy; tauto).
    destruct rev.
    + bind_inv H as dx Hdx. destruct (List.length dx =? 0); [discriminate|].
      revert H. apply IH; [congruence| |].
      * intros u v Hin. apply in_app_or in Hin. destruct Hin as [Hin|Hin].
        -- apply Hq. now right.
        -- apply in_map_iff in Hin. destruct Hin as (n & Heq & Hn).
           inversion Heq; subst. apply filter_In in Hn. destruct Hn as [Hn _].
           split; [apply neighbors_spec in Hn; tauto|].
           now apply (neighbors_sym cw v u Hwf Hx Hn).
      * intros u v Hu Hv.
        assert (Huv : v <> u) by (apply neighbors_spec in Hv; tauto).
        destruct (Var.eq_dec u x) as [->|Hux].
        -- destruct (Var.eq_dec v y) as [->|Hvy]; [right; exact S1|].
           destruct (Hp x v Hu Hv) as [[Heq|Hin]|Hs].
           ++ inversion Heq; congruence.
           ++ left. apply in_or_app. now left.
           ++ right. now apply S3.
        -- destruct (Var.eq_dec v x) as [->|Hvx].
           ++ destruct (Var.eq_dec u y) as [->|Huy].
              ** destruct (Hp y x Hu Hv) as [[Heq|Hin]|Hs].
                 --- inversion Heq; congruence.
                 --- left. apply in_or_app. now left.
                 --- right. now apply S4.
              ** left. apply in_or_app. right. apply in_map_iff.
                 exists u. split; [reflexivity|]. apply filter_In. split.
                 --- now apply (neighbors_sym cw u x Hwf Hu Hv).
                 --- apply negb_true_iff. now apply Var_eqb_neq.
           ++ destruct (Hp u v Hu Hv) as [[Heq|Hin]|Hs].
              ** inversion Heq; congruence.
              ** left. apply in_or_app. now left.
              ** right. now apply S2.
    + specialize (Hsame eq_refl). subst d1.
      revert H. apply IH; [assumption| |].
      * intros u v Hin. apply Hq. now right.
      * intros u v Hu Hv. destruct (Hp u v Hu Hv) as [[Heq|Hin]|Hs]; auto.
        inversion Heq; subst. right. exact S1.
Qed.

(** When [ac3] returns [True] the store is arc-consistent: no revision
    could remove anything more. *)
Lemma ac3_true_arc_consistent (d d' : Domains) :
  keys d = variables cw ->
  ac3 cw None d = Ret (true, d') ->
  arc_consistent cw d'.
Proof.
  intros Hkeys. unfold ac3, ac3_fuel. simpl.
  apply ac3_loop_arc_consistent; [assumption| |].
  - intros x y Hin. apply initial_arcs_spec in Hin. rewrite <- Hkeys. tauto.
  - intros x y Hx Hy. left. apply initial_arcs_spec. rewrite Hkeys.
    repeat split; auto.
    destruct (neighbors_sym cw x y Hwf Hx Hy) as (_ & a & b & Ho & _). congruence.
Qed.

End AC3Fixpoint.

(** [ac3] returns [False] exactly when a revision has just emptied a
    domain; a domain that had words when [ac3] was called still has some
    when it returns [True]. *)
Lemma ac3_loop_emptied (cw : Crossword) (fuel : nat) :
  forall (queue : list Arc) (d d' : Domains) (b : bool),
    ac3_loop cw fuel queue d = Ret (b, d') ->
    (b = false -> exists x, dict_get d' x = Some [])
    /\ (b = true -> forall v ws',
          dict_get d' v = Some ws' -> ws' = [] -> dict_get d v = Some []).
Proof.
  induction fuel as [|fuel IH]; intros [|[x y] queue] d d' b H; simpl in H;
    try discriminate.
  - inversion H; subst. split; [discriminate|]. intros _ v ws' Hv ->. exact Hv.
  - inversion H; subst. split; [discriminate|]. intros _ v ws' Hv ->. exact Hv.
  - bind_inv H as st Hrev. destruct st as [rev d1]. simpl in H.
    destruct (revise_spec _ _ _ _ _ _ Hrev)
      as (a0 & b0 & xs & xs' & _ & Hgx & -> & Hrevf & _ & _).
    destruct rev.
    + bind_inv H as dx Hdx. unfold dict_get_exn in Hdx.
      rewrite dict_get_set_eq in Hdx. inversion Hdx; subst dx.
      destruct xs' as [|w xs']; simpl in H.
      * inversion H; subst. split; [|discriminate].
        intros _. exists x. apply dict_get_set_eq.
      * apply IH in H. destruct H as [Hf Ht]. split; [assumption|].
        intros Hb v ws' Hv ->. specialize (Ht Hb v [] Hv eq_refl).
        destruct (Var.eq_dec x v) as [<-|Hneq].
        -- rewrite dict_get_set_eq in Ht. discriminate.
        -- now rewrite dict_get_set_neq in Ht.
    + rewrite (Hrevf eq_refl) in H. now apply IH in H.
Qed.

(** * Further properties of the solver *)

(** ** [revise] on an overlapping pair *)

(** X1 — What [revise] does when it returns: the slots of the store and
    every domain but that of [x] are as before; the domain of [x] keeps
    exactly its words that have, in the domain of [y], a word with the same
    character at the overlap; and the flag returned is [False] exactly
    when the store is unchanged. *)
Theorem revise_postcondition (cw : Crossword) (x y : Var.t) (d d' : Domains)
        (revised : bool) :
  revise cw x y d = Ret (revised, d') ->
  exists a b xs xs',
    overlaps cw x y = Some (a, b)
    /\ dict_get d x = Some xs
    /\ dict_get d' x = Some xs'
    /\ keys d' = keys d
    /\ (forall v, v <> x -> dict_get d' v = dict_get d v)
    /\ (forall w, In w xs' <->
          In w xs /\ exists ys w2 c,
                       dict_get d y = Some ys /\ In w2 ys
                       /\ String.get a w = Some c /\ String.get b w2 = Some c)
    /\ (revised = false <-> d' = d).
Proof.
  intros H.
  pose proof (revise_size _ _ _ _ _ _ H) as (Hkeys & _ & Hlt).
  destruct (revise_spec _ _ _ _ _ _ H)
    as (a & b & xs & xs' & Ho & Hgx & Hd' & Hrevf & Hkeep & Hstay).
  exists a, b, xs, xs'. subst d'.
  split; [assumption|]. split; [assumption|].
  split; [apply dict_get_set_eq|]. split; [assumption|].
  split; [intros v Hv; apply dict_get_set_neq; congruence|]. split.
  - intros w. split.
    + intros Hw. destruct (Hkeep w Hw) as (Hin & ys & Hys & Hm).
      split; [assumption|]. apply words_match_true in Hm.
      destruct Hm as (yw & c & Hyw & Hc & Hc'). exists ys, yw, c. auto.
    + intros (Hin & ys & w2 & c & Hys & Hw2 & Hc & Hc').
      apply (Hstay w ys Hin Hys). intros Hf.
      exact (words_match_false _ _ _ _ Hf w2 c Hw2 Hc Hc').
  - split; [assumption|]. intros Heq. destruct revised; [|reflexivity].
    specialize (Hlt eq_refl). rewrite Heq in Hlt. lia.
Qed.

Lemma revise_postcondition_witness :
  revise Fixtures.cross_sat Fixtures.across3 Fixtures.down4
         Fixtures.cross_two_words
  = Ret (true, [(Fixtures.across3, ["SIX"%string]);
                (Fixtures.down4, ["ASKS"%string])])
  /\ exists a b xs xs',
       overlaps Fixtures.cross_sat Fixtures.across3 Fixtures.down4 = Some (a, b)
       /\ dict_get Fixtures.cross_two_words Fixtures.across3 = Some xs
       /\ dict_get [(Fixtures.across3, ["SIX"%string]);
                    (Fixtures.down4, ["ASKS"%string])] Fixtures.across3
          = Some xs'.
Proof.
  split; [reflexivity|].
  destruct (revise_postcondition Fixtures.cross_sat Fixtures.across3
              Fixtures.down4 Fixtures.cross_two_words _ true eq_refl)
    as (a & b & xs & xs' & Ho & Hx & Hx' & _).
  exists a, b, xs, xs'. auto.
Defined.

(** X2 — [revise] against an empty domain: when the domain of [y] is empty
    no character is ever compared, so no word can be too short; every word
    of [x]'s domain is removed, and the flag says whether there was one. *)
Theorem revise_empty_neighbor (cw : Crossword) (x y : Var.t) (d : Domains)
        (a b : nat) (xs : list string) :
  overlaps cw x y = Some (a, b) ->
  dict_get d x = Some xs -> NoDup xs ->
  dict_get d y = Some [] ->
  revise cw x y d
  = Ret (match xs with [] => false | _ :: _ => true end, dict_set d x []).
Proof.
  intros Ho Hx Hnd Hy. unfold revise. rewrite Ho. unfold dict_get_exn at 1.
  rewrite Hx. simpl.
  set (body := fun (st : bool * Domains) (x_word : string) =>
                 let (revised, domains) := st in
                 ys <- dict_get_exn d y ;;
                 m <- words_match x_word a b ys ;;
                 if negb m
                 then domains' <- domains_remove domains x x_word ;;
                      Ret (true, domains')
                 else Ret (revised, domains)).
  assert (Hstep : forall w l dc rev,
             dict_get dc x = Some (w :: l) -> ~ In w l ->
             body (rev, dc) w = Ret (true, dict_set dc x l)).
  { intros w l dc rev Hdc Hnin. unfold body, dict_get_exn. rewrite Hy. simpl.
    rewrite (domains_remove_present dc x w (w :: l) Hdc) by now left.
    simpl. rewrite String.eqb_refl. simpl.
    now rewrite filter_remove_absent. }
  assert (Hloop : forall l dc rev,
             dict_get dc x = Some l -> NoDup l ->
             foldM body l (rev, dc)
             = Ret (match l with [] => rev | _ :: _ => true end,
                    dict_set dc x [])).
  { induction l as [|w l IH]; intros dc rev Hdc Hl.
    - simpl. now rewrite (dict_set_same dc x []).
    - inversion Hl as [|? ? Hnin Hl']; subst.
      change (foldM body (w :: l) (rev, dc))
        with (bind (body (rev, dc) w) (fun s' => foldM body l s')).
      rewrite (Hstep w l dc rev Hdc Hnin).
      change (bind (Ret (true, dict_set dc x l)) (fun s' => foldM body l s'))
        with (foldM body l (true, dict_set dc x l)).
      rewrite (IH (dict_set dc x l) true (dict_get_set_eq dc x l) Hl').
      rewrite dict_set_set. destruct l; reflexivity. }
  exact (Hloop xs d false Hx Hnd).
Qed.

Lemma revise_empty_neighbor_witness :
  revise Fixtures.cross_sat Fixtures.across3 Fixtures.down4
         Fixtures.cross_no_down
  = Ret (true, [(Fixtures.across3, []); (Fixtures.down4, [])]).
Proof.
  apply (revise_empty_neighbor Fixtures.cross_sat Fixtures.across3
           Fixtures.down4 Fixtures.cross_no_down 0 1
           ["SIX"%string; "TEN"%string]).
  - reflexivity.
  - reflexivity.
  - repeat constructor; simpl; intuition discriminate.
  - reflexivity.
Defined.

(** ** [ac3] without an arc list *)

(** X3 — Arc consistency on success: on a well-formed puzzle, when [ac3]
    returns [True] from a store on the puzzle's slots, every word of every
    domain has a supporting word in the domain of each neighbor. *)
Theorem ac3_arc_consistent_on_true (cw : Crossword) (d d' : Domains) :
  well_formed cw = true ->
  keys d = variables cw ->
  ac3 cw None d = Ret (true, d') ->
  arc_consistent cw d'.
Proof. intros Hwf Hkeys H. exact (ac3_true_arc_consistent cw Hwf d d' Hkeys H). Qed.

Lemma ac3_arc_consistent_on_true_witness :
  ac3 Fixtures.cross_sat None Fixtures.cross_two_words
  = Ret (true, [(Fixtures.across3, ["SIX"%string]);
                (Fixtures.down4, ["ASKS"%string])])
  /\ arc_consistent Fixtures.cross_sat
       [(Fixtures.across3, ["SIX"%string]); (Fixtures.down4, ["ASKS"%string])].
Proof.
  split; [reflexivity|].
  apply (ac3_arc_consistent_on_true Fixtures.cross_sat Fixtures.cross_two_words);
    reflexivity.
Defined.

(** X4 — The flag of [ac3]: [False] comes with a store in which some
    domain is empty; [True] comes with a store in which the only empty
    domains are those that were empty at the call. *)
Theorem ac3_flag (cw : Crossword) (d d' : Domains) (b : bool) :
  ac3 cw None d = Ret (b, d') ->
  (b = false -> exists x, dict_get d' x = Some [])
  /\ (b = true -> forall v, dict_get d' v = Some [] -> dict_get d v = Some []).
Proof.
  unfold ac3, ac3_fuel. simpl. intros H.
  apply ac3_loop_emptied in H. destruct H as [Hf Ht].
  split; [assumption|]. intros Hb v Hv. exact (Ht Hb v [] Hv eq_refl).
Qed.

Lemma ac3_flag_witness :
  ac3 Fixtures.cross_unsat None Fixtures.cross_unsat_node
  = Ret (false, Fixtures.cross_unsat_ac3)
  /\ exists x, dict_get Fixtures.cross_unsat_ac3 x = Some [].
Proof.
  split; [reflexivity|].
  apply (proj1 (ac3_flag Fixtures.cross_unsat Fixtures.cross_unsat_node
                  Fixtures.cross_unsat_ac3 false eq_refl)).
  reflexivity.
Defined.

Lemma ac3_loop_shrinks (cw : Crossword) (fuel : nat) :
  forall (queue : list Arc) (d d' : Domains) (b : bool),
    ac3_loop cw fuel queue d = Ret (b, d') ->
    forall v ws', dict_get d' v = Some ws' ->
                  exists ws, dict_get d v = Some ws /\ incl ws' ws.
Proof.
  induction fuel as [|fuel IH]; intros [|[x y] queue] d d' b H; simpl in H;
    try discriminate;
    try (inversion H; subst; intros v ws' Hv; exists ws'; split;
         [assumption | apply incl_refl]).
  bind_inv H as st Hrev. destruct st as [rev d1]. simpl in H.
  destruct (revise_spec _ _ _ _ _ _ Hrev)
    as (a0 & b0 & xs & xs' & _ & Hgx & -> & _ & Hkeep & _).
  assert (Hone : forall v ws1, dict_get (dict_set d x xs') v = Some ws1 ->
                               exists ws, dict_get d v = Some ws /\ incl ws1 ws).
  { intros v ws1 Hv. destruct (Var.eq_dec x v) as [<-|Hneq].
    - rewrite dict_get_set_eq in Hv. inversion Hv; subst ws1.
      exists xs. split; [assumption|]. intros w Hw. now apply Hkeep.
    - rewrite dict_get_set_neq in Hv by assumption.
      exists ws1. split; [assumption | apply incl_refl]. }
  assert (Hrest : forall q,
             ac3_loop cw fuel q (dict_set d x xs') = Ret (b, d') ->
             forall v ws', dict_get d' v = Some ws' ->
                           exists ws, dict_get d v = Some ws /\ incl ws' ws).
  { intros q Hq v ws' Hv. destruct (IH _ _ _ _ Hq v ws' Hv) as (ws1 & H1 & Hi1).
    destruct (Hone v ws1 H1) as (ws & H0 & Hi0).
    exists ws. split; [assumption|]. eapply incl_tran; eassumption. }
  destruct rev.
  - bind_inv H as dx Hdx. destruct (List.length dx =? 0).
    + inversion H; subst. exact Hone.
    + eapply Hrest; eassumption.
  - eapply Hrest; eassumption.
Qed.

(** X5 — [ac3] only shrinks: whatever it returns, the store has the same
    slots as before and every domain is a part of what it was. *)
Theorem ac3_only_shrinks (cw : Crossword) (arcs : option (list Arc))
        (d d' : Domains) (b : bool) :
  ac3 cw arcs d = Ret (b, d') ->
  keys d' = keys d
  /\ forall v ws', dict_get d' v = Some ws' ->
                   exists ws, dict_get d v = Some ws /\ incl ws' ws.
Proof.
  intros H. split; [eapply ac3_keys; eassumption|].
  unfold ac3, ac3_fuel in H. destruct (not_arcs arcs); [|discriminate].
  eapply ac3_loop_shrinks; eassumption.
Qed.

Lemma ac3_only_shrinks_witness :
  keys [(Fixtures.across3, ["SIX"%string]); (Fixtures.down4, ["ASKS"%string])]
  = keys Fixtures.cross_two_words
  /\ exists ws,
       dict_get Fixtures.cross_two_words Fixtures.across3 = Some ws
       /\ incl ["SIX"%string] ws.
Proof.
  destruct (ac3_only_shrinks Fixtures.cross_sat None Fixtures.cross_two_words
              Fixtures.cross_sat_ac3 true eq_refl) as [Hk Hs].
  split; [exact Hk|]. exact (Hs Fixtures.across3 ["SIX"%string] eq_refl).
Defined.

(** X6 — The [while] loop of [ac3] ends: from any queue and store it makes
    at most [len(queue) + (total number of words in the domains) *
    (number of slots + 1)] iterations, so any larger allowance gives the
    same outcome as that one. *)
Theorem ac3_loop_iteration_bound (cw : Crossword) (queue : list Arc)
        (d : Domains) (fuel : nat) :
  ac3_bound cw queue d <= fuel ->
  ac3_loop cw (ac3_bound cw queue d) queue d <> OutOfFuel
  /\ ac3_loop cw fuel queue d = ac3_loop cw (ac3_bound cw queue d) queue d.
Proof.
  intros Hle.
  assert (H : ac3_loop cw (ac3_bound cw queue d) queue d <> OutOfFuel)
    by (apply ac3_loop_terminates; lia).
  split; [assumption|]. now apply ac3_loop_more_fuel.
Qed.

Lemma ac3_loop_iteration_bound_witness :
  ac3_loop Fixtures.cross_sat 100
           [(Fixtures.across3, Fixtures.down4); (Fixtures.down4, Fixtures.across3)]
           Fixtures.cross_two_words
  = ac3_loop Fixtures.cross_sat
             (ac3_bound Fixtures.cross_sat
                [(Fixtures.across3, Fixtures.down4);
                 (Fixtures.down4, Fixtures.across3)]
                Fixtures.cross_two_words)
             [(Fixtures.across3, Fixtures.down4); (Fixtures.down4, Fixtures.across3)]
             Fixtures.cross_two_words.
Proof.
  apply (ac3_loop_iteration_bound Fixtures.cross_sat
           [(Fixtures.across3, Fixtures.down4); (Fixtures.down4, Fixtures.across3)]
           Fixtures.cross_two_words 100).
  vm_compute. repeat constructor.
Defined.

(** X7 — Propagation keeps the solutions: after [__init__], node
    consistency and AC-3, the word that a complete consistent assignment
    of vocabulary words gives to a slot is still in that slot's domain. *)
Theorem propagation_keeps_solutions (cw : Crossword) (s : Assignment)
        (d1 d2 : Domains) (b : bool) :
  complete_consistent cw s ->
  enforce_node_consistency (init_domains cw) = Ret d1 ->
  ac3 cw None d1 = Ret (b, d2) ->
  forall v, In v (variables cw) ->
            exists w ws, dict_get s v = Some w
                         /\ dict_get d2 v = Some ws /\ In w ws.
Proof.
  intros Hsol Hd1 Hac v Hv.
  pose proof (offers_enforce cw s Hsol _ _ (offers_init cw s Hsol) Hd1) as Hoff1.
  pose proof (enforce_node_consistency_keys _ _ Hd1) as Hk1.
  rewrite init_domains_keys in Hk1.
  pose proof (offers_ac3 cw s Hsol _ _ _ Hk1 Hoff1 Hac) as Hoff2.
  apply ac3_keys in Hac.
  destruct (solution_word cw s Hsol v Hv) as [w Hw].
  assert (Hin : In v (keys d2)) by congruence.
  apply dict_get_In_keys in Hin. destruct Hin as [ws Hws].
  exists w, ws. split; [assumption|]. split; [assumption|].
  eapply Hoff2; eassumption.
Qed.

Lemma complete_consistent_check (cw : Crossword) (s : Assignment) :
  distinct_vars (keys s) = true ->
  forallb (fun v => match dict_get s v with
                    | Some w => word_in w (words cw)
                    | None => false
                    end) (variables cw) = true ->
  consistent cw s = Ret true ->
  complete_consistent cw s.
Proof.
  intros Hk Hall Hc. split; [now apply distinct_vars_NoDup|]. split.
  - intros v Hv. rewrite forallb_forall in Hall. specialize (Hall v Hv).
    destruct (dict_get s v) as [w|]; [|discriminate].
    exists w. split; [reflexivity | now apply word_in_In].
  - now apply consistent_iff.
Qed.

Lemma propagation_keeps_solutions_witness :
  exists w ws,
    dict_get Fixtures.cross_sat_solution Fixtures.down4 = Some w
    /\ dict_get Fixtures.cross_sat_ac3 Fixtures.down4 = Some ws /\ In w ws.
Proof.
  apply (propagation_keeps_solutions Fixtures.cross_sat
           Fixtures.cross_sat_solution
           [(Fixtures.across3, ["SIX"%string]);
            (Fixtures.down4, ["NINE"%string; "FIVE"%string; "ASKS"%string])]
           Fixtures.cross_sat_ac3 true).
  - apply complete_consistent_check; reflexivity.
  - reflexivity.
  - reflexivity.
  - simpl. auto.
Defined.

(** ** Node consistency, again *)

Lemma dict_ext {V : Type} (d1 : dict V) :
  forall d2 : dict V,
    keys d1 = keys d2 -> NoDup (keys d1) ->
    (forall k, In k (keys d1) -> dict_get d1 k = dict_get d2 k) ->
    d1 = d2.
Proof.
  induction d1 as [|[k v] d1 IH]; intros [|[k2 v2] d2] Hk Hnd Hget;
    simpl in Hk; try discriminate; [reflexivity|].
  inversion Hk; subst k2. inversion Hnd as [|? ? Hnin Hnd']; subst.
  pose proof (Hget k (or_introl eq_refl)) as Hv. simpl in Hv.
  rewrite Var_eqb_refl in Hv. inversion Hv; subst v2.
  f_equal. apply IH; auto.
  intros k' Hk'. specialize (Hget k' (or_intror Hk')). simpl in Hget.
  destruct (Var_eqb_spec k k') as [->|]; [contradiction | assumption].
Qed.

Lemma fitting_fitting (v : Var.t) (ws : list string) :
  fitting v (fitting v ws) = fitting v ws.
Proof.
  unfold fitting. induction ws as [|w ws IH]; simpl; [reflexivity|].
  destruct (String.length w =? Var.length v) eqn:E; simpl; [|assumption].
  now rewrite E, IH.
Qed.

(** X8 — Node consistency is idempotent: run on the store it has produced,
    [enforce_node_consistency] returns that very store. *)
Theorem enforce_node_consistency_idempotent (d d' : Domains) :
  domains_ok d = true ->
  enforce_node_consistency d = Ret d' ->
  enforce_node_consistency d' = Ret d'.
Proof.
  intros Hok Hrun.
  destruct (enforce_node_consistency_exact d Hok) as (d0 & Hrun0 & Hk0 & Hget0).
  rewrite Hrun in Hrun0. inversion Hrun0; subst d0. clear Hrun0.
  pose proof (proj1 (domains_ok_spec d) Hok) as [Hnd Hsets].
  assert (Hfit : forall v ws', dict_get d' v = Some ws' ->
                               exists ws, dict_get d v = Some ws
                                          /\ ws' = fitting v ws).
  { intros v ws' Hv.
    assert (Hin : In v (keys d)) by (rewrite <- Hk0; apply dict_get_In_keys; eauto).
    apply dict_get_In_keys in Hin. destruct Hin as [ws Hws].
    exists ws. split; [assumption|]. rewrite (Hget0 v ws Hws) in Hv. congruence. }
  assert (Hok' : domains_ok d' = true).
  { apply domains_ok_spec. split; [congruence|].
    intros v ws' Hv. destruct (Hfit v ws' Hv) as (ws & Hws & ->).
    unfold fitting. apply NoDup_filter. eauto. }
  destruct (enforce_node_consistency_exact d' Hok') as (d2 & Hrun2 & Hk2 & Hget2).
  rewrite Hrun2. f_equal. apply dict_ext; [assumption|congruence|].
  intros k Hk. rewrite Hk2 in Hk. apply dict_get_In_keys in Hk.
  destruct Hk as [ws' Hws']. rewrite Hws', (Hget2 k ws' Hws').
  destruct (Hfit k ws' Hws') as (ws & _ & ->). now rewrite fitting_fitting.
Qed.

Lemma enforce_node_consistency_idempotent_witness :
  enforce_node_consistency Fixtures.cross_unsat_node
  = Ret Fixtures.cross_unsat_node.
Proof.
  apply (enforce_node_consistency_idempotent (init_domains Fixtures.cross_unsat));
    reflexivity.
Defined.



(** ** The consistency check, again *)

(** X10 — [consistent] returns [True] exactly on the assignments whose
    words are pairwise distinct, each of the length of its slot, and such
    that every two assigned neighboring slots have a table entry and carry
    the same character at its two offsets. *)
Theorem consistent_true_iff_conditions (cw : Crossword) (a : Assignment) :
  consistent cw a = Ret true <-> consistent_conditions cw a.
Proof. apply consistent_iff. Qed.

(** X11 — Consistency is inherited by parts: when [consistent] accepts an
    assignment it accepts every dict that holds some of its entries. *)
Theorem consistent_part_of (cw : Crossword) (a s : Assignment) :
  consistent cw s = Ret true ->
  NoDup (keys a) -> part_of a s ->
  consistent cw a = Ret true.
Proof.
  intros Hs Hnd Hpart. apply consistent_iff in Hs.
  eapply part_of_consistent; eassumption.
Qed.

Lemma consistent_part_of_witness :
  consistent Fixtures.cross_sat [(Fixtures.down4, "ASKS"%string)] = Ret true.
Proof.
  apply (consistent_part_of Fixtures.cross_sat [(Fixtures.down4, "ASKS"%string)]
           Fixtures.cross_sat_solution).
  - reflexivity.
  - repeat constructor. intros [].
  - intros v w. simpl.
    destruct (Var.eqb Fixtures.down4 v) eqn:E; [|discriminate].
    apply Var_eqb_eq in E. subst v. intros H. exact H.
Defined.

Lemma forallM_total {A : Type} (f : A -> res bool) (l : list A) :
  (forall x, In x l -> exists b, f x = Ret b) -> exists b, forallM f l = Ret b.
Proof.
  induction l as [|x l IH]; simpl; intros H; [eauto|].
  destruct (H x (or_introl eq_refl)) as [b Hb]. rewrite Hb. simpl.
  destruct b; [apply IH; auto | eauto].
Qed.

Lemma forallM_false {A : Type} (f : A -> res bool) (l : list A) :
  (forall x, In x l -> exists b, f x = Ret b) ->
  (exists x, In x l /\ f x = Ret false) ->
  forallM f l = Ret false.
Proof.
  intros Htot (x & Hx & Hf). destruct (forallM_total f l Htot) as [[|] Hb];
    [|assumption].
  apply (proj1 (forallM_true f l)) with (a := x) in Hb; [congruence | assumption].
Qed.

(** X12 — The cheap tests come first: when a word is used twice, or some
    word has not the length of its slot, [consistent] returns [False]
    before it reads the overlap table or any character, hence without
    raising, whatever the table and the words are. *)
Theorem consistent_rejects_early (cw : Crossword) (a : Assignment) :
  (~ NoDup (values a)
   \/ exists v w, dict_get a v = Some w /\ Var.length v <> String.length w) ->
  consistent cw a = Ret false.
Proof.
  intros H. unfold consistent.
  destruct (Nat.eqb_spec (List.length (values a))
                         (List.length (nodup string_dec (values a)))) as [Hl|Hl];
    simpl; [|reflexivity].
  apply nodup_length_NoDup in Hl.
  destruct H as [H|(v & w & Hget & Hlen)]; [contradiction|].
  rewrite forallM_false; [reflexivity| |].
  - intros x Hx. apply dict_get_In_keys in Hx. destruct Hx as [wx Hwx].
    unfold dict_get_exn. rewrite Hwx. simpl. eauto.
  - exists v. split; [apply dict_get_In_keys; eauto|].
    unfold dict_get_exn. rewrite Hget. simpl.
    apply Nat.eqb_neq in Hlen. now rewrite Hlen.
Qed.

Lemma consistent_rejects_early_witness :
  consistent Fixtures.cross_sat
             [(Fixtures.across3, "NINE"%string); (Fixtures.down4, "ASKS"%string)]
  = Ret false.
Proof.
  apply consistent_rejects_early. right.
  exists Fixtures.across3, "NINE"%string. split; [reflexivity|].
  simpl. discriminate.
Defined.

Lemma string_get_in_range (k : nat) (s : string) :
  k < String.length s -> exists c, String.get k s = Some c.
Proof.
  revert k. induction s as [|c s IH]; simpl; intros k Hk; [lia|].
  destruct k as [|k]; [eauto|]. apply IH. lia.
Qed.

Lemma offsets_in_range_spec (cw : Crossword) (x y : Var.t) (a b : nat) :
  offsets_in_range cw = true ->
  In x (variables cw) -> In y (variables cw) ->
  overlaps cw x y = Some (a, b) ->
  a < Var.length x /\ b < Var.length y.
Proof.
  unfold offsets_in_range. rewrite forallb_forall. intros H Hx Hy Ho.
  specialize (H x Hx). rewrite forallb_forall in H. specialize (H y Hy).
  rewrite Ho in H. apply andb_true_iff in H. now rewrite !Nat.ltb_lt in H.
Qed.

Lemma consistent_total (cw : Crossword) (a : Assignment) :
  well_formed cw = true ->
  offsets_in_range cw = true ->
  incl (keys a) (variables cw) ->
  exists b, consistent cw a = Ret b.
Proof.
  intros Hwf Hrange Hincl. unfold consistent.
  destruct (negb _); [eauto|].
  match goal with |- exists b, bind ?m _ = _ =>
    assert (Hlen : exists b, m = Ret b) end.
  { apply forallM_total. intros v Hv. apply dict_get_In_keys in Hv.
    destruct Hv as [w Hw]. unfold dict_get_exn. rewrite Hw. simpl. eauto. }
  destruct Hlen as [b1 Hb1]. rewrite Hb1. simpl.
  destruct b1; simpl; [|eauto].
  assert (Hfit : forall v w, dict_get a v = Some w ->
                             Var.length v = String.length w).
  { intros v w Hw.
    assert (Hv : In v (keys a)) by (apply dict_get_In_keys; eauto).
    apply (proj1 (forallM_true _ _) Hb1) in Hv.
    unfold dict_get_exn in Hv. rewrite Hw in Hv. simpl in Hv.
    inversion Hv as [Heq]. now apply Nat.eqb_eq in Heq. }
  apply forallM_total. intros v Hv. apply forallM_total. intros n Hn.
  destruct (dict_mem a n) eqn:Hna; [|eauto].
  apply dict_mem_In_keys in Hna.
  assert (Hvv : In v (variables cw)) by auto.
  assert (Hnv : In n (variables cw)) by auto.
  destruct (neighbors_sym cw v n Hwf Hvv Hn) as (_ & x & y & Ho & _).
  rewrite Ho.
  destruct (offsets_in_range_spec cw v n x y Hrange Hvv Hnv Ho) as [Hx Hy].
  apply dict_get_In_keys in Hv, Hna.
  destruct Hv as [wv Hwv], Hna as [wn Hwn].
  rewrite (Hfit v wv Hwv) in Hx. rewrite (Hfit n wn Hwn) in Hy.
  destruct (string_get_in_range _ _ Hx) as [cv Hcv].
  destruct (string_get_in_range _ _ Hy) as [cn Hcn].
  unfold dict_get_exn, str_index.
  rewrite Hwv; simpl. rewrite Hcv; simpl. rewrite Hwn; simpl. rewrite Hcn; simpl.
  eauto.
Qed.

(** X13 — [consistent] does not raise on a sound geometry: when the overlap
    table is symmetric and its offsets lie inside the slots, [consistent]
    returns [True] or [False] on every assignment over slots of the
    puzzle, whatever the words are. *)
Theorem consistent_returns (cw : Crossword) (a : Assignment) :
  well_formed cw = true ->
  offsets_in_range cw = true ->
  incl (keys a) (variables cw) ->
  exists b, consistent cw a = Ret b.
Proof. apply consistent_total. Qed.

Lemma consistent_returns_witness :
  exists b,
    consistent Fixtures.cross_sat
               [(Fixtures.down4, "NINE"%string); (Fixtures.across3, "SIX"%string)]
    = Ret b.
Proof.
  apply consistent_returns; [reflexivity | reflexivity |].
  intros v [<-|[<-|[]]]; simpl; auto.
Defined.

(** ** [select_unassigned_variable], again *)

(** X14 — What [select_unassigned_variable] returns: a slot of the store
    that the assignment leaves open and whose domain is not larger than
    that of any other open slot; and it raises [IndexError] exactly when
    the assignment leaves no slot of the store open. *)
Theorem select_unassigned_variable_smallest (d : Domains) (a : Assignment) :
  (forall v, select_unassigned_variable d a = Ret v ->
             dict_mem a v = false
             /\ exists ws, dict_get d v = Some ws
                  /\ forall u wu, dict_mem a u = false ->
                                  dict_get d u = Some wu ->
                                  List.length ws <= List.length wu)
  /\ (select_unassigned_variable d a = Exn IndexError <->
      forall u, In u (keys d) -> dict_mem a u = true).
Proof.
  split; [intros v; apply select_unassigned_variable_spec|]. split.
  - intros H u Hu. destruct (dict_mem a u) eqn:Hm; [reflexivity|].
    destruct (select_unassigned_variable_exists d a u Hu Hm) as [v Hv].
    congruence.
  - intros Hall.
    destruct (select_unassigned_variable d a) as [v| |] eqn:Hsel.
    + apply select_unassigned_variable_spec in Hsel.
      destruct Hsel as (Hv & ws & Hws & _).
      assert (Hin : In v (keys d)) by (apply dict_get_In_keys; eauto).
      rewrite (Hall v Hin) in Hv. discriminate.
    + unfold select_unassigned_variable in Hsel.
      destruct (map fst _); [congruence | discriminate].
    + unfold select_unassigned_variable in Hsel.
      destruct (map fst _); discriminate.
Qed.

Lemma sorted_head_first_min {A : Type} (key : A -> nat) (l : list A) :
  forall h t,
    sorted key l = h :: t ->
    exists pre post,
      l = pre ++ h :: post
      /\ (forall x, In x pre -> key h < key x)
      /\ (forall x, In x post -> key h <= key x).
Proof.
  induction l as [|a l IH]; simpl; intros h t H; [discriminate|].
  destruct (sorted key l) as [|h' t'] eqn:Hs.
  - apply sorted_nil in Hs. subst l. simpl in H. inversion H; subst.
    exists [], []. repeat split; intros x [].
  - destruct (IH h' t' eq_refl) as (pre & post & Hl & Hpre & Hpost).
    simpl in H. destruct (Nat.leb_spec (key a) (key h')) as [Hle|Hlt].
    + inversion H; subst h t. exists [], l. split; [reflexivity|].
      split; [intros x []|]. intros x Hx. rewrite Hl in Hx.
      apply in_app_or in Hx. destruct Hx as [Hx|[<-|Hx]].
      * specialize (Hpre x Hx). lia.
      * assumption.
      * specialize (Hpost x Hx). lia.
    + inversion H; subst h t. exists (a :: pre), post.
      split; [simpl; congruence|]. split; [|assumption].
      intros x [<-|Hx]; [assumption | auto].
Qed.

Lemma filter_split {A : Type} (f : A -> bool) (l : list A) :
  forall p x q,
    filter f l = p ++ x :: q ->
    exists p' q', l = p' ++ x :: q' /\ filter f p' = p /\ filter f q' = q.
Proof.
  induction l as [|a l IH]; simpl; intros p x q H.
  - destruct p; discriminate.
  - destruct (f a) eqn:Hfa.
    + destruct p as [|b p]; simpl in H; injection H as Hab Hrest.
      * subst a. exists [], l. auto.
      * subst b. destruct (IH p x q Hrest) as (p' & q' & -> & Hp & Hq).
        exists (a :: p'), q'. simpl. rewrite Hfa, Hp. auto.
    + destruct (IH p x q H) as (p' & q' & -> & Hp & Hq).
      exists (a :: p'), q'. simpl. rewrite Hfa. auto.
Qed.

Lemma choice_dict_filter (d : Domains) (a : Assignment) :
  NoDup (keys d) ->
  choice_dict d a = filter (fun item => negb (dict_mem a (fst item))) d.
Proof.
  intros Hnd. unfold choice_dict.
  assert (H : forall l acc,
             NoDup (keys l) ->
             (forall k v, In (k, v) l ->
                          dict_get d k = Some v /\ ~ In k (keys acc)) ->
             fold_left
               (fun choice variable =>
                  if negb (dict_mem a variable)
                  then match dict_get d variable with
                       | Some ws => dict_set choice variable ws
                       | None => choice
                       end
                  else choice) (keys l) acc
             = acc ++ filter (fun item => negb (dict_mem a (fst item))) l).
  { induction l as [|[k v] l IH]; intros acc Hl Hinv; simpl.
    - now rewrite app_nil_r.
    - inversion Hl as [|? ? Hnin Hl']; subst.
      destruct (Hinv k v (or_introl eq_refl)) as [Hget Hacc].
      destruct (dict_mem a k); simpl.
      + apply IH; [assumption|]. intros k' v' Hin. apply Hinv. now right.
      + rewrite Hget, dict_set_new by assumption.
        rewrite IH; [now rewrite <- app_assoc|assumption|].
        intros k' v' Hin. destruct (Hinv k' v' (or_intror Hin)) as [Hg Hn].
        split; [assumption|]. unfold keys. rewrite map_app. simpl.
        intros Hk. apply in_app_or in Hk. destruct Hk as [Hk|[<-|[]]];
          [contradiction|].
        apply Hnin. change k with (fst (k, v')). now apply in_map. }
  rewrite (H d []); [reflexivity|assumption|].
  intros k v Hin. split; [now apply In_dict_get | intros []].
Qed.

(** X15 — Ties go to the first slot of the store: among the open slots with
    the fewest words, [select_unassigned_variable] returns the one that the
    store lists first; every open slot listed before it has strictly more
    words. The degree plays no part. *)
Theorem select_unassigned_variable_first (d : Domains) (a : Assignment)
        (v : Var.t) :
  NoDup (keys d) ->
  select_unassigned_variable d a = Ret v ->
  exists pre ws post,
    d = pre ++ (v, ws) :: post
    /\ forall u wu, In (u, wu) pre -> dict_mem a u = false ->
                    List.length ws < List.length wu.
Proof.
  intros Hnd H. unfold select_unassigned_variable in H.
  destruct (sorted _ (choice_dict d a)) as [|[h hs] t] eqn:Hs; simpl in H;
    [discriminate|].
  inversion H; subst h. clear H.
  apply sorted_head_first_min in Hs.
  destruct Hs as (pre & post & Hl & Hpre & _).
  rewrite choice_dict_filter in Hl by assumption.
  apply filter_split in Hl. destruct Hl as (p' & q' & Hd & Hp & _).
  exists p', hs, q'. split; [assumption|].
  intros u wu Hin Hopen.
  apply (Hpre (u, wu)). rewrite <- Hp. apply filter_In. simpl.
  now rewrite Hopen.
Qed.

Lemma select_unassigned_variable_first_witness :
  select_unassigned_variable Fixtures.arch_open_tie Fixtures.arch_left_assigned
  = Ret Fixtures.top
  /\ exists pre ws post,
       Fixtures.arch_open_tie = pre ++ (Fixtures.top, ws) :: post.
Proof.
  split; [reflexivity|].
  destruct (select_unassigned_variable_first Fixtures.arch_open_tie
              Fixtures.arch_left_assigned Fixtures.top)
    as (pre & ws & post & Hd & _).
  - apply distinct_vars_NoDup. reflexivity.
  - reflexivity.
  - exists pre, ws, post. exact Hd.
Defined.

(** ** [order_domain_values] *)

Lemma insert_by_perm {A : Type} (key : A -> nat) (x : A) (l : list A) :
  Permutation (insert_by key x l) (x :: l).
Proof.
  induction l as [|y l IH]; simpl; [apply Permutation_refl|].
  destruct (key x <=? key y); [apply Permutation_refl|].
  eapply Permutation_trans; [apply perm_skip; exact IH | apply perm_swap].
Qed.

Lemma sorted_perm {A : Type} (key : A -> nat) (l : list A) :
  Permutation (sorted key l) l.
Proof.
  induction l as [|x l IH]; simpl; [apply Permutation_refl|].
  eapply Permutation_trans; [apply insert_by_perm | now apply perm_skip].
Qed.

Lemma sorted_map_key {A : Type} (c : A -> nat) (l : list A) :
  sorted snd (map (fun w => (w, c w)) l) = map (fun w => (w, c w)) (sorted c l).
Proof.
  induction l as [|x l IH]; simpl; [reflexivity|].
  rewrite IH. generalize (sorted c l). intros s.
  induction s as [|y s IHs]; simpl; [reflexivity|].
  destruct (c x <=? c y); simpl; [reflexivity | now rewrite IHs].
Qed.

Lemma sorted_all_equal {A : Type} (key : A -> nat) (l : list A) (n : nat) :
  (forall x, In x l -> key x = n) -> sorted key l = l.
Proof.
  induction l as [|x l IH]; simpl; intros H; [reflexivity|].
  rewrite IH by auto. destruct l as [|y l]; simpl; [reflexivity|].
  rewrite (H x (or_introl eq_refl)), (H y (or_intror (or_introl eq_refl))).
  now rewrite Nat.leb_refl.
Qed.

Lemma count_set_new (words : list (string * nat)) (word : string) (n : nat) :
  ~ In word (map fst words) -> count_set words word n = words ++ [(word, n)].
Proof.
  induction words as [|[w m] words IH]; simpl; intros Hnin; [reflexivity|].
  destruct (String.eqb_spec w word) as [->|]; [exfalso; auto|].
  rewrite IH; auto.
Qed.

Lemma count_set_rebuild (l : list (string * nat)) :
  forall acc,
    NoDup (map fst (acc ++ l)) ->
    fold_left (fun d item => count_set d (fst item) (snd item)) l acc = acc ++ l.
Proof.
  induction l as [|[w n] l IH]; intros acc Hnd; simpl.
  - now rewrite app_nil_r.
  - rewrite count_set_new.
    + rewrite IH; rewrite <- app_assoc; [reflexivity | exact Hnd].
    + rewrite map_app in Hnd. simpl in Hnd. apply NoDup_remove_2 in Hnd.
      intros Hin. apply Hnd. apply in_or_app. now left.
Qed.

Section OrderDomainValues.
Context (cw : Crossword) (var : Var.t) (a : Assignment) (d : Domains).

Lemma order_words_loop (c : string -> nat) (l : list string) :
  forall acc,
    NoDup l -> (forall w, In w l -> ~ In w (map fst acc)) ->
    (forall w, In w l -> eliminated cw var a d w = Ret (c w)) ->
    foldM (fun words word =>
             eliminated_words <- eliminated cw var a d word ;;
             Ret (count_set words word eliminated_words)) l acc
    = Ret (acc ++ map (fun w => (w, c w)) l).
Proof.
  induction l as [|w l IH]; intros acc Hnd Hfresh Hc; simpl.
  - now rewrite app_nil_r.
  - rewrite (Hc w (or_introl eq_refl)). simpl.
    rewrite count_set_new by (apply Hfresh; now left).
    inversion Hnd as [|? ? Hnin Hnd']; subst.
    rewrite IH; [now rewrite <- app_assoc|assumption| |].
    + intros w' Hw'. rewrite map_app. simpl. intros Hin.
      apply in_app_or in Hin. destruct Hin as [Hin|[<-|[]]]; [|contradiction].
      apply (Hfresh w' (or_intror Hw')). assumption.
    + intros w' Hw'. apply Hc. now right.
Qed.

Lemma order_domain_values_compute (c : string -> nat) (dv : list string) :
  dict_get d var = Some dv -> NoDup dv ->
  (forall w, In w dv -> eliminated cw var a d w = Ret (c w)) ->
  order_domain_values cw var a d = Ret (sorted c dv).
Proof.
  intros Hdv Hnd Hc. unfold order_domain_values, dict_get_exn. rewrite Hdv.
  cbn [bind].
  change (foldM _ dv [])
    with (foldM (fun words word =>
                   eliminated_words <- eliminated cw var a d word ;;
                   Ret (count_set words word eliminated_words)) dv []).
  rewrite (order_words_loop c dv [] Hnd (fun _ _ H => H) Hc). cbn [bind app].
  rewrite sorted_map_key, count_set_rebuild.
  - simpl. rewrite map_map. simpl. now rewrite map_id.
  - simpl. rewrite map_map. simpl. rewrite map_id.
    eapply Permutation_NoDup; [|exact Hnd].
    apply Permutation_sym, sorted_perm.
Qed.

Lemma order_words_all_ret (l : list string) :
  forall acc words,
    foldM (fun words word =>
             eliminated_words <- eliminated cw var a d word ;;
             Ret (count_set words word eliminated_words)) l acc = Ret words ->
    forall w, In w l -> exists n, eliminated cw var a d w = Ret n.
Proof.
  induction l as [|w0 l IH]; simpl; intros acc words H w Hw; [destruct Hw|].
  bind_inv H as acc1 Hstep. bind_inv Hstep as n Hn.
  destruct Hw as [<-|Hw]; [eauto|]. eapply IH; eassumption.
Qed.

End OrderDomainValues.

Lemma eliminated_inner (x y : nat) (word : string) (dn : list string) :
  forall e0 n,
    foldM (fun eliminated_words neighbor_word =>
             c <- str_index word x ;;
             c' <- str_index neighbor_word y ;;
             Ret (if negb (Ascii.eqb c c')
                  then S eliminated_words
                  else eliminated_words)) dn e0 = Ret n ->
    n = e0 + List.length (filter (differ x y word) dn).
Proof.
  induction dn as [|nw dn IH]; simpl; intros e0 n H.
  - inversion H; subst. lia.
  - bind_inv H as e1 Hstep. unfold str_index in Hstep. unfold differ at 1.
    destruct (String.get x word) as [c|]; simpl in Hstep; [|discriminate].
    destruct (String.get y nw) as [c'|]; simpl in Hstep; [|discriminate].
    inversion Hstep; subst e1. apply IH in H.
    destruct (negb (Ascii.eqb c c')); simpl; lia.
Qed.

Lemma eliminated_conflicts (cw : Crossword) (var : Var.t) (a : Assignment)
      (d : Domains) (word : string) (n : nat) :
  eliminated cw var a d word = Ret n -> n = conflicts cw var a d word.
Proof.
  unfold eliminated, conflicts.
  assert (H : forall nbs e0 n,
             foldM (fun eliminated_words neighbor =>
                      if dict_mem a neighbor then Ret eliminated_words
                      else
                        match overlaps cw var neighbor with
                        | None => Exn TypeError
                        | Some (x_overlap, y_overlap) =>
                            dn <- dict_get_exn d neighbor ;;
                            foldM (fun eliminated_words neighbor_word =>
                                     c <- str_index word x_overlap ;;
                                     c' <- str_index neighbor_word y_overlap ;;
                                     Ret (if negb (Ascii.eqb c c')
                                          then S eliminated_words
                                          else eliminated_words))
                                  dn eliminated_words
                        end) nbs e0 = Ret n ->
             n = e0 + list_sum
                        (map (fun neighbor =>
                                if dict_mem a neighbor then 0
                                else match overlaps cw var neighbor,
                                           dict_get d neighbor with
                                     | Some (x, y), Some dn =>
                                         List.length (filter (differ x y word) dn)
                                     | _, _ => 0
                                     end) nbs)).
  { induction nbs as [|nb nbs IH]; simpl; intros e0 n0 H.
    - inversion H; subst. lia.
    - bind_inv H as e1 Hstep. apply IH in H.
      destruct (dict_mem a nb); [inversion Hstep; subst; lia|].
      destruct (overlaps cw var nb) as [[x y]|]; [|discriminate].
      unfold dict_get_exn in Hstep.
      destruct (dict_get d nb) as [dn|]; simpl in Hstep; [|discriminate].
      apply eliminated_inner in Hstep. lia. }
  intros Hn. apply H in Hn. lia.
Qed.

(** X16 — [order_domain_values] sorts by conflicts, it neither drops nor
    adds: what it returns is the domain of [var] in the stable ascending
    order of the number of words, in the domains of the neighbors that the
    assignment leaves open, whose character at the overlap differs from
    that of the word. So it is a rearrangement of the domain in which this
    number never decreases, ties keeping the order of the domain. *)
Theorem order_domain_values_sorts (cw : Crossword) (var : Var.t)
        (a : Assignment) (d : Domains) (dv l : list string) :
  dict_get d var = Some dv -> NoDup dv ->
  order_domain_values cw var a d = Ret l ->
  l = sorted (conflicts cw var a d) dv
  /\ Permutation l dv
  /\ StronglySorted (fun w1 w2 => conflicts cw var a d w1
                                  <= conflicts cw var a d w2) l.
Proof.
  intros Hdv Hnd H.
  assert (Hall : forall w, In w dv ->
                   eliminated cw var a d w = Ret (conflicts cw var a d w)).
  { pose proof H as H'. unfold order_domain_values, dict_get_exn in H'.
    rewrite Hdv in H'. cbn [bind] in H'. bind_inv H' as words Hwords.
    intros w Hw.
    destruct (order_words_all_ret cw var a d dv [] words Hwords w Hw) as [n Hn].
    rewrite Hn. f_equal. now apply eliminated_conflicts. }
  rewrite (order_domain_values_compute cw var a d _ dv Hdv Hnd Hall) in H.
  inversion H; subst l.
  split; [reflexivity|]. split; [apply sorted_perm | apply sorted_sorted].
Qed.

Lemma order_domain_values_sorts_witness :
  ["TEN"%string; "SIX"%string]
  = sorted (conflicts Fixtures.cross_lcv Fixtures.across3 []
                      Fixtures.cross_lcv_domains)
           ["SIX"%string; "TEN"%string]
  /\ Permutation ["TEN"%string; "SIX"%string] ["SIX"%string; "TEN"%string].
Proof.
  destruct (order_domain_values_sorts Fixtures.cross_lcv Fixtures.across3 []
              Fixtures.cross_lcv_domains ["SIX"%string; "TEN"%string]
              ["TEN"%string; "SIX"%string]) as (Heq & Hperm & _).
  - reflexivity.
  - repeat constructor; simpl; intuition discriminate.
  - reflexivity.
  - split; assumption.
Defined.

(** X17 — [order_domain_values] with nothing to count: when every neighbor
    of [var] is assigned (in particular when [var] has no neighbor), no
    table entry and no character is read, and the domain is returned in
    its own order. *)
Theorem order_domain_values_all_assigned (cw : Crossword) (var : Var.t)
        (a : Assignment) (d : Domains) (dv : list string) :
  dict_get d var = Some dv -> NoDup dv ->
  (forall n, In n (neighbors cw var) -> dict_mem a n = true) ->
  order_domain_values cw var a d = Ret dv.
Proof.
  intros Hdv Hnd Hall.
  rewrite (order_domain_values_compute cw var a d (fun _ => 0) dv Hdv Hnd).
  - f_equal. apply (sorted_all_equal _ dv 0). reflexivity.
  - intros w _. unfold eliminated. apply foldM_fixed.
    intros n Hn. now rewrite (Hall n Hn).
Qed.

Lemma order_domain_values_all_assigned_witness :
  order_domain_values Fixtures.cross_lcv Fixtures.across3
                      [(Fixtures.down4, "ASKS"%string)]
                      Fixtures.cross_lcv_domains
  = Ret ["SIX"%string; "TEN"%string].
Proof.
  apply order_domain_values_all_assigned.
  - reflexivity.
  - repeat constructor; simpl; intuition discriminate.
  - intros n Hn. simpl in Hn. destruct Hn as [<-|[]]. reflexivity.
Defined.

(** ** [backtrack] from any assignment *)

Lemma try_values_from (cw : Crossword)
      (recurse : Assignment -> res (option Assignment))
      (a : Assignment) (var : Var.t) :
  forall vs r,
    try_values cw recurse a var vs = Ret (Some r) ->
    exists value,
      In value vs
      /\ consistent cw (dict_set a var value) = Ret true
      /\ recurse (dict_set a var value) = Ret (Some r).
Proof.
  induction vs as [|v vs IH]; simpl; intros r H; [discriminate|].
  bind_inv H as c Hc. destruct c.
  - bind_inv H as result Hres. destruct result as [r'|].
    + inversion H; subst. exists v. auto.
    + destruct (IH r H) as (value & Hin & Hrest). exists value. auto.
  - destruct (IH r H) as (value & Hin & Hrest). exists value. auto.
Qed.

(** What the search adds to an assignment it adds from the domains. *)
Lemma backtrack_fuel_extends (cw : Crossword) (d : Domains) (fuel : nat) :
  forall a r,
    backtrack_fuel cw fuel d a = Ret (Some r) ->
    part_of a r
    /\ forall v w, dict_get r v = Some w ->
                   dict_get a v = Some w
                   \/ exists ws, dict_get d v = Some ws /\ In w ws.
Proof.
  induction fuel as [|fuel IH]; intros a r H; simpl in H; [discriminate|].
  destruct (List.length a =? List.length d).
  - inversion H; subst. split; [intros v w Hv; exact Hv | auto].
  - bind_inv H as var Hsel. bind_inv H as vs Hvs.
    apply select_unassigned_variable_spec in Hsel.
    destruct Hsel as (Hopen & ws & Hws & _).
    unfold dict_get_exn in Hvs. rewrite Hws in Hvs. inversion Hvs; subst vs.
    apply try_values_from in H. destruct H as (value & Hin & _ & Hrec).
    apply IH in Hrec. destruct Hrec as [Hpart Hfrom].
    assert (Hnone : dict_get a var = None).
    { unfold dict_mem in Hopen. destruct (dict_get a var); [discriminate|auto]. }
    split.
    + intros v w Hv. apply Hpart.
      destruct (Var.eq_dec var v) as [<-|Hneq]; [congruence|].
      now rewrite dict_get_set_neq.
    + intros v w Hv. destruct (Hfrom v w Hv) as [Hset|Hdom]; [|auto].
      destruct (Var.eq_dec var v) as [<-|Hneq].
      * rewrite dict_get_set_eq in Hset. inversion Hset; subst. right. eauto.
      * rewrite dict_get_set_neq in Hset by assumption. auto.
Qed.

(** X18 — [backtrack] from a partial assignment: started on an assignment
    over slots of the store that passes the consistency check, what it
    returns keeps every entry it was given, assigns every slot of the
    store, passes the consistency check, and gives to each further slot a
    word of that slot's domain. *)
Theorem backtrack_extends (cw : Crossword) (d : Domains) (a r : Assignment) :
  checked cw d a ->
  backtrack cw d a = Ret (Some r) ->
  part_of a r
  /\ assignment_complete d r = true
  /\ consistent cw r = Ret true
  /\ forall v w, dict_get r v = Some w ->
                 dict_get a v = Some w
                 \/ exists ws, dict_get d v = Some ws /\ In w ws.
Proof.
  intros Ha H. unfold backtrack in H.
  destruct (backtrack_fuel_extends cw d _ a r H) as [Hpart Hfrom].
  destruct (backtrack_fuel_sound cw d _ a r Ha H) as [Hch Hlen].
  split; [assumption|]. split; [|split; [|assumption]].
  - apply assignment_complete_spec.
    now apply (checked_full_complete cw d r Hch Hlen).
  - now destruct Hch as (_ & _ & Hc).
Qed.

Lemma backtrack_extends_witness :
  backtrack Fixtures.cross_sat Fixtures.cross_retry Fixtures.down_assigned
  = Ret (Some [(Fixtures.down4, "ASKS"%string); (Fixtures.across3, "SIX"%string)])
  /\ part_of Fixtures.down_assigned
       [(Fixtures.down4, "ASKS"%string); (Fixtures.across3, "SIX"%string)].
Proof.
  split; [reflexivity|].
  apply (backtrack_extends Fixtures.cross_sat Fixtures.cross_retry
           Fixtures.down_assigned).
  - split; [repeat constructor; intros []|]. split; [|reflexivity].
    intros v [<-|[]]. simpl. auto.
  - reflexivity.
Defined.

(** X19 — [backtrack] gives up only when it must: if it returns [None] from
    an assignment, then no assignment that contains it, gives every slot of
    the store a word of that slot's domain, and meets the conditions of the
    consistency check exists. *)
Theorem backtrack_none_exhaustive (cw : Crossword) (d : Domains)
        (a s : Assignment) :
  NoDup (keys a) ->
  backtrack cw d a = Ret None ->
  part_of a s ->
  (forall v ws, dict_get d v = Some ws ->
                exists w, dict_get s v = Some w /\ In w ws) ->
  consistent_conditions cw s ->
  False.
Proof.
  intros Hnd H Hpart Hdom Hcons. unfold backtrack in H. revert a Hnd Hpart H.
  generalize (S (List.length d)). intros fuel.
  induction fuel as [|fuel IH]; intros a Hnd Hpart H; simpl in H; [discriminate|].
  destruct (List.length a =? List.length d); [discriminate|].
  bind_inv H as var Hsel. bind_inv H as vs Hvs.
  apply select_unassigned_variable_spec in Hsel.
  destruct Hsel as (_ & ws & Hws & _).
  unfold dict_get_exn in Hvs. rewrite Hws in Hvs. inversion Hvs; subst vs.
  destruct (Hdom var ws Hws) as (w & Hw & Hin).
  apply (try_values_none _ _ _ _ _ w) in H; [|assumption|].
  - apply (IH (dict_set a var w)); auto.
    + now apply dict_set_NoDup.
    + now apply part_of_extend.
  - eapply part_of_consistent; [eassumption| |].
    + now apply dict_set_NoDup.
    + now apply part_of_extend.
Qed.

Lemma backtrack_none_exhaustive_witness :
  backtrack Fixtures.cross_unsat Fixtures.cross_unsat_node [] = Ret None
  /\ ~ consistent_conditions Fixtures.cross_unsat
         [(Fixtures.across3, "SIX"%string); (Fixtures.down4, "NINE"%string)].
Proof.
  split; [reflexivity|]. intros Hc.
  apply (backtrack_none_exhaustive Fixtures.cross_unsat
           Fixtures.cross_unsat_node []
           [(Fixtures.across3, "SIX"%string); (Fixtures.down4, "NINE"%string)]).
  - constructor.
  - reflexivity.
  - intros v w Hget. discriminate.
  - intros v ws. simpl.
    destruct (Var.eqb Fixtures.across3 v).
    + intros Hws. inversion Hws; subst. exists "SIX"%string. simpl. auto.
    + destruct (Var.eqb Fixtures.down4 v); [|discriminate].
      intros Hws. inversion Hws; subst. exists "NINE"%string. simpl. auto.
  - exact Hc.
Defined.

(** X20 — The depth of the recursion: from an assignment with distinct
    keys among the slots of the store, [backtrack] never nests deeper than
    the number of slots left open plus one; any allowance above that
    gives the outcome of [backtrack]. *)
Theorem backtrack_depth (cw : Crossword) (d : Domains) (a : Assignment)
        (fuel : nat) :
  NoDup (keys a) -> incl (keys a) (keys d) ->
  List.length d < fuel + List.length a ->
  backtrack_fuel cw fuel d a <> OutOfFuel
  /\ backtrack_fuel cw fuel d a = backtrack cw d a.
Proof.
  intros Hnd Hincl Hlen.
  assert (Hf : backtrack_fuel cw fuel d a <> OutOfFuel)
    by now apply backtrack_fuel_terminates.
  split; [assumption|]. unfold backtrack.
  destruct (Nat.le_gt_cases fuel (S (List.length d))) as [Hle|Hgt].
  - symmetry. now apply backtrack_fuel_more.
  - apply backtrack_fuel_more; [lia|].
    apply backtrack_fuel_terminates; auto. lia.
Qed.

Lemma backtrack_depth_witness :
  backtrack_fuel Fixtures.cross_sat 2 Fixtures.cross_retry Fixtures.down_assigned
  = backtrack Fixtures.cross_sat Fixtures.cross_retry Fixtures.down_assigned.
Proof.
  apply (backtrack_depth Fixtures.cross_sat Fixtures.cross_retry
           Fixtures.down_assigned 2).
  - repeat constructor. intros [].
  - intros v [<-|[]]. simpl. auto.
  - simpl. lia.
Defined.

(** ** [solve], again *)

Lemma domains_remove_shrinks (d0 dc dc' : Domains) (x : Var.t) (word : string) :
  (forall v ws', dict_get dc v = Some ws' ->
                 exists ws, dict_get d0 v = Some ws /\ incl ws' ws) ->
  domains_remove dc x word = Ret dc' ->
  forall v ws', dict_get dc' v = Some ws' ->
                exists ws, dict_get d0 v = Some ws /\ incl ws' ws.
Proof.
  intros Hinv H v ws' Hv. apply domains_remove_Ret in H.
  destruct H as (s0 & Hs0 & _ & ->).
  destruct (Var.eq_dec x v) as [<-|Hneq].
  - rewrite dict_get_set_eq in Hv. inversion Hv; subst ws'.
    destruct (Hinv x s0 Hs0) as (ws & Hws & Hincl).
    exists ws. split; [assumption|]. intros w Hw. apply Hincl.
    apply filter_In in Hw. tauto.
  - rewrite dict_get_set_neq in Hv by assumption. auto.
Qed.

Lemma enforce_node_consistency_shrinks (d d' : Domains) :
  enforce_node_consistency d = Ret d' ->
  forall v ws', dict_get d' v = Some ws' ->
                exists ws, dict_get d v = Some ws /\ incl ws' ws.
Proof.
  unfold enforce_node_consistency.
  apply (foldM_invariant
           (fun dc => forall v ws', dict_get dc v = Some ws' ->
                                    exists ws, dict_get d v = Some ws
                                               /\ incl ws' ws)).
  - intros dc x dc' _ Hdc H. bind_inv H as ws Hws. revert H.
    apply (foldM_invariant
             (fun dc => forall v ws', dict_get dc v = Some ws' ->
                                      exists ws, dict_get d v = Some ws
                                                 /\ incl ws' ws));
      [|assumption].
    intros dc1 word dc2 _ Hdc1 H. destruct (negb _).
    + eapply domains_remove_shrinks; eassumption.
    + inversion H; subst. assumption.
  - intros v ws' Hv. exists ws'. split; [assumption | apply incl_refl].
Qed.

(** X21 — [solve] answers with words of the vocabulary: every word of an
    assignment returned by [solve] is in the vocabulary, and is still in
    the domain that node consistency and AC-3 have left to its slot. *)
Theorem solve_uses_vocabulary (cw : Crossword) (a : Assignment) :
  solve cw = Ret (Some a) ->
  forall v w,
    dict_get a v = Some w ->
    In w (words cw)
    /\ exists d1 b d2 ws,
         enforce_node_consistency (init_domains cw) = Ret d1
         /\ ac3 cw None d1 = Ret (b, d2)
         /\ dict_get d2 v = Some ws /\ In w ws.
Proof.
  unfold solve. intros H v w Hv.
  bind_inv H as d1 Hd1. bind_inv H as st Hac. destruct st as [b d2]. simpl in H.
  unfold backtrack in H.
  destruct (backtrack_fuel_extends cw d2 _ [] a H) as [_ Hfrom].
  destruct (Hfrom v w Hv) as [Hnil|(ws & Hws & Hin)]; [discriminate|].
  split.
  - pose proof Hac as Hac'. unfold ac3, ac3_fuel in Hac'. simpl in Hac'.
    destruct (ac3_loop_shrinks cw _ _ _ _ _ Hac' v ws Hws) as (ws1 & Hws1 & Hi1).
    destruct (enforce_node_consistency_shrinks _ _ Hd1 v ws1 Hws1)
      as (ws0 & Hws0 & Hi0).
    assert (Hvar : In v (variables cw)).
    { rewrite <- init_domains_keys. apply dict_get_In_keys. eauto. }
    rewrite init_domains_get in Hws0 by assumption. inversion Hws0; subst ws0.
    auto.
  - exists d1, b, d2, ws. auto.
Qed.

Lemma solve_uses_vocabulary_witness :
  solve Fixtures.cross_sat = Ret (Some Fixtures.cross_sat_solution)
  /\ In "ASKS"%string (words Fixtures.cross_sat).
Proof.
  split; [reflexivity|].
  apply (solve_uses_vocabulary Fixtures.cross_sat Fixtures.cross_sat_solution
           eq_refl Fixtures.down4 "ASKS"%string eq_refl).
Defined.

(** X22 — [solve] comes to an end: the allowances it gives to the loop of
    AC-3 and to the recursion of the search are never used up, and any
    larger allowance gives the same outcome. *)
Theorem solve_ends (cw : Crossword) :
  solve cw <> OutOfFuel
  /\ forall fuel,
       (forall d1, enforce_node_consistency (init_domains cw) = Ret d1 ->
                   ac3_bound cw (initial_arcs cw d1) d1 <= fuel
                   /\ List.length d1 < fuel) ->
       solve_fuel cw fuel = solve cw.
Proof.
  split; [apply solve_terminates | intros fuel; apply solve_fuel_enough].
Qed.

(** ** No exception on a sound puzzle *)

Lemma words_match_total (xw : string) (a b : nat) (ys : list string) :
  (exists c, String.get a xw = Some c) ->
  (forall yw, In yw ys -> exists c, String.get b yw = Some c) ->
  exists m, words_match xw a b ys = Ret m.
Proof.
  intros [c Hc]. induction ys as [|y ys IH]; simpl; intros Hys; [eauto|].
  unfold str_index. rewrite Hc. simpl.
  destruct (Hys y (or_introl eq_refl)) as [cy Hcy]. rewrite Hcy. simpl.
  destruct (Ascii.eqb c cy); [eauto|]. apply IH. auto.
Qed.

Section ReviseTotal.
Context (x y : Var.t) (d : Domains) (a b : nat) (ys : list string).
Hypothesis Hys : dict_get d y = Some ys.

Let body (st : bool * Domains) (x_word : string) : res (bool * Domains) :=
  let (revised, domains) := st in
  ys <- dict_get_exn d y ;;
  m <- words_match x_word a b ys ;;
  if negb m
  then domains' <- domains_remove domains x x_word ;; Ret (true, domains')
  else Ret (revised, domains).

(** The loop of [revise] on a set: the words already visited and kept
    ([kept]) and those still to visit ([l]) make up the live domain, so
    every removal finds its word. *)
Lemma revise_loop_total (l : list string) :
  forall (kept : list string) (dc : Domains) (rev : bool),
    dict_get dc x = Some (kept ++ l) -> NoDup (kept ++ l) ->
    (forall w, In w l -> exists m, words_match w a b ys = Ret m) ->
    exists rev' kept',
      foldM body l (rev, dc) = Ret (rev', dict_set dc x kept')
      /\ incl kept' (kept ++ l) /\ NoDup kept'.
Proof.
  induction l as [|w l IH]; intros kept dc rev Hdc Hnd Hm.
  - exists rev, kept. simpl. rewrite app_nil_r in *.
    rewrite (dict_set_same dc x kept Hdc).
    split; [reflexivity|]. split; [apply incl_refl | assumption].
  - destruct (Hm w (or_introl eq_refl)) as [m Hw].
    assert (Hstep : body (rev, dc) w
                    = if m then Ret (rev, dc)
                      else Ret (true, dict_set dc x (kept ++ l))).
    { unfold body, dict_get_exn. rewrite Hys. simpl. rewrite Hw. simpl.
      destruct m; simpl; [reflexivity|].
      rewrite (domains_remove_present dc x w (kept ++ w :: l) Hdc)
        by (apply in_or_app; right; now left).
      simpl. rewrite filter_app. simpl. rewrite String.eqb_refl. simpl.
      rewrite <- filter_app, filter_remove_absent; [reflexivity|].
      now apply NoDup_remove_2 in Hnd. }
    change (foldM body (w :: l) (rev, dc))
      with (bind (body (rev, dc) w) (fun s' => foldM body l s')).
    rewrite Hstep. destruct m.
    + destruct (IH (kept ++ [w]) dc rev) as (rev' & kept' & Hrun & Hincl & Hk).
      * now rewrite <- app_assoc.
      * now rewrite <- app_assoc.
      * intros w' Hw'. apply Hm. now right.
      * exists rev', kept'. split; [exact Hrun|]. split; [|assumption].
        now rewrite <- app_assoc in Hincl.
    + destruct (IH kept (dict_set dc x (kept ++ l)) true)
        as (rev' & kept' & Hrun & Hincl & Hk).
      * apply dict_get_set_eq.
      * now apply NoDup_remove_1 in Hnd.
      * intros w' Hw'. apply Hm. now right.
      * exists rev', kept'. rewrite dict_set_set in Hrun.
        split; [exact Hrun|]. split; [|assumption].
        intros w' Hw'. apply Hincl in Hw'. apply in_app_or in Hw'.
        apply in_or_app. destruct Hw' as [?|?]; [now left | right; now right].
Qed.

End ReviseTotal.

Section NoException.
Context (cw : Crossword).
Hypothesis Hwf : well_formed cw = true.
Hypothesis Hrange : offsets_in_range cw = true.

Lemma fits_dict_set (d : Domains) (x : Var.t) (xs xs' : list string) :
  fits cw d -> dict_get d x = Some xs -> incl xs' xs -> NoDup xs' ->
  fits cw (dict_set d x xs').
Proof.
  intros [Hk Hd] Hx Hincl Hnd. split.
  - rewrite keys_dict_set_old; [assumption|]. apply dict_get_In_keys. eauto.
  - intros v ws Hv. destruct (Var.eq_dec x v) as [<-|Hneq].
    + rewrite dict_get_set_eq in Hv. inversion Hv; subst ws.
      split; [assumption|]. intros w Hw. apply (proj2 (Hd x xs Hx)). auto.
    + rewrite dict_get_set_neq in Hv by assumption. auto.
Qed.

Lemma revise_returns (x y : Var.t) (d : Domains) :
  fits cw d -> In x (variables cw) -> In y (neighbors cw x) ->
  exists rev d', revise cw x y d = Ret (rev, d') /\ fits cw d'.
Proof.
  intros Hfit Hx Hy. pose proof Hfit as [Hk Hd].
  destruct (neighbors_sym cw x y Hwf Hx Hy) as (_ & a & b & Ho & _).
  assert (Hyv : In y (variables cw)) by (apply neighbors_spec in Hy; tauto).
  destruct (offsets_in_range_spec cw x y a b Hrange Hx Hyv Ho) as [Ha Hb].
  assert (Hxs : exists xs, dict_get d x = Some xs)
    by (apply dict_get_In_keys; congruence).
  assert (Hys : exists ys, dict_get d y = Some ys)
    by (apply dict_get_In_keys; congruence).
  destruct Hxs as [xs Hxs], Hys as [ys Hys].
  destruct (Hd x xs Hxs) as [Hndx Hlx]. destruct (Hd y ys Hys) as [_ Hly].
  destruct (revise_loop_total x y d a b ys Hys xs [] d false Hxs Hndx)
    as (rev' & kept' & Hrun & Hincl & Hnd').
  { intros w Hw. apply words_match_total.
    - apply string_get_in_range. rewrite (Hlx w Hw). assumption.
    - intros yw Hyw. apply string_get_in_range. rewrite (Hly yw Hyw).
      assumption. }
  exists rev', (dict_set d x kept'). split.
  - unfold revise. rewrite Ho. unfold dict_get_exn at 1. rewrite Hxs.
    exact Hrun.
  - eapply fits_dict_set; eassumption.
Qed.

Lemma ac3_loop_returns (fuel : nat) :
  forall (queue : list Arc) (d : Domains),
    fits cw d -> arcs_between cw queue ->
    ac3_loop cw fuel queue d = OutOfFuel
    \/ exists b d', ac3_loop cw fuel queue d = Ret (b, d') /\ fits cw d'.
Proof.
  induction fuel as [|fuel IH]; intros [|[x y] queue] d Hfit Hq; simpl;
    try (right; eauto; fail); [now left|].
  destruct (Hq x y (or_introl eq_refl)) as [Hx Hy].
  destruct (revise_returns x y d Hfit Hx Hy) as (rev & d1 & Hrev & Hfit1).
  rewrite Hrev. simpl. destruct rev.
  - assert (Hdx : exists dx, dict_get d1 x = Some dx).
    { apply dict_get_In_keys. destruct Hfit1 as [Hk1 _]. congruence. }
    destruct Hdx as [dx Hdx]. unfold dict_get_exn. rewrite Hdx. simpl.
    destruct (List.length dx =? 0); [right; eauto|].
    apply IH; [assumption|].
    intros u v Hin. apply in_app_or in Hin. destruct Hin as [Hin|Hin].
    + apply Hq. now right.
    + apply in_map_iff in Hin. destruct Hin as (n & Heq & Hn).
      inversion Heq; subst. apply filter_In in Hn. destruct Hn as [Hn _].
      split; [apply neighbors_spec in Hn; tauto|].
      now apply (neighbors_sym cw v u Hwf Hx Hn).
  - apply IH; [assumption|]. intros u v Hin. apply Hq. now right.
Qed.

Lemma ac3_returns (d : Domains) :
  fits cw d -> exists b d', ac3 cw None d = Ret (b, d') /\ fits cw d'.
Proof.
  intros Hfit. pose proof (ac3_terminates cw None d) as Hterm.
  unfold ac3, ac3_fuel in *. simpl in *.
  destruct (ac3_loop_returns (ac3_bound cw (initial_arcs cw d) d)
              (initial_arcs cw d) d Hfit) as [Hoof|Hret];
    [|contradiction|assumption].
  intros x y Hin. apply initial_arcs_spec in Hin.
  destruct Hfit as [Hk _]. rewrite <- Hk. tauto.
Qed.

Lemma try_values_returns
      (recurse : Assignment -> res (option Assignment))
      (a : Assignment) (var : Var.t) (vs : list string) :
  (forall value, exists c, consistent cw (dict_set a var value) = Ret c) ->
  (forall value, recurse (dict_set a var value) = OutOfFuel
                 \/ exists r, recurse (dict_set a var value) = Ret r) ->
  try_values cw recurse a var vs = OutOfFuel
  \/ exists r, try_values cw recurse a var vs = Ret r.
Proof.
  intros Hc Hrec. induction vs as [|value vs IH]; simpl; [right; eauto|].
  destruct (Hc value) as [c Hcv]. rewrite Hcv. simpl.
  destruct c; [|assumption].
  destruct (Hrec value) as [Hoof|[r Hr]].
  - rewrite Hoof. now left.
  - rewrite Hr. simpl. destruct r; [right; eauto | assumption].
Qed.

Lemma backtrack_fuel_returns (d : Domains) (fuel : nat) :
  keys d = variables cw ->
  forall a,
    NoDup (keys a) -> incl (keys a) (keys d) ->
    backtrack_fuel cw fuel d a = OutOfFuel
    \/ exists r, backtrack_fuel cw fuel d a = Ret r.
Proof.
  intros Hk. induction fuel as [|fuel IH]; intros a Hnd Hincl; simpl;
    [now left|].
  destruct (Nat.eqb_spec (List.length a) (List.length d)) as [Hlen|Hlen];
    [right; eauto|].
  destruct (select_unassigned_variable d a) as [var|e|] eqn:Hsel; simpl.
  - apply select_unassigned_variable_spec in Hsel.
    destruct Hsel as (Hopen & ws & Hws & _).
    unfold dict_get_exn. rewrite Hws. simpl.
    assert (Hvar : In var (keys d)) by (apply dict_get_In_keys; eauto).
    assert (Hnin : ~ In var (keys a)).
    { intros Hin. apply dict_mem_In_keys in Hin. congruence. }
    assert (Hincl' : forall value,
               incl (keys (dict_set a var value)) (keys d)).
    { intros value. rewrite dict_set_new by assumption. unfold keys.
      rewrite map_app. intros k Hin. apply in_app_or in Hin.
      destruct Hin as [Hin|[<-|[]]]; auto. }
    apply try_values_returns.
    + intros value. apply consistent_total; try assumption.
      rewrite <- Hk. apply Hincl'.
    + intros value. apply IH; [now apply dict_set_NoDup | apply Hincl'].
  - exfalso.
    assert (Hall : incl (keys d) (keys a)).
    { intros u Hu. apply dict_mem_In_keys.
      destruct (dict_mem a u) eqn:Hm; [reflexivity|].
      destruct (select_unassigned_variable_exists d a u Hu Hm) as [v Hv].
      congruence. }
    assert (Hndd : NoDup (keys d)).
    { rewrite Hk. apply well_formed_spec in Hwf. tauto. }
    pose proof (NoDup_incl_length Hnd Hincl) as H1.
    pose proof (NoDup_incl_length Hndd Hall) as H2.
    unfold keys in H1, H2. rewrite !length_map in H1, H2. lia.
  - unfold select_unassigned_variable in Hsel. destruct (map fst _); discriminate.
Qed.

Lemma solve_returns_Ret :
  distinct_words (words cw) = true -> exists r, solve cw = Ret r.
Proof.
  intros Hwords. unfold solve.
  pose proof (proj1 (well_formed_spec cw Hwf)) as Hvars.
  assert (Hok : domains_ok (init_domains cw) = true).
  { apply domains_ok_spec. rewrite init_domains_keys. split; [assumption|].
    intros v ws Hget.
    assert (Hin : In v (variables cw)).
    { rewrite <- init_domains_keys. apply dict_get_In_keys. eauto. }
    rewrite init_domains_get in Hget by assumption. inversion Hget; subst.
    now apply distinct_words_NoDup. }
  destruct (enforce_node_consistency_exact _ Hok) as (d1 & Hrun & Hk1 & Hget1).
  rewrite Hrun. simpl.
  assert (Hfit1 : fits cw d1).
  { split; [now rewrite Hk1, init_domains_keys|].
    intros v ws Hv.
    assert (Hin : In v (variables cw)).
    { rewrite <- init_domains_keys, <- Hk1. apply dict_get_In_keys. eauto. }
    rewrite (Hget1 v _ (init_domains_get cw v Hin)) in Hv.
    inversion Hv; subst ws. unfold fitting. split.
    - apply NoDup_filter. now apply distinct_words_NoDup.
    - intros w Hw. apply filter_In in Hw. now apply Nat.eqb_eq. }
  destruct (ac3_returns d1 Hfit1) as (b & d2 & Hac & [Hk2 _]).
  rewrite Hac. simpl.
  pose proof (backtrack_fuel_terminates cw d2 (S (List.length d2)) []) as Hterm.
  unfold backtrack.
  destruct (backtrack_fuel_returns d2 (S (List.length d2)) Hk2 [])
    as [Hoof|Hret]; [constructor | intros ? [] | | assumption].
  exfalso. apply Hterm; [constructor | intros ? [] | simpl; lia | assumption].
Qed.

End NoException.

(** X23 — [solve] does not raise on a sound puzzle: with distinct slots, a
    symmetric overlap table whose offsets lie inside the slots, and a
    vocabulary without repetition, [solve] returns an assignment or
    [None]. *)
Theorem solve_returns (cw : Crossword) :
  puzzle_ok cw = true ->
  exists r, solve cw = Ret r.
Proof.
  unfold puzzle_ok. rewrite !andb_true_iff. intros [[Hwf Hrange] Hwords].
  now apply solve_returns_Ret.
Qed.

Lemma solve_returns_witness :
  exists r, solve Fixtures.arch_tie = Ret r.
Proof. apply solve_returns. reflexivity. Defined.

Lemma solve_some_complete_consistent (cw : Crossword) (a : Assignment) :
  solve cw = Ret (Some a) -> complete_consistent cw a.
Proof.
  unfold solve. intros H.
  bind_inv H as d1 Hd1. bind_inv H as st Hac. destruct st as [b d2]. simpl in H.
  unfold backtrack in H.
  destruct (backtrack_fuel_extends cw d2 _ [] a H) as [_ Hfrom].
  apply backtrack_fuel_sound in H.
  2:{ split; [constructor|]. split; [intros ? []|reflexivity]. }
  destruct H as [Hch Hlen].
  pose proof (checked_full_complete cw d2 a Hch Hlen) as Hfull.
  destruct Hch as (Hnd & _ & Hcons).
  pose proof (enforce_node_consistency_keys _ _ Hd1) as Hk1.
  pose proof (ac3_keys _ _ _ _ _ Hac) as Hk2.
  rewrite init_domains_keys in Hk1.
  split; [assumption|]. split; [|now apply consistent_iff].
  intros v Hv.
  assert (Hin : In v (keys a)) by (apply Hfull; congruence).
  apply dict_get_In_keys in Hin. destruct Hin as [w Hw].
  exists w. split; [assumption|].
  destruct (Hfrom v w Hw) as [Hnil|(ws & Hws & Hin)]; [discriminate|].
  unfold ac3, ac3_fuel in Hac. simpl in Hac.
  destruct (ac3_loop_shrinks cw _ _ _ _ _ Hac v ws Hws) as (ws1 & Hws1 & Hi1).
  destruct (enforce_node_consistency_shrinks _ _ Hd1 v ws1 Hws1)
    as (ws0 & Hws0 & Hi0).
  rewrite init_domains_get in Hws0 by assumption. inversion Hws0; subst ws0.
  auto.
Qed.

(** X24 — [solve] decides a sound puzzle: either it returns [None] and no
    complete consistent assignment of vocabulary words exists, or it
    returns an assignment and this is one. *)
Theorem solve_decides (cw : Crossword) :
  puzzle_ok cw = true ->
  (solve cw = Ret None /\ forall s, ~ complete_consistent cw s)
  \/ exists a, solve cw = Ret (Some a) /\ complete_consistent cw a.
Proof.
  intros Hok. pose proof Hok as Hok'. unfold puzzle_ok in Hok'.
  rewrite !andb_true_iff in Hok'. destruct Hok' as [[Hwf Hrange] Hwords].
  destruct (solve_returns_Ret cw Hwf Hrange Hwords) as [[a|] Hr].
  - right. exists a. split; [assumption|].
    now apply solve_some_complete_consistent.
  - left. split; [assumption|]. intros s Hs.
    exact (solve_complete cw s Hs Hr).
Qed.

Lemma solve_decides_witness :
  (solve Fixtures.arch_tie = Ret None
   /\ forall s, ~ complete_consistent Fixtures.arch_tie s)
  \/ exists a, solve Fixtures.arch_tie = Ret (Some a)
               /\ complete_consistent Fixtures.arch_tie a.
Proof. apply solve_decides. reflexivity. Defined.

(** ** The completeness test of [backtrack] *)

(** X25 — The test [len(assignment) == len(self.domains)] with which
    [backtrack] stops is the test of [assignment_complete] on every
    assignment that the search builds: for distinct keys taken among the
    distinct slots of the store, the two agree. *)
Theorem length_test_is_assignment_complete (d : Domains) (a : Assignment) :
  NoDup (keys d) -> NoDup (keys a) -> incl (keys a) (keys d) ->
  (List.length a =? List.length d) = assignment_complete d a.
Proof.
  intros Hd Ha Hincl.
  pose proof (NoDup_incl_length Ha Hincl) as Hle.
  unfold keys in Hle. rewrite !length_map in Hle.
  destruct (assignment_complete d a) eqn:Hc.
  - pose proof (proj1 (assignment_complete_spec d a) Hc) as Hall.
    pose proof (NoDup_incl_length Hd Hall) as Hge.
    unfold keys in Hge. rewrite !length_map in Hge.
    apply Nat.eqb_eq. lia.
  - apply Nat.eqb_neq. intros Hlen.
    assert (Hfull : forall v, In v (keys d) -> In v (keys a)).
    { apply NoDup_length_incl; [assumption| |assumption].
      unfold keys. rewrite !length_map. lia. }
    apply assignment_complete_spec in Hfull. congruence.
Qed.

Lemma length_test_is_assignment_complete_witness :
  (List.length Fixtures.down_assigned =? List.length Fixtures.cross_retry)
  = assignment_complete Fixtures.cross_retry Fixtures.down_assigned.
Proof.
  apply length_test_is_assignment_complete.
  - apply distinct_vars_NoDup. reflexivity.
  - apply distinct_vars_NoDup. reflexivity.
  - intros v [<-|[]]. simpl. auto.
Defined.

(** ** [ac3] and [revise] on stores that do or do not fit *)

(** X26 — [ac3] does not raise after node consistency: on a puzzle with a
    symmetric overlap table whose offsets lie inside the slots, and a store
    on the puzzle's slots whose domains are sets of words of the slot's
    length, [ac3] returns a flag and a store of the same kind. *)
Theorem ac3_returns_on_fitting_store (cw : Crossword) (d : Domains) :
  well_formed cw = true ->
  offsets_in_range cw = true ->
  fits cw d ->
  exists b d', ac3 cw None d = Ret (b, d') /\ fits cw d'.
Proof. intros Hwf Hrange Hfit. now apply ac3_returns. Qed.

Lemma fits_check (cw : Crossword) (d : Domains) :
  keys d = variables cw ->
  forallb (fun item =>
             distinct_words (snd item)
             && forallb (fun w => String.length w =? Var.length (fst item))
                        (snd item)) d = true ->
  NoDup (keys d) ->
  fits cw d.
Proof.
  intros Hk Hall Hnd. split; [assumption|]. intros v ws Hv.
  rewrite forallb_forall in Hall. specialize (Hall (v, ws) (dict_get_In _ _ _ Hv)).
  simpl in Hall. apply andb_true_iff in Hall. destruct Hall as [H1 H2].
  split; [now apply distinct_words_NoDup|].
  intros w Hw. rewrite forallb_forall in H2. now apply Nat.eqb_eq, H2.
Qed.

Lemma ac3_returns_on_fitting_store_witness :
  exists b d',
    ac3 Fixtures.cross_unsat None Fixtures.cross_unsat_node = Ret (b, d')
    /\ fits Fixtures.cross_unsat d'.
Proof.
  apply ac3_returns_on_fitting_store; [reflexivity | reflexivity |].
  apply fits_check; [reflexivity | reflexivity |].
  apply distinct_vars_NoDup. reflexivity.
Defined.

(** X27 — [revise] before node consistency: when the first word of [x]'s
    domain is too short to have a character at its offset and the domain of
    [y] is not empty, [revise] raises [IndexError]; so does [ac3] when the
    first arc it revises is such a pair. *)
Theorem revise_short_word_raises (cw : Crossword) (x y : Var.t) (d : Domains)
        (a b : nat) (xw yw : string) (xs ys : list string) :
  overlaps cw x y = Some (a, b) ->
  dict_get d x = Some (xw :: xs) ->
  dict_get d y = Some (yw :: ys) ->
  String.length xw <= a ->
  revise cw x y d = Exn IndexError
  /\ forall fuel queue, ac3_loop cw (S fuel) ((x, y) :: queue) d = Exn IndexError.
Proof.
  intros Ho Hx Hy Hlen.
  assert (Hget : String.get a xw = None).
  { clear - Hlen. revert a Hlen. induction xw as [|c s IH]; simpl; intros a Hlen.
    - reflexivity.
    - destruct a as [|a]; [lia|]. apply IH. lia. }
  assert (Hrev : revise cw x y d = Exn IndexError).
  { unfold revise. rewrite Ho. unfold dict_get_exn at 1. rewrite Hx. simpl.
    unfold dict_get_exn. rewrite Hy. simpl. unfold str_index. rewrite Hget.
    reflexivity. }
  split; [assumption|]. intros fuel queue. simpl. now rewrite Hrev.
Qed.

Lemma revise_short_word_raises_witness :
  revise Fixtures.cross_sat Fixtures.down4 Fixtures.across3 Fixtures.cross_short
  = Exn IndexError.
Proof.
  apply (proj1 (revise_short_word_raises Fixtures.cross_sat Fixtures.down4
                  Fixtures.across3 Fixtures.cross_short 1 0
                  "A"%string "SIX"%string ["ASKS"%string] []
                  eq_refl eq_refl eq_refl (le_n 1))).
Defined.

(** ** Rendering *)

Lemma list_set_spec {A : Type} (l : list A) :
  forall n x l',
    list_set l n x = Ret l' ->
    n < List.length l
    /\ List.length l' = List.length l
    /\ forall m, nth_error l' m = if m =? n then Some x else nth_error l m.
Proof.
  induction l as [|y l IH]; intros n x l' H; simpl in H; [discriminate|].
  destruct n as [|n].
  - inversion H; subst. simpl. repeat split; [lia|].
    intros [|m]; reflexivity.
  - bind_inv H as l1 Hl1. inversion H; subst.
    destruct (IH _ _ _ Hl1) as (Hlt & Hlen & Hnth). simpl.
    repeat split; [lia | lia |]. intros [|m]; simpl; [reflexivity | apply Hnth].
Qed.

Lemma list_set_total {A : Type} (l : list A) :
  forall n x, n < List.length l -> exists l', list_set l n x = Ret l'.
Proof.
  induction l as [|y l IH]; intros n x Hn; simpl in Hn; [lia|].
  destruct n as [|n]; simpl; [eauto|].
  destruct (IH n x) as [l' Hl']; [lia|]. rewrite Hl'. simpl. eauto.
Qed.

Lemma string_get_Some_lt (k : nat) (s : string) (c : ascii) :
  String.get k s = Some c -> k < String.length s.
Proof.
  revert k. induction s as [|c' s IH]; simpl; intros k H; [discriminate|].
  destruct k as [|k]; [lia|]. apply IH in H. lia.
Qed.

Section LetterGrid.
Context (h w : nat).

Lemma letters_set_spec (g g' : Letters) (i j : nat) (c : ascii) :
  rectangular h w g ->
  letters_set g i j c = Ret g' ->
  i < h /\ j < w /\ rectangular h w g'
  /\ forall i' j', letters_get g' i' j'
                   = if (i' =? i) && (j' =? j) then Some c
                     else letters_get g i' j'.
Proof.
  intros [Hh Hw] H. unfold letters_set in H.
  bind_inv H as row Hrow. bind_inv H as row' Hrow'.
  unfold list_get in Hrow.
  destruct (nth_error g i) as [r|] eqn:Hgi; [|discriminate].
  inversion Hrow; subst r.
  destruct (list_set_spec _ _ _ _ Hrow') as (Hj & Hlen' & Hnth').
  destruct (list_set_spec _ _ _ _ H) as (Hi & Hlen & Hnth).
  assert (Hroww : List.length row = w) by (apply Hw; eapply nth_error_In; eauto).
  split; [lia|]. split; [lia|]. split.
  - split; [lia|]. intros r Hr. apply In_nth_error in Hr. destruct Hr as [m Hm].
    rewrite Hnth in Hm. destruct (m =? i).
    + inversion Hm; subst. lia.
    + apply Hw. eapply nth_error_In; eauto.
  - intros i' j'. unfold letters_get. rewrite Hnth.
    destruct (Nat.eqb_spec i' i) as [->|Hneq]; simpl; [|reflexivity].
    rewrite Hnth', Hgi. destruct (j' =? j); reflexivity.
Qed.

Lemma letters_set_total (g : Letters) (i j : nat) (c : ascii) :
  rectangular h w g -> i < h -> j < w ->
  exists g', letters_set g i j c = Ret g'.
Proof.
  intros [Hh Hw] Hi Hj. unfold letters_set, list_get.
  destruct (nth_error g i) as [row|] eqn:Hgi.
  2:{ apply nth_error_None in Hgi. lia. }
  simpl.
  assert (Hroww : List.length row = w) by (apply Hw; eapply nth_error_In; eauto).
  destruct (list_set_total row j (Some c)) as [row' Hrow']; [lia|].
  rewrite Hrow'. simpl. apply list_set_total. lia.
Qed.

Section Word.
Context (v : Var.t) (word : string).

Let step (letters : Letters) (k : nat) : res Letters :=
  let (i, j) := cell_of v k in
  c <- str_index word k ;;
  letters_set letters i j c.

(** Writing the letters [s], ..., [s + n - 1] of the word. *)
Lemma write_letters (n : nat) :
  forall s g g',
    rectangular h w g ->
    foldM step (seq s n) g = Ret g' ->
    rectangular h w g'
    /\ (forall k, s <= k < s + n ->
                  fst (cell_of v k) < h /\ snd (cell_of v k) < w)
    /\ forall i j,
         (exists k c, s <= k < s + n /\ cell_of v k = (i, j)
                      /\ String.get k word = Some c
                      /\ letters_get g' i j = Some c)
         \/ ((forall k, s <= k < s + n -> cell_of v k <> (i, j))
             /\ letters_get g' i j = letters_get g i j).
Proof.
  induction n as [|n IH]; intros s g g' Hg H; simpl in H.
  - inversion H; subst. split; [assumption|]. split; [intros k Hk; lia|].
    intros i j. right. split; [intros k Hk; lia | reflexivity].
  - bind_inv H as g1 Hstep. unfold step in Hstep.
    destruct (cell_of v s) as [i0 j0] eqn:Hcell.
    bind_inv Hstep as c Hc. unfold str_index in Hc.
    destruct (String.get s word) as [c0|] eqn:Hget; [|discriminate].
    inversion Hc; subst c0.
    destruct (letters_set_spec _ _ _ _ _ Hg Hstep) as (Hi0 & Hj0 & Hg1 & Hread).
    destruct (IH (S s) g1 g' Hg1 H) as (Hg' & Hin & Hcont).
    split; [assumption|]. split.
    + intros k Hk. destruct (Nat.eq_dec k s) as [->|Hneq].
      * rewrite Hcell. simpl. lia.
      * apply Hin. lia.
    + intros i j. destruct (Hcont i j) as [(k & c' & Hk & Hck & Hgk & Hv)|[Hno Hv]].
      * left. exists k, c'. repeat split; auto; lia.
      * rewrite Hread in Hv.
        destruct (Nat.eqb_spec i i0) as [->|Hni]; simpl in Hv.
        -- destruct (Nat.eqb_spec j j0) as [->|Hnj]; simpl in Hv.
           ++ left. exists s, c. repeat split; auto; lia.
           ++ right. split; [|assumption]. intros k Hk.
              destruct (Nat.eq_dec k s) as [->|Hneq]; [|apply Hno; lia].
              rewrite Hcell. congruence.
        -- right. split; [|assumption]. intros k Hk.
           destruct (Nat.eq_dec k s) as [->|Hneq]; [|apply Hno; lia].
           rewrite Hcell. congruence.
Qed.

Lemma write_letters_total (n : nat) :
  forall s g,
    rectangular h w g -> s + n <= String.length word ->
    (forall k, s <= k < s + n ->
               fst (cell_of v k) < h /\ snd (cell_of v k) < w) ->
    exists g', foldM step (seq s n) g = Ret g'.
Proof.
  induction n as [|n IH]; intros s g Hg Hlen Hin; simpl; [eauto|].
  assert (Hstep : exists g1, step g s = Ret g1).
  { unfold step. destruct (Hin s) as [Hi Hj]; [lia|].
    destruct (cell_of v s) as [i0 j0]. simpl in Hi, Hj.
    destruct (string_get_in_range s word) as [c Hc]; [lia|].
    unfold str_index. rewrite Hc. simpl. now apply letters_set_total. }
  destruct Hstep as [g1 Hg1].
  change (foldM step (s :: seq (S s) n) g)
    with (bind (step g s) (fun s' => foldM step (seq (S s) n) s')).
  rewrite Hg1. cbn [bind].
  apply IH; [|lia|intros k Hk; apply Hin; lia].
  unfold step in Hg1. destruct (cell_of v s) as [i0 j0].
  bind_inv Hg1 as c Hc.
  now destruct (letters_set_spec _ _ _ _ _ Hg Hg1) as (_ & _ & Hr & _).
Qed.

Lemma letter_at_hit (k i j : nat) :
  cell_of v k = (i, j) -> letter_at (v, word) i j = String.get k word.
Proof.
  unfold cell_of, letter_at. intros H. inversion H; subst i j. clear H.
  destruct (Var.direction v).
  - rewrite Nat.add_0_r, Nat.eqb_refl. simpl.
    replace (Var.j v <=? Var.j v + k) with true
      by (symmetry; apply Nat.leb_le; lia).
    f_equal. lia.
  - rewrite Nat.add_0_r, Nat.eqb_refl. simpl.
    replace (Var.i v <=? Var.i v + k) with true
      by (symmetry; apply Nat.leb_le; lia).
    f_equal. lia.
Qed.

Lemma letter_at_miss (i j : nat) :
  (forall k, k < String.length word -> cell_of v k <> (i, j)) ->
  letter_at (v, word) i j = None.
Proof.
  intros Hno. destruct (letter_at (v, word) i j) as [c|] eqn:Hl; [|reflexivity].
  exfalso. unfold letter_at in Hl. destruct (Var.direction v) eqn:Hd.
  - destruct ((i =? Var.i v) && (Var.j v <=? j)) eqn:Hc; [|discriminate].
    apply andb_true_iff in Hc. destruct Hc as [Hi Hj].
    apply Nat.eqb_eq in Hi. apply Nat.leb_le in Hj.
    apply (Hno (j - Var.j v)); [eapply string_get_Some_lt; eassumption|].
    unfold cell_of. rewrite Hd. f_equal; lia.
  - destruct ((j =? Var.j v) && (Var.i v <=? i)) eqn:Hc; [|discriminate].
    apply andb_true_iff in Hc. destruct Hc as [Hj Hi].
    apply Nat.eqb_eq in Hj. apply Nat.leb_le in Hi.
    apply (Hno (i - Var.i v)); [eapply string_get_Some_lt; eassumption|].
    unfold cell_of. rewrite Hd. f_equal; lia.
Qed.

Lemma write_word (g g' : Letters) :
  rectangular h w g ->
  foldM step (seq 0 (String.length word)) g = Ret g' ->
  rectangular h w g'
  /\ (forall k, k < String.length word ->
                fst (cell_of v k) < h /\ snd (cell_of v k) < w)
  /\ forall i j, letters_get g' i j
                 = match letter_at (v, word) i j with
                   | Some c => Some c
                   | None => letters_get g i j
                   end.
Proof.
  intros Hg H. destruct (write_letters _ _ _ _ Hg H) as (Hg' & Hin & Hcont).
  split; [assumption|]. split; [intros k Hk; apply Hin; lia|].
  intros i j. destruct (Hcont i j) as [(k & c & Hk & Hck & Hgk & Hv)|[Hno Hv]].
  - rewrite (letter_at_hit k i j Hck), Hgk. assumption.
  - rewrite letter_at_miss; [assumption|]. intros k Hk. apply Hno. lia.
Qed.

End Word.

Lemma letter_grid_loop (a : Assignment) :
  forall g g',
    rectangular h w g ->
    foldM (fun letters (item : Var.t * string) =>
             let (variable, word) := item in
             foldM (fun letters k =>
                      let (i, j) := cell_of variable k in
                      c <- str_index word k ;;
                      letters_set letters i j c)
                   (seq 0 (String.length word)) letters) a g = Ret g' ->
    rectangular h w g'
    /\ (forall v word k, In (v, word) a -> k < String.length word ->
                         fst (cell_of v k) < h /\ snd (cell_of v k) < w)
    /\ forall i j,
         letters_get g' i j
         = fold_left (fun acc item =>
                        match letter_at item i j with
                        | Some c => Some c
                        | None => acc
                        end) a (letters_get g i j).
Proof.
  induction a as [|[v word] a IH]; intros g g' Hg H; simpl in H.
  - inversion H; subst. split; [assumption|]. split; [intros ? ? ? []|].
    reflexivity.
  - bind_inv H as g1 Hstep.
    destruct (write_word v word g g1 Hg Hstep) as (Hg1 & Hin1 & Hc1).
    destruct (IH g1 g' Hg1 H) as (Hg' & Hin & Hc).
    split; [assumption|]. split.
    + intros v' word' k [Heq|Hin'] Hk; [inversion Heq; subst; auto | eauto].
    + intros i j. rewrite Hc. simpl. now rewrite Hc1.
Qed.

Lemma letter_grid_loop_total (a : Assignment) :
  forall g,
    rectangular h w g ->
    (forall v word k, In (v, word) a -> k < String.length word ->
                      fst (cell_of v k) < h /\ snd (cell_of v k) < w) ->
    exists g',
      foldM (fun letters (item : Var.t * string) =>
               let (variable, word) := item in
               foldM (fun letters k =>
                        let (i, j) := cell_of variable k in
                        c <- str_index word k ;;
                        letters_set letters i j c)
                     (seq 0 (String.length word)) letters) a g = Ret g'.
Proof.
  induction a as [|[v word] a IH]; intros g Hg Hin; cbn [foldM]; [eauto|].
  destruct (write_letters_total v word (String.length word) 0 g Hg)
    as [g1 Hg1]; [lia | intros k Hk; apply (Hin v word); [now left | lia] |].
  rewrite Hg1. cbn [bind].
  apply IH; [|intros v' word' k Hin'; apply Hin; now right].
  now destruct (write_word v word g g1 Hg Hg1) as (Hr & _).
Qed.

End LetterGrid.

Lemma blank_rectangular (h w : nat) :
  rectangular h w (repeat (repeat (@None ascii) w) h).
Proof.
  split; [apply repeat_length|]. intros row Hrow.
  apply repeat_spec in Hrow. subst. apply repeat_length.
Qed.

Lemma blank_get (h w i j : nat) :
  letters_get (repeat (repeat None w) h) i j = None.
Proof.
  unfold letters_get. destruct (nth_error _ i) as [row|] eqn:Hi; [|reflexivity].
  apply nth_error_In, repeat_spec in Hi. subst row.
  destruct (nth_error _ j) as [c|] eqn:Hj; [|reflexivity].
  apply nth_error_In, repeat_spec in Hj. now subst.
Qed.

(** X28 — The bounds of [letter_grid]: it returns an array exactly when
    every letter of every entry falls inside the grid (otherwise an index
    is out of range), and the array then has [height] rows of [width]
    cells. *)
Theorem letter_grid_bounds (b : Layout) (a : Assignment) :
  (in_bounds b a -> exists g, letter_grid b a = Ret g)
  /\ (forall g, letter_grid b a = Ret g ->
                in_bounds b a /\ rectangular (height b) (width b) g).
Proof.
  split.
  - intros Hin. unfold letter_grid.
    apply (letter_grid_loop_total (height b) (width b));
      [apply blank_rectangular | exact Hin].
  - intros g H. unfold letter_grid in H.
    destruct (letter_grid_loop (height b) (width b) a _ g
                (blank_rectangular _ _) H) as (Hg & Hin & _).
    split; [exact Hin | assumption].
Qed.

Lemma letter_grid_reads (b : Layout) (a : Assignment) (g : Letters) :
  letter_grid b a = Ret g ->
  forall i j, letters_get g i j = written a i j.
Proof.
  intros H i j. unfold letter_grid in H.
  destruct (letter_grid_loop (height b) (width b) a _ g
              (blank_rectangular _ _) H) as (_ & _ & Hc).
  rewrite Hc, blank_get. reflexivity.
Qed.

(** X29 — The content of [letter_grid]: each cell of the array holds the
    letter put there by the last entry of the assignment that covers the
    cell, and [None] when no entry covers it. *)
Theorem letter_grid_content (b : Layout) (a : Assignment) (g : Letters) :
  letter_grid b a = Ret g ->
  forall i j, letters_get g i j = written a i j.
Proof. apply letter_grid_reads. Qed.

Lemma letter_grid_content_witness :
  exists g,
    letter_grid RenderFixtures.cross_layout Fixtures.cross_sat_solution = Ret g
    /\ letters_get g 1 0 = written Fixtures.cross_sat_solution 1 0.
Proof.
  eexists. split; [reflexivity|].
  apply (letter_grid_content RenderFixtures.cross_layout
           Fixtures.cross_sat_solution).
  reflexivity.
Defined.

Lemma letter_grid_bounds_witness :
  exists g,
    letter_grid RenderFixtures.cross_layout Fixtures.cross_sat_solution = Ret g
    /\ in_bounds RenderFixtures.cross_layout Fixtures.cross_sat_solution
    /\ rectangular 4 3 g.
Proof.
  eexists. split; [reflexivity|].
  apply (proj2 (letter_grid_bounds RenderFixtures.cross_layout
                  Fixtures.cross_sat_solution)).
  reflexivity.
Defined.

Lemma mapM_spec {A B : Type} (f : A -> res B) (l : list A) :
  forall bs,
    mapM f l = Ret bs ->
    List.length bs = List.length l
    /\ forall n x, nth_error l n = Some x ->
                   exists y, nth_error bs n = Some y /\ f x = Ret y.
Proof.
  induction l as [|a l IH]; simpl; intros bs H.
  - inversion H; subst. split; [reflexivity|]. intros [|n] x Hn; discriminate.
  - bind_inv H as b Hb. bind_inv H as bs' Hbs. inversion H; subst.
    destruct (IH bs' Hbs) as [Hlen Hnth]. split; [simpl; lia|].
    intros [|n] x Hn; simpl in *.
    + inversion Hn; subst. eauto.
    + now apply Hnth.
Qed.

Lemma nth_error_seq_lt (n : nat) :
  forall s i, i < n -> nth_error (seq s n) i = Some (s + i).
Proof.
  induction n as [|n IH]; intros s i Hi; [lia|]. simpl.
  destruct i as [|i]; simpl; [f_equal; lia|].
  rewrite IH by lia. f_equal. lia.
Qed.

(** X30 — What [print] shows: when it returns it has written [height]
    lines of [width] cells; a cell that the structure closes shows the
    block, an open cell shows the letter that the last covering entry of
    the assignment puts there, or a blank when no entry covers it. *)
Theorem print_cells (b : Layout) (a : Assignment) (lines : list (list glyph)) :
  print b a = Ret lines ->
  List.length lines = height b
  /\ forall i j, i < height b -> j < width b ->
       exists line row fillable,
         nth_error lines i = Some line
         /\ List.length line = width b
         /\ nth_error (structure b) i = Some row
         /\ nth_error row j = Some fillable
         /\ nth_error line j
            = Some (if (fillable : bool)
                    then match written a i j with
                         | Some c => Letter c
                         | None => Space
                         end
                    else Block).
Proof.
  unfold print. intros H. bind_inv H as letters Hl.
  destruct (mapM_spec _ _ _ H) as [Hlen Hrows].
  rewrite length_seq in Hlen. split; [assumption|].
  intros i j Hi Hj.
  destruct (Hrows i i) as (line & Hline & Hrun).
  { rewrite nth_error_seq_lt by assumption. reflexivity. }
  destruct (mapM_spec _ _ _ Hrun) as [Hlen' Hcells].
  rewrite length_seq in Hlen'.
  destruct (Hcells j j) as (g & Hg & Hcell).
  { rewrite nth_error_seq_lt by assumption. reflexivity. }
  bind_inv Hcell as row Hrow. bind_inv Hcell as fillable Hfill.
  unfold list_get in Hrow, Hfill.
  destruct (nth_error (structure b) i) as [row0|] eqn:Hsi; [|discriminate].
  inversion Hrow; subst row0.
  destruct (nth_error row j) as [f0|] eqn:Hsj; [|discriminate].
  inversion Hfill; subst f0.
  exists line, row, fillable. repeat split; auto.
  rewrite Hg. f_equal. destruct fillable; [|now inversion Hcell].
  bind_inv Hcell as lrow Hlrow. bind_inv Hcell as letter Hletter.
  inversion Hcell; subst g.
  rewrite <- (letter_grid_reads b a letters Hl i j).
  unfold letters_get, list_get in *.
  destruct (nth_error letters i) as [r|]; [|discriminate].
  inversion Hlrow; subst r.
  destruct (nth_error lrow j) as [c0|]; [|discriminate].
  inversion Hletter; subst c0. reflexivity.
Qed.

Lemma print_cells_witness :
  exists lines,
    print RenderFixtures.cross_layout Fixtures.cross_sat_solution = Ret lines
    /\ List.length lines = height RenderFixtures.cross_layout.
Proof.
  eexists. split; [reflexivity|].
  apply (print_cells RenderFixtures.cross_layout Fixtures.cross_sat_solution).
  reflexivity.
Defined.
